(** * Sweep homogenisation of a polar radar volume ([sort_radar.main])

    A shallow embedding of [src/sort_radar.py] and the properties of its
    specification that can be stated over it, followed by further
    properties of [main] and of [smooth_vel] and [dual_nyquist] of
    [src/vel_correction.py].

    Modelling conventions.
    - Array elements (angles, ranges, field values) are exact rationals
      [Qc]; the rounding of IEEE arithmetic, NaN and the infinities are
      not modelled.  A storage precision is an integer type of 8 to 64
      bits or a floating one; casting to a floating one keeps the value,
      casting to an integer type truncates toward zero and keeps the
      integer when the type can hold it.
    - A 1-D array is a list, a 2-D array a list of rows.  A masked array
      carries its mask gate by gate ([gate]); a plain [ndarray] is a masked
      array whose mask is [false] everywhere.
    - Ray and sweep indices are [nat] (the [int32] index tables of a volume
      stay far below [2^31]).
    - Python exceptions are values of [exn]; [main] returns an [outcome]
      that also holds the radar object as the exception left it, because
      [main] mutates the object it is given.
    - [numpy.argsort], the SciPy interpolators and Py-ART's gate geometry
      are an interface ([Externals]) with the part of their contract the
      code relies on: [argsort] returns some sorting permutation (NumPy's
      default sort is not stable), the interpolators and the geometry are
      arbitrary functions that may raise.  The interface also holds what a
      cast stores for a number that the integer type cannot hold (some
      value of the type; on the usual platforms the 8- and 16-bit types
      wrap around).  NumPy's shape checks are modelled where the code
      meets them ([masked_where], [concatenate]), so nothing is assumed
      about the shapes these functions return. *)

From Stdlib Require Import QArith Qcanon Qround Lqa.
From stdpp Require Import base option list list_numbers sorting numbers strings.

Close Scope Qc_scope.
Open Scope nat_scope.

(** ** Exceptions and results *)

Inductive exn : Type :=
  | ValueError
  | IndexError
  | NameError
  | KeyError
  | ZeroDivisionError.

Inductive result (A : Type) : Type :=
  | Ok (a : A)
  | Err (e : exn).
Arguments Ok {A} a.
Arguments Err {A} e.

Definition rbind {A B} (m : result A) (k : A → result B) : result B :=
  match m with
  | Ok a => k a
  | Err e => Err e
  end.

Notation "x ←? m ; k" := (rbind m (λ x, k))
  (at level 20, m at level 100, k at level 200, only parsing).
Notation "' p ←? m ; k" := (rbind m (λ x, let 'p := x in k))
  (at level 20, p pattern, m at level 100, k at level 200, only parsing).

Definition or_raise {A} (e : exn) (o : option A) : result A :=
  match o with
  | Some a => Ok a
  | None => Err e
  end.

(** Left-to-right loop with an accumulator that stops at the first
    exception: [for x in l: acc = f(acc, x)]. *)
Fixpoint for_each {A S} (f : S → A → result S) (s : S) (l : list A)
  : result S :=
  match l with
  | [] => Ok s
  | x :: l' => s' ←? f s x; for_each f s' l'
  end.

(** ** Numbers *)

Definition Qc_leb (x y : Qc) : bool := Qle_bool x y.
Definition Qc_eqb (x y : Qc) : bool := Qeq_bool x y.

(** Truncation toward zero, the float-to-integer cast of NumPy. *)
Definition Qc_trunc (x : Qc) : Z :=
  if Qc_leb 0 x then Qfloor x else Qceiling x.

(** The storage precisions: NumPy's integer types, signed or unsigned and
    of 8, 16, 32 or 64 bits, and the floating ones. *)
Inductive width : Type :=
  | W8
  | W16
  | W32
  | W64.

Definition bits (w : width) : Z :=
  match w with
  | W8 => 8
  | W16 => 16
  | W32 => 32
  | W64 => 64
  end.

Inductive dtype : Type :=
  | IntType (signed : bool) (w : width)
  | FloatType.

Definition int_min (signed : bool) (w : width) : Z :=
  if signed then (- 2 ^ (bits w - 1))%Z else 0%Z.

Definition int_max (signed : bool) (w : width) : Z :=
  if signed then (2 ^ (bits w - 1) - 1)%Z else (2 ^ bits w - 1)%Z.

(** Whether an integer type can hold [n]. *)
Definition fits (signed : bool) (w : width) (n : Z) : bool :=
  (int_min signed w <=? n)%Z && (n <=? int_max signed w)%Z.

(** The numbers whose integer part a type can hold: all of them for a
    floating type, those strictly between [int_min - 1] and [int_max + 1]
    for an integer type. *)
Definition representable (t : dtype) (x : Qc) : Prop :=
  match t with
  | IntType signed w =>
      (Qc_of_Z (int_min signed w - 1) < x)%Qc ∧
      (x < Qc_of_Z (int_max signed w + 1))%Qc
  | FloatType => True
  end.


Definition Qc_of_nat (n : nat) : Qc := Qc_of_Z (Z.of_nat n).

(** [numpy.round(x, 3)]: scale by 1000, round half to even, scale back. *)
Definition round_half_even (x : Qc) : Z :=
  let f := Qfloor x in
  let r := (x - Qc_of_Z f)%Qc in
  let half := Q2Qc (1 # 2) in
  if Qc_eqb r half then (if Z.even f then f else (f + 1)%Z)
  else if Qc_leb r half then f else (f + 1)%Z.

Definition np_round3 (x : Qc) : Qc :=
  (Qc_of_Z (round_half_even (x * Qc_of_Z 1000)) / Qc_of_Z 1000)%Qc.

(** ** Array primitives of NumPy *)

(** [a[start:stop]] for non-negative bounds. *)
Definition slice {A} (s : nat * nat) (l : list A) : list A :=
  take (s.2 - s.1) (drop s.1 l).

(** [np.delete(a, [-1], axis=0)] of a plain array. *)
Definition np_delete_last {A} (l : list A) : result (list A) :=
  match l with
  | [] => Err IndexError
  | _ => Ok (removelast l)
  end.

(** [a[idx]] with an integer index array. *)
Definition fancy_index {A} (l : list A) (idx : list nat) : result (list A) :=
  or_raise IndexError (mapM (λ i, l !! i) idx).

(** [np.linspace(start, stop, num)]. *)
Definition linspace (start stop : Qc) (num : nat) : list Qc :=
  let delta := (stop - start)%Qc in
  if decide (num ≤ 1) then
    (λ i, Qc_of_nat i * delta + start)%Qc <$> seq 0 num
  else
    let step := (delta / Qc_of_nat (num - 1))%Qc in
    ((λ i, Qc_of_nat i * step + start)%Qc <$> seq 0 (num - 1)) ++ [stop].

(** [np.resize(a, n)]: as many whole copies of [a] as needed, cut at [n];
    zeros when [a] is empty. *)
Definition np_resize (a : list Qc) (n : nat) : list Qc :=
  match a with
  | [] => replicate n 0%Qc
  | _ =>
      let repeats := (n + length a - 1) / length a in
      take n (concat (replicate repeats a))
  end.

(** [np.arange(start, stop, step)] on non-negative integers. *)
Definition np_arange (start stop step : nat) : result (list nat) :=
  if decide (step = 0) then Err ZeroDivisionError
  else Ok ((λ i, start + i * step) <$> seq 0 ((stop - start + step - 1) / step)).

(** [np.min] of an integer array. *)
Definition np_min (l : list nat) : result nat :=
  match l with
  | [] => Err ValueError
  | x :: l' => Ok (foldr Nat.min x l')
  end.

(** ** Masked arrays *)

Record gate : Type := Gate { gval : Qc; gmask : bool }.

Definition marray := list (list gate).

Definition unmasked (x : Qc) : gate := Gate x false.

Definition shape {A} (a : list (list A)) : list nat := length <$> a.

Definition gate_count {A} (a : list (list A)) : nat := length (concat a).

(** [a.shape] of a two-dimensional array with at least one row. *)
Definition np_shape {A} (a : list (list A)) : list nat :=
  [length a; length (default [] (head a))].

(** [a[i, j]]. *)
Definition at2 {A} (a : list (list A)) (i j : nat) : option A :=
  row ← a !! i; row !! j.

(** [np.ma.masked_where(cond, a)]: the shapes must agree, and the new mask
    is the union of the old one and the condition. *)
Definition mask_gate (c : bool) (g : gate) : gate :=
  Gate (gval g) (c || gmask g).

Definition masked_where (cond : list (list bool)) (a : marray)
  : result marray :=
  if decide (shape cond = shape a)
  then Ok (zip_with (zip_with mask_gate) cond a)
  else Err IndexError.

Definition Qc_min (x y : Qc) : Qc := if Qc_leb x y then x else y.

Definition opt_min (g : gate) (acc : option Qc) : option Qc :=
  if gmask g then acc
  else match acc with
       | None => Some (gval g)
       | Some m => Some (Qc_min (gval g) m)
       end.

(** [a.min()] of a masked array: the least unmasked value, the [masked]
    constant ([None]) when every gate is masked, [ValueError] on an array
    without elements. *)
Definition ma_min (a : marray) : result (option Qc) :=
  if decide (gate_count a = 0) then Err ValueError
  else Ok (foldr opt_min None (concat a)).

(** The value [a.min()] returns, as a property of the gates of [a]. *)
Definition least_unmasked (l : list gate) (m : option Qc) : Prop :=
  match m with
  | Some v =>
      (∃ g, g ∈ l ∧ gmask g = false ∧ gval g = v) ∧
      (∀ g, g ∈ l → gmask g = false → (v ≤ gval g)%Qc)
  | None => ∀ g, g ∈ l → gmask g = true
  end.

(** [np.ma.masked_equal(a, v)]. *)
Definition masked_equal (a : marray) (v : option Qc) : marray :=
  match v with
  | Some v => map (map (λ g, mask_gate (Qc_eqb (gval g) v) g)) a
  | None => map (map (mask_gate true)) a
  end.

(** Whether [masked_equal a m] masks a gate of value [x]. *)
Definition hits (x : Qc) (m : option Qc) : bool :=
  match m with
  | Some v => Qc_eqb x v
  | None => true
  end.

(** ** The radar volume (the part of Py-ART's [Radar] that [main] touches) *)

Record Field : Type := MkField {
  dtype_of : dtype;        (* storage precision of the field's array *)
  data : marray            (* [fields[name]['data']], one row per ray *)
}.

Record Radar : Type := MkRadar {
  sweep_number : list nat;
  range : list Qc;
  azimuth : list Qc;
  elevation : list Qc;
  fields : list (string * Field);   (* the dict, in key order *)
  unambiguous_range : list Qc;      (* one value per ray *)
  sweep_start_ray_index : list nat;
  sweep_end_ray_index : list nat;
  nrays : nat
}.

(** Everything of a volume but its fields. *)
Definition geometry (r : Radar) :=
  (sweep_number r, range r, azimuth r, elevation r, unambiguous_range r,
   sweep_start_ray_index r, sweep_end_ray_index r, nrays r).

Inductive outcome : Type :=
  | Returned (r : Radar)
  | Raised (e : exn) (r : Radar).

Definition set_field_data (name : string) (d : marray) (r : Radar) : Radar :=
  MkRadar (sweep_number r) (range r) (azimuth r) (elevation r)
    ((λ kv, if decide (kv.1 = name) then (kv.1, MkField (dtype_of kv.2) d)
            else kv) <$> fields r)
    (unambiguous_range r) (sweep_start_ray_index r) (sweep_end_ray_index r)
    (nrays r).

Definition set_rays (az el : list Qc) (r : Radar) : Radar :=
  MkRadar (sweep_number r) (range r) az el (fields r)
    (unambiguous_range r) (sweep_start_ray_index r) (sweep_end_ray_index r)
    (length az).

Definition set_start_index (t : list nat) (r : Radar) : Radar :=
  MkRadar (sweep_number r) (range r) (azimuth r) (elevation r) (fields r)
    (unambiguous_range r) t (sweep_end_ray_index r) (nrays r).

Definition set_end_index (t : list nat) (r : Radar) : Radar :=
  MkRadar (sweep_number r) (range r) (azimuth r) (elevation r) (fields r)
    (unambiguous_range r) (sweep_start_ray_index r) t (nrays r).

(** [radar.get_slice(sweep)]: the pair [(start, end + 1)]. *)
Definition get_slice (r : Radar) (sweep : nat) : result (nat * nat) :=
  s ←? or_raise IndexError (sweep_start_ray_index r !! sweep);
  e ←? or_raise IndexError (sweep_end_ray_index r !! sweep);
  Ok (s, e + 1).

(** A volume as the ingestion delivers it: distinct sweep numbers, distinct
    field names, one elevation per azimuth, and for every field one row of
    [len(range)] gates per ray. *)
Record consistent (r : Radar) : Prop := {
  distinct_sweeps : NoDup (sweep_number r);
  distinct_fields : NoDup (fields r).*1;
  one_elevation_per_ray : length (elevation r) = length (azimuth r);
  field_shapes :
    Forall (λ kv, shape (data kv.2)
                  = replicate (length (azimuth r)) (length (range r)))
      (fields r)
}.

(** ** External collaborators *)

Class Externals : Type := {
  (** [numpy.argsort]: some permutation of the positions that sorts. *)
  argsort : list Qc → list nat;
  argsort_perm : ∀ l, argsort l ≡ₚ seq 0 (length l);
  argsort_sorted : ∀ l s, fancy_index l (argsort l) = Ok s → Sorted Qcle s;
  (** [sqrt(x**2 + y**2)] of [radar.get_gate_x_y_z], from the range gates
      and the azimuths and elevations of the sweep's rays. *)
  gate_range : list Qc → list Qc → list Qc → result (list (list Qc));
  (** [interp1d(x, y, axis=0)(x_new)]. *)
  interp1d : list Qc → list (list Qc) → list Qc → result (list (list Qc));
  (** [interp2d(x, y, z)(x_new, y_new)]. *)
  interp2d : list Qc → list Qc → list (list Qc) → list Qc → list Qc
             → result (list (list Qc));
  (** What [astype] stores for a number whose integer part the integer
      type cannot hold: some value of the type, which one is left to the
      platform by C and by NumPy. *)
  cast_overflow : bool → width → Qc → Z;
  cast_overflow_fits :
    ∀ signed w x, fits signed w (cast_overflow signed w x) = true
}.

(** ** Casts *)

(** [a.astype(t)] on one element: a floating type keeps the number, an
    integer type drops its fraction (truncation toward zero) and keeps the
    integer when it can hold it. *)
Definition astype `{Externals} (t : dtype) (x : Qc) : Qc :=
  match t with
  | IntType signed w =>
      let n := Qc_trunc x in
      Qc_of_Z (if fits signed w n then n else cast_overflow signed w x)
  | FloatType => x
  end.

Definition ma_astype `{Externals} (t : dtype) (a : marray) : marray :=
  map (map (λ g, Gate (astype t (gval g)) (gmask g))) a.

(** ** [main], lines 31-76: the azimuth and elevation grids *)

(** Lines 39-40, 46-47, 103-104: one ray too many is dropped. *)
Definition delete_extra_ray {A} (l : list A) : result (list A) :=
  if decide (length l = 361) then np_delete_last l else Ok l.

(** [np.delete(a, [-1], axis=0)] of a masked array: NumPy deletes in the
    underlying data and wraps the result without the mask, so every gate
    that is left comes back unmasked. *)
Definition drop_mask (a : marray) : marray :=
  map (map (λ g, unmasked (gval g))) a.

Definition ma_delete_last (a : marray) : result marray :=
  a' ←? np_delete_last a;
  Ok (drop_mask a').

(** Lines 91-93: range and field lose their last ray when the field has
    361 of them. *)
Definition delete_extra_ray2 {A} (r : list A) (field : marray)
  : result (list A * marray) :=
  if decide (length field = 361) then
    r' ←? np_delete_last r;
    field' ←? ma_delete_last field;
    Ok (r', field')
  else Ok (r, field).

Record grids : Type := MkGrids {
  azimuth_final : list Qc;
  az_final : list (list Qc);
  ele_final : list (list Qc);
  idx_final : list (list nat)
}.

(** [np.concatenate([acc, row[np.newaxis, :]])]. *)
Definition np_concatenate_row {A} (acc : list (list A)) (row : list A)
  : result (list (list A)) :=
  match acc with
  | r0 :: _ =>
      if decide (length r0 = length row) then Ok (acc ++ [row])
      else Err ValueError
  | [] => Ok [row]
  end.

(** Lines 59-65. *)
Definition homogenize (n : nat) (az_sorted ele_sorted : list Qc)
    (az_idx : list nat) : result (list Qc * list Qc * list nat) :=
  if decide (length az_sorted ≠ n) then
    first ←? or_raise IndexError (az_sorted !! 0);
    last ←? or_raise IndexError (last az_sorted);
    Ok (linspace first last n, np_resize ele_sorted n, seq 0 n)
  else Ok (az_sorted, ele_sorted, az_idx).

(** [radar.fields[name]]. *)
Fixpoint dict_get (name : string) (d : list (string * Field))
  : option Field :=
  match d with
  | [] => None
  | (k, f) :: d' => if decide (k = name) then Some f else dict_get name d'
  end.

Section Main.
Context `{Externals}.

(** Lines 33-52: the rays of one sweep, de-duplicated and sorted.  The
    result is [(azi, az_sorted, ele_sorted, az_idx)]. *)
Definition sorted_rays (radar : Radar) (sweep : nat)
  : result (list Qc * list Qc * list Qc * list nat) :=
  sweep_slice ←? get_slice radar sweep;
  azi ←? delete_extra_ray (slice sweep_slice (azimuth radar));
  ele ←? delete_extra_ray (slice sweep_slice (elevation radar));
  let az_idx := argsort azi in
  az_sorted ←? fancy_index azi az_idx;
  ele_sorted ←? fancy_index ele az_idx;
  Ok (azi, az_sorted, ele_sorted, az_idx).

(** Lines 33-40 and 56: the ray count of a sweep after de-duplication,
    which for the lowest sweep is [azimuth_final.shape[0]]. *)
Definition sweep_ray_count (radar : Radar) (sweep : nat) : result nat :=
  sweep_slice ←? get_slice radar sweep;
  azi ←? delete_extra_ray (slice sweep_slice (azimuth radar));
  Ok (length azi).

(** One iteration of the loop of line 31; [None] stands for the names
    [azimuth_final], [az_final], [ele_final], [idx_final] being unbound. *)
Definition grid_step (radar : Radar) (sweep_min : nat)
    (st : option grids) (sweep : nat) : result (option grids) :=
  '(azi, az_sorted, ele_sorted, az_idx) ←? sorted_rays radar sweep;
  reference ←? (if decide (sweep = sweep_min) then Ok azi
                else or_raise NameError (azimuth_final <$> st));
  '(az_sorted, ele_sorted, az_idx) ←?
     homogenize (length reference) az_sorted ele_sorted az_idx;
  if decide (sweep = sweep_min) then
    Ok (Some (MkGrids reference [az_sorted] [ele_sorted] [az_idx]))
  else
    g ←? or_raise NameError st;
    az ←? np_concatenate_row (az_final g) az_sorted;
    el ←? np_concatenate_row (ele_final g) ele_sorted;
    ix ←? np_concatenate_row (idx_final g) az_idx;
    Ok (Some (MkGrids reference az el ix)).

(** Lines 33-65 for one sweep, given the ray count [n] of the reference:
    the sweep's row of [az_final], [ele_final] and [idx_final]. *)
Definition grid_row (radar : Radar) (n : nat) (sweep : nat)
  : result (list Qc * list Qc * list nat) :=
  '(_, az_sorted, ele_sorted, az_idx) ←? sorted_rays radar sweep;
  homogenize n az_sorted ele_sorted az_idx.

Definition build_grids (radar : Radar) (sweep_min : nat) : result grids :=
  st ←? for_each (grid_step radar sweep_min) None (sweep_number radar);
  or_raise NameError st.

(** ** [main], lines 79-133: the fields *)

(** Lines 83-116 for one field and one sweep: the range array [r], the
    resampled field [field_sorted] and the unambiguous range [max_range]
    as they stand before line 119. *)
Definition resample_sweep (radar : Radar) (g : grids) (f : Field)
    (sweep : nat) : result (list (list Qc) * marray * Qc) :=
  sl ←? get_slice radar sweep;
  r ←? gate_range (range radar) (slice sl (azimuth radar))
         (slice sl (elevation radar));
  let field := slice sl (data f) in
  '(r, field) ←? delete_extra_ray2 r field;
  max_range ←? or_raise IndexError (slice sl (unambiguous_range radar) !! 0);
  azi ←? delete_extra_ray (slice sl (azimuth radar));
  let az_idx := argsort azi in
  azi_sorted ←? fancy_index azi az_idx;
  field_sorted ←? fancy_index field az_idx;
  az0 ←? or_raise IndexError (az_final g !! 0);
  if decide (length field ≠ length az0) then
    target ←? or_raise IndexError (az_final g !! sweep);
    r' ←? interp1d azi_sorted r target;
    field_interp ←? interp2d (range radar) azi_sorted
                      (map (map gval) field_sorted) (range radar) target;
    Ok (r', map (map (λ x, unmasked (np_round3 x))) field_interp, max_range)
  else Ok (r, field_sorted, max_range).

(** Lines 119-122: the two masks of one sweep. *)
Definition mask_sweep (r : list (list Qc)) (field_sorted : marray)
    (max_range : Qc) : result marray :=
  field_sorted ←? masked_where (map (map (Qc_leb max_range)) r) field_sorted;
  m ←? ma_min field_sorted;
  Ok (masked_equal field_sorted m).

Definition field_sweep (radar : Radar) (g : grids) (f : Field)
    (sweep : nat) : result marray :=
  '(r, field_sorted, max_range) ←? resample_sweep radar g f sweep;
  mask_sweep r field_sorted max_range.

(** The sweep's array as line 119 leaves it, before the minimum of line
    122 is taken. *)
Definition range_masked (radar : Radar) (g : grids) (f : Field)
    (sweep : nat) : result marray :=
  '(r, field_sorted, max_range) ←? resample_sweep radar g f sweep;
  masked_where (map (map (Qc_leb max_range)) r) field_sorted.

(** [np.ma.concatenate([field_final, a[np.newaxis, :]])]. *)
Definition ma_concatenate (acc : list marray) (a : marray)
  : result (list marray) :=
  match acc with
  | a0 :: _ =>
      if decide (shape a0 = shape a) then Ok (acc ++ [a]) else Err ValueError
  | [] => Ok [a]
  end.

(** Lines 81-129; [None] stands for [field_final] being unbound. *)
Definition stack_step (radar : Radar) (g : grids) (sweep_min : nat)
    (f : Field) (st : option (list marray)) (sweep : nat)
  : result (option (list marray)) :=
  a ←? field_sweep radar g f sweep;
  if decide (sweep = sweep_min) then Ok (Some [a])
  else
    acc ←? or_raise NameError st;
    acc' ←? ma_concatenate acc a;
    Ok (Some acc').

(** Lines 132-133: [np.ma.vstack], the cast and the second mask. *)
Definition assemble (t : dtype) (field_final : list marray) : result marray :=
  let stacked := ma_astype t (concat field_final) in
  m ←? ma_min stacked;
  Ok (masked_equal stacked m).

(** Lines 81-133: the new array of one field. *)
Definition resample_field (radar : Radar) (g : grids) (sweep_min : nat)
    (f : Field) : result marray :=
  st ←? for_each (stack_step radar g sweep_min f) None (sweep_number radar);
  field_final ←? or_raise NameError st;
  assemble (dtype_of f) field_final.

(** Lines 81-132: the stacked array after the cast of line 132, before the
    minimum of line 133 is taken. *)
Definition stacked_field (radar : Radar) (g : grids) (sweep_min : nat)
    (f : Field) : result marray :=
  st ←? for_each (stack_step radar g sweep_min f) None (sweep_number radar);
  field_final ←? or_raise NameError st;
  Ok (ma_astype (dtype_of f) (concat field_final)).

(** The loop of line 79 over [list(radar.fields.keys())].  The radar is
    threaded through because line 132 stores into it; [field_type] is the
    local variable of that name, [None] while unbound. *)
Fixpoint fields_loop (g : grids) (sweep_min : nat)
    (keys : list string) (radar : Radar)
    (field_type : option dtype) : Radar * result (option dtype) :=
  match keys with
  | [] => (radar, Ok field_type)
  | name :: keys' =>
      match dict_get name (fields radar) with
      | None => (radar, Err KeyError)
      | Some f =>
          match resample_field radar g sweep_min f with
          | Err e => (radar, Err e)
          | Ok d =>
              fields_loop g sweep_min keys' (set_field_data name d radar)
                (Some (dtype_of f))
          end
      end
  end.

(** ** [main], lines 136-142: rays and index tables *)

Definition finish (g : grids) (field_type : option dtype) (radar : Radar)
  : outcome :=
  match field_type with
  | None => Raised NameError radar
  | Some t =>
      let radar := set_rays (astype t <$> concat (az_final g))
                     (astype t <$> concat (ele_final g)) radar in
      match az_final g !! 0 with
      | None => Raised IndexError radar
      | Some az0 =>
          match np_arange 0 (length (azimuth radar)) (length az0) with
          | Err e => Raised e radar
          | Ok starts =>
              let radar := set_start_index starts radar in
              match sweep_start_ray_index radar !! 1 with
              | None => Raised IndexError radar
              | Some s1 =>
                  match np_arange (s1 - 1) (length (azimuth radar))
                          (length az0) with
                  | Err e => Raised e radar
                  | Ok ends => Returned (set_end_index ends radar)
                  end
              end
          end
      end
  end.

Definition main (radar : Radar) : outcome :=
  match np_min (sweep_number radar) with
  | Err e => Raised e radar
  | Ok sweep_min =>
      match build_grids radar sweep_min with
      | Err e => Raised e radar
      | Ok g =>
          match fields_loop g sweep_min (fields radar).*1 radar None with
          | (radar', Err e) => Raised e radar'
          | (radar', Ok field_type) => finish g field_type radar'
          end
      end
  end.

End Main.


(** The radar object as a call leaves it, returned or not. *)
Definition final_state (o : outcome) : Radar :=
  match o with
  | Returned r => r
  | Raised _ r => r
  end.

(** ** [vel_correction.py]

    [dual_nyquist] and [smooth_vel].  The instrument parameters that
    [dual_nyquist] reads and writes are a dict of numeric arrays;
    [staggered_to_dual], whose relabelling of [prt_mode] depends on how the
    strings of that array are stored, is not modelled. *)

Module VelCorrection.

(** [radar.instrument_parameters], each entry reduced to its ['data']. *)
Definition params := list (string * list Qc).

Fixpoint param_get (name : string) (d : params) : option (list Qc) :=
  match d with
  | [] => None
  | (k, x) :: d' => if decide (k = name) then Some x else param_get name d'
  end.

(** [d[name]['data'] = x] for a key that is present. *)
Fixpoint param_update (name : string) (x : list Qc) (d : params) : params :=
  match d with
  | [] => []
  | (k, y) :: d' =>
      if decide (k = name) then (k, x) :: d'
      else (k, y) :: param_update name x d'
  end.

(** Line 6. *)
Definition c : Qc := Qc_of_Z 300000000.

(** Floating-point division; [None] where NumPy yields an infinity or a
    NaN (with a warning, not an exception). *)
Definition fdiv (x y : Qc) : option Qc :=
  if decide (y = 0%Qc) then None else Some (x / y)%Qc.

(** [dual_nyquist(radar)], lines 25-30, as a function of [radar.nrays] and
    the instrument parameters.  [Ok None]: the call returns, but some
    quotient was not finite. *)
Definition dual_nyquist (nrays : nat) (ip : params)
  : result (option params) :=
  frequency ←? or_raise KeyError (param_get "frequency" ip);
  let lamb := mapM (fdiv c) frequency in
  prt_ratio_data ←? or_raise KeyError (param_get "prt_ratio" ip);
  prt_ratio ←? or_raise IndexError (prt_ratio_data !! 0);
  prt_data ←? or_raise KeyError (param_get "prt" ip);
  prt0 ←? or_raise IndexError (prt_data !! 0);
  let nyquist :=
    lamb ← lamb;
    inv ← fdiv 1%Qc prt_ratio;
    mapM (λ l, fdiv l (Qc_of_Z 4 * prt0 * (inv - 1))%Qc) lamb in
  _ ←? or_raise KeyError (param_get "nyquist_velocity" ip);
  Ok ((λ nyquist, param_update "nyquist_velocity" (np_resize nyquist nrays) ip)
        <$> nyquist).


(** [scipy.ndimage.median_filter(a, 3)] on a two-dimensional array.  The
    window of an element is the 3 x 3 block around it; past an edge the array
    is mirrored about that edge (mode 'reflect', the default), so that index
    [-1] reads index [0] and index [n] reads index [n - 1]. *)
Definition neighbours (n i : nat) : list nat :=
  [i - 1; i; Nat.min (i + 1) (n - 1)].

Definition window (a : list (list Qc)) (i j : nat) : list Qc :=
  row ← omap (λ i', a !! i') (neighbours (length a) i);
  omap (λ j', row !! j') (neighbours (length row) j).

(** The element of rank [9 // 2] of the sorted window. *)
Definition median (w : list Qc) : Qc :=
  default 0%Qc (merge_sort Qcle w !! 4).

Definition median_filter (a : list (list Qc)) : list (list Qc) :=
  imap (λ i row, imap (λ j _, median (window a i j)) row) a.

(** [radar.fields[name] = dic]: an existing key keeps its place, a new one
    goes last. *)
Fixpoint dict_set (name : string) (f : Field) (d : list (string * Field))
  : list (string * Field) :=
  match d with
  | [] => [(name, f)]
  | (k, f') :: d' =>
      if decide (k = name) then (k, f) :: d'
      else (k, f') :: dict_set name f d'
  end.

(** Py-ART's [Radar.add_field(field_name, dic, replace_existing=True)]: the
    array must have the shape [(nrays, ngates)], where [ngates] is the
    number of range gates. *)
Definition add_field (field_name : string) (f : Field) (r : Radar)
  : outcome :=
  if decide (shape (data f) = replicate (nrays r) (length (range r))) then
    Returned (MkRadar (sweep_number r) (range r) (azimuth r) (elevation r)
                (dict_set field_name f (fields r))
                (unambiguous_range r) (sweep_start_ray_index r)
                (sweep_end_ray_index r) (nrays r))
  else Raised ValueError r.

(** Py-ART's [Radar.add_field_like(existing_field_name, field_name, data,
    replace_existing=True)]; the metadata copied from the existing field
    is not part of [Field], the storage precision is that of [data]. *)
Definition add_field_like (existing_field_name field_name : string)
    (t : dtype) (d : marray) (r : Radar) : outcome :=
  match dict_get existing_field_name (fields r) with
  | None => Raised ValueError r
  | Some _ => add_field field_name (MkField t d) r
  end.

(** [smooth_vel(radar, vel_name)], lines 89-97.  The filter reads the data
    of every gate, masked or not, and keeps the storage precision. *)
Definition smooth_vel (vel_name : string) (radar : Radar) : outcome :=
  match dict_get vel_name (fields radar) with
  | None => Raised KeyError radar
  | Some f =>
      let vel_smooth := median_filter (map (map gval) (data f)) in
      match masked_where (map (map gmask) (data f))
              (map (map unmasked) vel_smooth) with
      | Err e => Raised e radar
      | Ok smooth_data_ma =>
          match ma_min smooth_data_ma with
          | Err e => Raised e radar
          | Ok m =>
              add_field_like "vcor_cmean" "vcor_cmean_smooth" (dtype_of f)
                (masked_equal smooth_data_ma m) radar
          end
      end
  end.

End VelCorrection.

(** ** A reference implementation of the collaborators

    Used to run the model on concrete volumes: a merge sort for
    [argsort], piecewise-linear interpolation, and the flat geometry in
    which the ground range of a gate is its range-gate distance. *)

Module Reference.

Definition key_le (p q : Qc * nat) : Prop := (p.1 ≤ q.1)%Qc.

#[global] Instance key_le_dec : RelDecision key_le.
Proof. intros p q. unfold key_le. apply _. Defined.

Definition argsort (l : list Qc) : list nat :=
  (merge_sort key_le (zip l (seq 0 (length l)))).*2.

Definition gate_range (ranges az el : list Qc) : result (list (list Qc)) :=
  if decide (length az = length el) then Ok ((λ _, ranges) <$> az)
  else Err ValueError.

(** Value at [x] of the broken line through the points [(xs_i, ys_i)]. *)
Fixpoint interp_at (xs : list Qc) (ys : list (list Qc)) (x : Qc)
  : result (list Qc) :=
  match xs, ys with
  | x0 :: ((x1 :: _) as xs'), y0 :: ((y1 :: _) as ys') =>
      if Qc_leb x0 x && Qc_leb x x1 then
        if Qc_eqb x0 x1 then Ok y0
        else Ok (zip_with (λ a b, a + (b - a) * ((x - x0) / (x1 - x0)))%Qc
                   y0 y1)
      else interp_at xs' ys' x
  | [x0], [y0] => if Qc_eqb x0 x then Ok y0 else Err ValueError
  | _, _ => Err ValueError
  end.

Definition interp1d (xs : list Qc) (ys : list (list Qc)) (xnew : list Qc)
  : result (list (list Qc)) :=
  if decide (length xs = length ys) then
    for_each (λ acc x, y ←? interp_at xs ys x; Ok (acc ++ [y])) [] xnew
  else Err ValueError.

Definition interp2d (xs ys : list Qc) (zs : list (list Qc))
    (xnew ynew : list Qc) : result (list (list Qc)) :=
  rows ←? interp1d ys zs ynew;
  for_each (λ acc row,
      cols ←? interp1d xs ((λ v, [v]) <$> row) xnew;
      Ok (acc ++ [concat cols])) [] rows.

(** Two's-complement wrap-around of the integer part. *)
Definition wrap (signed : bool) (w : width) (n : Z) : Z :=
  let m := (n mod 2 ^ bits w)%Z in
  if signed && (2 ^ (bits w - 1) <=? m)%Z then (m - 2 ^ bits w)%Z else m.

Definition cast_overflow (signed : bool) (w : width) (x : Qc) : Z :=
  wrap signed w (Qc_trunc x).

End Reference.

(** ** Example volumes *)

Module Examples.

Definition z (n : Z) : Qc := Qc_of_Z n.
Definition v (n : Z) : gate := unmasked (z n).

(** No sweep at all. *)
Definition empty_volume : Radar :=
  MkRadar [] [z 0; z 1; z 2] [] []
    [("dbz"%string, MkField FloatType [])] [] [] [] 0.

(** One sweep of two rays and three gates. *)
Definition single_sweep_volume : Radar :=
  MkRadar [0] [z 0; z 1; z 2] [z 1; z 0] [z 0; z 0]
    [("dbz"%string,
      MkField FloatType [[v 1; v 2; v 3]; [v 4; v 5; v 6]])]
    [z 100; z 100] [0] [1] 2.

(** Two sweeps of two rays and three gates; the rays of the first sweep
    are delivered in descending azimuth. *)
Definition two_sweep_dbz : Field :=
  MkField FloatType [[v 1; v 2; v 3]; [v 4; v 5; v 6];
                     [v 1; v 2; v 3]; [v 4; v 5; v 6]].

Definition two_sweep_volume : Radar :=
  MkRadar [0; 1] [z 0; z 1; z 2]
    [z 1; z 0; z 0; z 1] [z 0; z 0; z 1; z 1]
    [("dbz"%string, two_sweep_dbz)]
    [z 100; z 100; z 100; z 100] [0; 2] [1; 3] 4.

(** A lowest sweep of four rays in descending azimuth and a second sweep
    of two rays; the field is stored as integers and the unambiguous range
    of the lowest sweep is the distance of the last gate. *)
Definition uneven_dbz : Field :=
  MkField (IntType true W32) [[v 1; v 2; v 3]; [v 4; v 5; v 6];
                   [v 1; v 2; v 3]; [v 4; v 5; v 6];
                   [v 10; v 20; v 30]; [v 40; v 50; v 60]].

Definition uneven_volume : Radar :=
  MkRadar [0; 1] [z 0; z 1; z 2]
    [z 3; z 2; z 1; z 0; z 0; z 3] [z 0; z 0; z 0; z 0; z 1; z 2]
    [("dbz"%string, uneven_dbz)]
    [z 2; z 100; z 100; z 100; z 100; z 100] [0; 4] [3; 5] 6.

(** Two sweeps of two rays at half-degree angles, with a field stored as
    integers. *)
Definition half_degree_volume : Radar :=
  MkRadar [0; 1] [z 0; z 1; z 2]
    [Q2Qc (1 # 2); Q2Qc (3 # 2); Q2Qc (1 # 2); Q2Qc (3 # 2)]
    [Q2Qc (1 # 4); Q2Qc (1 # 4); Q2Qc (5 # 4); Q2Qc (5 # 4)]
    [("dbz"%string,
      MkField (IntType true W32) [[v 1; v 2; v 3]; [v 4; v 5; v 6];
                       [v 1; v 2; v 3]; [v 4; v 5; v 6]])]
    [z 100; z 100; z 100; z 100] [0; 2] [1; 3] 4.

(** Three sweeps of a full circle in descending azimuth, two gates per
    ray; the lowest sweep carries the extra 361st ray. *)
Definition full_circle : list Qc := (λ i, Qc_of_nat (359 - i)) <$> seq 0 360.

Definition three_sweep_volume : Radar :=
  MkRadar [0; 1; 2] [z 0; z 1]
    ((full_circle ++ [Qc_of_nat 359]) ++ full_circle ++ full_circle)
    (replicate 361 (z 0) ++ replicate 360 (z 1) ++ replicate 360 (z 2))
    [("dbz"%string,
      MkField FloatType
        ((λ i, [v (Z.of_nat i); v (Z.of_nat i + 1)]) <$> seq 0 1081))]
    (replicate 1081 (z 100)) [0; 361; 721] [360; 720; 1080] 1081.

(** Two sweeps of two rays at azimuths 100.5 and 300.5, with a field
    stored as signed 8-bit integers, which end at 127. *)
Definition narrow_volume : Radar :=
  MkRadar [0; 1] [z 0; z 1; z 2]
    [Q2Qc (201 # 2); Q2Qc (601 # 2); Q2Qc (201 # 2); Q2Qc (601 # 2)]
    [z 0; z 1; z 2; z 3]
    [("dbz"%string,
      MkField (IntType true W8) [[v 1; v 2; v 3]; [v 4; v 5; v 6];
                                 [v 1; v 2; v 3]; [v 4; v 5; v 6]])]
    [z 100; z 100; z 100; z 100] [0; 2] [1; 3] 4.

(** [three_sweep_volume] with two gates masked on input: gate 1 of ray 5
    of the lowest sweep (361 rays) and gate 1 of ray 5 of the second sweep
    (360 rays). *)
Definition masked_circle_dbz : Field :=
  MkField FloatType
    ((λ i, [v (Z.of_nat i);
            Gate (z (Z.of_nat i + 1)) (bool_decide (i = 5 ∨ i = 366))])
     <$> seq 0 1081).

Definition masked_circle_volume : Radar :=
  MkRadar [0; 1; 2] [z 0; z 1]
    ((full_circle ++ [Qc_of_nat 359]) ++ full_circle ++ full_circle)
    (replicate 361 (z 0) ++ replicate 360 (z 1) ++ replicate 360 (z 2))
    [("dbz"%string, masked_circle_dbz)]
    (replicate 1081 (z 100)) [0; 361; 721] [360; 720; 1080] 1081.

End Examples.

(** ** Example volumes for the edge cases and for [vel_correction.py] *)

Module EdgeExamples.
Import Examples.

(** [two_sweep_volume] with the higher sweep listed first. *)
Definition reversed_volume : Radar :=
  MkRadar [1; 0] [z 0; z 1; z 2]
    [z 1; z 0; z 0; z 1] [z 0; z 0; z 1; z 1]
    [("dbz"%string, two_sweep_dbz)]
    [z 100; z 100; z 100; z 100] [0; 2] [1; 3] 4.

(** [two_sweep_volume] without any field. *)
Definition fieldless_volume : Radar :=
  MkRadar [0; 1] [z 0; z 1; z 2]
    [z 1; z 0; z 0; z 1] [z 0; z 0; z 1; z 1]
    []
    [z 100; z 100; z 100; z 100] [0; 2] [1; 3] 4.

(** [two_sweep_volume] whose second sweep is numbered 2, beyond the two
    entries of the ray index tables. *)
Definition gapped_volume : Radar :=
  MkRadar [0; 2] [z 0; z 1; z 2]
    [z 1; z 0; z 0; z 1] [z 0; z 0; z 1; z 1]
    [("dbz"%string, two_sweep_dbz)]
    [z 100; z 100; z 100; z 100] [0; 2] [1; 3] 4.

(** A lowest sweep of two rays and a second sweep without rays. *)
Definition empty_sweep_volume : Radar :=
  MkRadar [0; 1] [z 0; z 1; z 2]
    [z 1; z 0] [z 0; z 0]
    [("dbz"%string, MkField FloatType [[v 1; v 2; v 3]; [v 4; v 5; v 6]])]
    [z 100; z 100] [0; 2] [1; 1] 2.

(** One sweep of three rays and three gates with a velocity field: a
    speckle of 40 among gates of 5, the last gate masked. *)
Definition velocity_field : Field :=
  MkField FloatType [[v 5; v 5; v 5];
                     [v 5; v 40; v 5];
                     [v 5; v 5; Gate (z 5) true]].

Definition velocity_volume : Radar :=
  MkRadar [0] [z 0; z 1; z 2]
    [z 0; z 1; z 2] [z 0; z 0; z 0]
    [("vcor_cmean"%string, velocity_field)]
    [z 100; z 100; z 100] [0] [2] 3.

(** The same volume with its velocity field under another name. *)
Definition renamed_velocity_volume : Radar :=
  MkRadar [0] [z 0; z 1; z 2]
    [z 0; z 1; z 2] [z 0; z 0; z 0]
    [("velocity"%string, velocity_field)]
    [z 100; z 100; z 100] [0] [2] 3.

(** A 3 GHz radar with pulse repetition times of 1 ms and 1.5 ms. *)
Definition staggered_params : VelCorrection.params :=
  [("frequency"%string, [z 3000000000]);
   ("prt_ratio"%string, [Q2Qc (2 # 3)]);
   ("prt"%string, [Q2Qc (1 # 1000)]);
   ("nyquist_velocity"%string, [z 8; z 8; z 8; z 8])].

(** The same parameters with the ratio stored the other way round. *)
Definition inverted_params : VelCorrection.params :=
  [("frequency"%string, [z 3000000000]);
   ("prt_ratio"%string, [Q2Qc (3 # 2)]);
   ("prt"%string, [Q2Qc (1 # 1000)]);
   ("nyquist_velocity"%string, [z 8; z 8; z 8; z 8])].

(** A file that carries no Nyquist velocity. *)
Definition params_without_nyquist : VelCorrection.params :=
  [("frequency"%string, [z 3000000000]);
   ("prt_ratio"%string, [Q2Qc (2 # 3)]);
   ("prt"%string, [Q2Qc (1 # 1000)])].

End EdgeExamples.

(** * Properties *)

(** ** The reference collaborators meet the interface *)

Module ReferenceFacts.
Import Reference.

#[local] Instance key_le_total : Total key_le.
Proof. intros p q. unfold key_le. apply (total Qcle). Qed.

#[local] Instance key_le_trans : Transitive key_le.
Proof. intros p q r. unfold key_le. apply Qcle_trans. Qed.

Lemma zip_seq_lookup (l : list Qc) (k : nat) (p : Qc * nat) :
  p ∈ zip l (seq k (length l)) → l !! (p.2 - k) = Some p.1 ∧ k ≤ p.2.
Proof.
  revert k. induction l as [|x l IH]; intros k; simpl.
  - by intros ?%elem_of_nil.
  - intros [->|Hin]%elem_of_cons; simpl.
    + by rewrite Nat.sub_diag.
    + destruct (IH _ Hin) as [Hl Hk].
      replace (p.2 - k) with (S (p.2 - S k)) by lia. split; [done|lia].
Qed.

Lemma mapM_lookup_pairs (l : list Qc) (ps : list (Qc * nat)) :
  Forall (λ p, l !! p.2 = Some p.1) ps →
  mapM (λ i, l !! i) ps.*2 = Some ps.*1.
Proof.
  induction 1 as [|p ps Hp _ IH]; [done|].
  rewrite !fmap_cons. cbn. rewrite Hp. cbn. by rewrite IH.
Qed.

Lemma argsort_perm (l : list Qc) : argsort l ≡ₚ seq 0 (length l).
Proof.
  unfold argsort. rewrite merge_sort_Permutation.
  rewrite snd_zip; [done|]. by rewrite length_seq.
Qed.

Lemma argsort_sorted (l s : list Qc) :
  fancy_index l (argsort l) = Ok s → Sorted Qcle s.
Proof.
  unfold fancy_index, argsort.
  rewrite (mapM_lookup_pairs l).
  - intros [= <-]. apply (Sorted_fmap fst key_le Qcle); [done|].
    apply (Sorted_merge_sort key_le).
  - apply Forall_forall. intros p Hp.
    rewrite merge_sort_Permutation in Hp.
    apply zip_seq_lookup in Hp as [Hp _]. by rewrite Nat.sub_0_r in Hp.
Qed.

Lemma cast_overflow_fits (signed : bool) (w : width) (x : Qc) :
  fits signed w (cast_overflow signed w x) = true.
Proof.
  unfold cast_overflow, wrap, fits, int_min, int_max.
  set (n := Qc_trunc x). clearbody n.
  apply andb_true_iff. rewrite !Z.leb_le.
  destruct signed, w; cbn [bits andb];
    match goal with
    | |- context [(n mod ?m)%Z] =>
        pose proof (Z.mod_pos_bound n m ltac:(done))
    end;
    try case_match; try (apply Z.leb_le in H0 || apply Z.leb_gt in H0);
    lia.
Qed.

End ReferenceFacts.

#[global] Instance reference_externals : Externals := {|
  argsort := Reference.argsort;
  argsort_perm := ReferenceFacts.argsort_perm;
  argsort_sorted := ReferenceFacts.argsort_sorted;
  gate_range := Reference.gate_range;
  interp1d := Reference.interp1d;
  interp2d := Reference.interp2d;
  cast_overflow := Reference.cast_overflow;
  cast_overflow_fits := ReferenceFacts.cast_overflow_fits
|}.

(** ** Results and loops *)

Lemma rbind_Ok {A B} (m : result A) (k : A → result B) (b : B) :
  rbind m k = Ok b ↔ ∃ a, m = Ok a ∧ k a = Ok b.
Proof.
  destruct m as [a|e]; simpl; split.
  - eauto.
  - by intros (a' & [= ->] & ?).
  - done.
  - by intros (a' & [=] & ?).
Qed.

Lemma or_raise_Ok {A} (e : exn) (o : option A) (a : A) :
  or_raise e o = Ok a ↔ o = Some a.
Proof. destruct o; simpl; split; congruence. Qed.

(** Peels one successful monadic program into its successful steps. *)
Ltac inv_ok :=
  repeat match goal with
  | H : rbind _ _ = Ok _ |- _ =>
      let x := fresh "x" in
      let Hx := fresh "Hx" in
      apply rbind_Ok in H as (x & Hx & H)
  | H : or_raise _ _ = Ok _ |- _ => apply or_raise_Ok in H
  | H : Ok _ = Ok _ |- _ => injection H as H
  | H : Err _ = Ok _ |- _ => discriminate H
  | H : (let '(_, _) := ?p in _) = Ok _ |- _ => destruct p
  | H : (if decide ?P then _ else _) = Ok _ |- _ => destruct (decide P)
  end.

Lemma for_each_app {A S} (f : S → A → result S) (s : S) (l1 l2 : list A) :
  for_each f s (l1 ++ l2) = (s' ←? for_each f s l1; for_each f s' l2).
Proof.
  revert s. induction l1 as [|x l1 IH]; intros s; simpl; [done|].
  destruct (f s x); simpl; [apply IH|done].
Qed.

(** ** Numbers *)

Lemma Qc_leb_le (x y : Qc) : Qc_leb x y = true ↔ (x ≤ y)%Qc.
Proof. apply Qle_bool_iff. Qed.

Lemma Qc_eqb_eq (x y : Qc) : Qc_eqb x y = true ↔ x = y.
Proof.
  unfold Qc_eqb. rewrite Qeq_bool_iff. split; [apply Qc_is_canon|by intros ->].
Qed.

Lemma Qc_eqb_refl (x : Qc) : Qc_eqb x x = true.
Proof. by apply Qc_eqb_eq. Qed.

Lemma Qc_of_Z_this (n : Z) : this (Qc_of_Z n) = inject_Z n.
Proof. done. Qed.

Lemma Qc_trunc_of_Z (n : Z) : Qc_trunc (Qc_of_Z n) = n.
Proof.
  unfold Qc_trunc. rewrite Qc_of_Z_this.
  destruct (Qc_leb _ _); [apply Qfloor_Z|apply Qceiling_Z].
Qed.

Lemma Qc_trunc_mono (x y : Qc) : (x ≤ y)%Qc → (Qc_trunc x ≤ Qc_trunc y)%Z.
Proof.
  intros Hxy. unfold Qc_trunc.
  destruct (Qc_leb 0 x) eqn:Hx, (Qc_leb 0 y) eqn:Hy.
  - by apply Qfloor_resp_le.
  - apply Qc_leb_le in Hx. apply not_true_iff_false in Hy.
    rewrite Qc_leb_le in Hy. destruct Hy. by etrans.
  - apply not_true_iff_false in Hx. rewrite Qc_leb_le in Hx.
    apply Qc_leb_le in Hy.
    trans 0%Z.
    + rewrite <-(Qceiling_Z 0). apply Qceiling_resp_le.
      apply Qcnot_le_lt, Qclt_le_weak in Hx. exact Hx.
    + rewrite <-(Qfloor_Z 0). apply Qfloor_resp_le. exact Hy.
  - by apply Qceiling_resp_le.
Qed.

(** Truncation keeps the integer part and drops the fraction: the result
    lies on the same side of zero as [x], less than one away from it. *)
Lemma Qc_trunc_spec (x : Qc) :
  ((0 ≤ x)%Qc → (Qc_of_Z (Qc_trunc x) ≤ x)%Qc ∧
                (x < Qc_of_Z (Qc_trunc x + 1))%Qc) ∧
  ((x < 0)%Qc → (x ≤ Qc_of_Z (Qc_trunc x))%Qc ∧
                (Qc_of_Z (Qc_trunc x - 1) < x)%Qc).
Proof.
  unfold Qc_trunc. split; intros Hx.
  - apply Qc_leb_le in Hx as ->. split.
    + apply Qfloor_le.
    + apply Qlt_floor.
  - apply Qclt_not_le in Hx. rewrite <-Qc_leb_le in Hx.
    apply not_true_is_false in Hx as ->. split.
    + apply Qle_ceiling.
    + apply Qceiling_lt.
Qed.

(** ** Casts *)

Lemma fits_spec (signed : bool) (w : width) (n : Z) :
  fits signed w n = true ↔ (int_min signed w ≤ n ≤ int_max signed w)%Z.
Proof. unfold fits. rewrite andb_true_iff, !Z.leb_le. done. Qed.

Lemma int_min_nonpos (signed : bool) (w : width) : (int_min signed w ≤ 0)%Z.
Proof. by destruct signed, w. Qed.

Lemma int_max_nonneg (signed : bool) (w : width) : (0 ≤ int_max signed w)%Z.
Proof. by destruct signed, w. Qed.

(** An integer type holds the integer part of [x] exactly when [x] lies
    strictly between [int_min - 1] and [int_max + 1]. *)
Lemma representable_fits (signed : bool) (w : width) (x : Qc) :
  representable (IntType signed w) x ↔ fits signed w (Qc_trunc x) = true.
Proof.
  rewrite fits_spec. cbn [representable].
  pose proof (int_min_nonpos signed w) as Hmin.
  pose proof (int_max_nonneg signed w) as Hmax.
  destruct (Qc_trunc_spec x) as [Hpos Hneg].
  destruct (Qclt_le_dec x 0) as [Hx|Hx].
  - destruct (Hneg Hx) as [Hle Hlt].
    assert (Qc_trunc x ≤ 0)%Z as Hn.
    { apply Z.lt_succ_r, Z.lt_sub_lt_add_r, Z2Qc_inj_lt.
      eapply Qclt_trans; [exact Hlt|]. by rewrite Z2Qc_inj_0. }
    split.
    + intros [Hlo _]. split; [|lia].
      apply Z.lt_pred_le, Z2Qc_inj_lt. unfold Z.pred.
      replace (int_min signed w + -1)%Z with (int_min signed w - 1)%Z by lia.
      by eapply Qclt_le_trans.
    + intros [Hlo _]. split.
      * eapply Qcle_lt_trans; [|exact Hlt].
        apply (proj1 (Z2Qc_inj_le _ _)). lia.
      * eapply Qclt_le_trans; [exact Hx|].
        rewrite <-Z2Qc_inj_0. apply (proj1 (Z2Qc_inj_le _ _)). lia.
  - destruct (Hpos Hx) as [Hle Hlt].
    assert (0 ≤ Qc_trunc x)%Z as Hn.
    { apply Z.lt_succ_r, Z2Qc_inj_lt. unfold Z.succ.
      eapply Qcle_lt_trans; [|exact Hlt]. by rewrite Z2Qc_inj_0. }
    split.
    + intros [_ Hhi]. split; [lia|].
      apply Z.lt_succ_r, Z2Qc_inj_lt. unfold Z.succ.
      by eapply Qcle_lt_trans.
    + intros [_ Hhi]. split.
      * eapply Qclt_le_trans; [|exact Hx].
        rewrite <-Z2Qc_inj_0. apply (proj1 (Z2Qc_inj_lt _ _)). lia.
      * eapply Qclt_le_trans; [exact Hlt|].
        apply (proj1 (Z2Qc_inj_le _ _)). lia.
Qed.

(** Between two numbers a type can hold it can hold every number. *)
Lemma representable_between (t : dtype) (lo hi x : Qc) :
  representable t lo → representable t hi → (lo ≤ x)%Qc → (x ≤ hi)%Qc →
  representable t x.
Proof.
  destruct t as [signed w|]; [|done]. intros [Hlo _] [_ Hhi] Hl Hh. split.
  - by eapply Qclt_le_trans.
  - by eapply Qcle_lt_trans.
Qed.

Section Casts.
Context `{Externals}.

Lemma astype_representable (signed : bool) (w : width) (x : Qc) :
  representable (IntType signed w) x →
  astype (IntType signed w) x = Qc_of_Z (Qc_trunc x).
Proof. intros Hx%representable_fits. cbn [astype]. by rewrite Hx. Qed.

(** Where the integer parts fit, a cast keeps the order. *)
Lemma astype_mono (t : dtype) (x y : Qc) :
  representable t x → representable t y →
  (x ≤ y)%Qc → (astype t x ≤ astype t y)%Qc.
Proof.
  destruct t as [signed w|]; [|done]. intros Hx Hy Hxy.
  rewrite !astype_representable by done.
  apply (proj1 (Z2Qc_inj_le _ _)). by apply Qc_trunc_mono.
Qed.

(** A sorted array of numbers the type can hold is sorted after the
    cast. *)
Lemma Sorted_cast (t : dtype) (l : list Qc) :
  Forall (representable t) l → Sorted Qcle l → Sorted Qcle (astype t <$> l).
Proof.
  intros Hall Hs. apply Sorted_StronglySorted in Hs; [|apply _].
  apply StronglySorted_Sorted.
  induction Hs as [|x l Hs IH Hle]; [constructor|].
  apply Forall_cons in Hall as [Hx Hall]. rewrite fmap_cons.
  constructor; [by apply IH|].
  apply Forall_fmap, Forall_forall. intros y Hy. simpl.
  rewrite Forall_forall in Hle, Hall. apply astype_mono; auto.
Qed.

(** What a cast delivers is a value of the type. *)
Lemma astype_fits (signed : bool) (w : width) (x : Qc) :
  ∃ n, astype (IntType signed w) x = Qc_of_Z n ∧ fits signed w n = true.
Proof.
  cbn [astype]. destruct (fits signed w (Qc_trunc x)) eqn:Hf.
  - by exists (Qc_trunc x).
  - exists (cast_overflow signed w x). split; [done|].
    apply cast_overflow_fits.
Qed.

Lemma astype_idemp (t : dtype) (x : Qc) : astype t (astype t x) = astype t x.
Proof.
  destruct t as [signed w|]; [|done].
  destruct (astype_fits signed w x) as (n & -> & Hn).
  cbn [astype]. by rewrite Qc_trunc_of_Z, Hn.
Qed.


End Casts.

(** ** De-duplication and index arrays *)

Lemma removelast_take {A} (l : list A) : removelast l = take (length l - 1) l.
Proof.
  induction l as [|x [|y l] IH]; [done..|].
  change (removelast (x :: y :: l)) with (x :: removelast (y :: l)).
  rewrite IH. simpl. by rewrite Nat.sub_0_r.
Qed.

Lemma delete_extra_ray_Ok {A} (l : list A) :
  delete_extra_ray l = Ok (if decide (length l = 361) then take 360 l else l).
Proof.
  unfold delete_extra_ray. case_decide as Hl; [|done].
  destruct l; [done|]. unfold np_delete_last. by rewrite removelast_take, Hl.
Qed.

Lemma delete_extra_ray_length {A} (l l' : list A) :
  delete_extra_ray l = Ok l' → length l' ≠ 361.
Proof.
  rewrite delete_extra_ray_Ok. intros [= <-].
  case_decide; [|done]. rewrite length_take. lia.
Qed.

Lemma fancy_index_Forall2 {A} (l : list A) (idx : list nat) (s : list A) :
  fancy_index l idx = Ok s ↔ Forall2 (λ i y, l !! i = Some y) idx s.
Proof. unfold fancy_index. by rewrite or_raise_Ok, mapM_Some. Qed.

Lemma fancy_index_length {A} (l : list A) (idx : list nat) (s : list A) :
  fancy_index l idx = Ok s → length s = length idx.
Proof. rewrite fancy_index_Forall2. intros Hf. symmetry. by eapply Forall2_length. Qed.

Lemma fancy_index_lookup {A} (l : list A) (idx : list nat) (s : list A) i j :
  fancy_index l idx = Ok s → idx !! i = Some j → s !! i = l !! j.
Proof.
  rewrite fancy_index_Forall2. intros Hf Hi.
  destruct (Forall2_lookup_l _ _ _ _ _ Hf Hi) as (y & -> & ->). done.
Qed.

Lemma fancy_index_seq {A} (l : list A) :
  fancy_index l (seq 0 (length l)) = Ok l.
Proof.
  apply fancy_index_Forall2. apply Forall2_same_length_lookup. split.
  - by rewrite length_seq.
  - intros i j y Hj Hy. apply lookup_seq in Hj as [-> _]. done.
Qed.

Lemma fancy_index_fmap {A} (d : A) (l : list A) (idx : list nat) (s : list A) :
  fancy_index l idx = Ok s → s = (λ i, default d (l !! i)) <$> idx.
Proof.
  rewrite fancy_index_Forall2. induction 1 as [|i y idx s Hi _ IH]; [done|].
  rewrite fmap_cons, Hi. simpl. by f_equal.
Qed.

Lemma fancy_index_perm {A} (l : list A) (idx : list nat) :
  idx ≡ₚ seq 0 (length l) → ∃ s, fancy_index l idx = Ok s ∧ s ≡ₚ l.
Proof.
  intros Hp.
  assert (is_Some (mapM (λ i, l !! i) idx)) as [s Hs].
  { apply mapM_is_Some, Forall_forall. intros i Hi.
    rewrite Hp in Hi. apply elem_of_seq in Hi. apply lookup_lt_is_Some. lia. }
  exists s. unfold fancy_index. rewrite Hs. split; [done|].
  destruct l as [|d l'] eqn:El.
  { simpl in Hp. apply Permutation_nil_r in Hp as ->. by injection Hs as <-. }
  rewrite <-El in *.
  assert (fancy_index l idx = Ok s) as Hf by (unfold fancy_index; by rewrite Hs).
  rewrite (fancy_index_fmap d _ _ _ Hf), Hp.
  by rewrite <-(fancy_index_fmap d l (seq 0 (length l)) l (fancy_index_seq l)).
Qed.

(** ** linspace, resize and arange *)

Lemma Qc_of_nat_S (n : nat) : Qc_of_nat (S n) = (Qc_of_nat n + 1)%Qc.
Proof.
  unfold Qc_of_nat. rewrite Nat2Z.inj_succ, <-Z.add_1_r.
  by rewrite Z2Qc_inj_add, Z2Qc_inj_1.
Qed.

Lemma Qc_of_nat_nonneg (n : nat) : (0 ≤ Qc_of_nat n)%Qc.
Proof.
  unfold Qc_of_nat. rewrite <-Z2Qc_inj_0. apply (proj1 (Z2Qc_inj_le _ _)). lia.
Qed.

Lemma Qc_of_nat_pos (n : nat) : 0 < n → (0 < Qc_of_nat n)%Qc.
Proof.
  intros Hn. unfold Qc_of_nat. rewrite <-Z2Qc_inj_0.
  apply (proj1 (Z2Qc_inj_lt _ _)). lia.
Qed.

Lemma length_linspace (a b : Qc) (n : nat) : length (linspace a b n) = n.
Proof.
  unfold linspace. case_decide.
  - by rewrite length_fmap, length_seq.
  - rewrite length_app, length_fmap, length_seq. simpl. lia.
Qed.

Lemma linspace_lookup (a b : Qc) (n i : nat) :
  2 ≤ n → i < n →
  linspace a b n !! i
  = Some (a + Qc_of_nat i * ((b - a) / Qc_of_nat (n - 1)))%Qc.
Proof.
  intros Hn Hi. unfold linspace. case_decide; [lia|].
  destruct (decide (i < n - 1)) as [Hlt|Hge].
  - rewrite lookup_app_l by (by rewrite length_fmap, length_seq).
    rewrite list_lookup_fmap, lookup_seq_lt by done. simpl. f_equal. ring.
  - assert (i = n - 1) as -> by lia.
    rewrite lookup_app_r by (rewrite length_fmap, length_seq; lia).
    rewrite length_fmap, length_seq, Nat.sub_diag. simpl. f_equal.
    assert (Qc_of_nat (n - 1) ≠ 0%Qc) as Hne.
    { apply not_symmetry, Qclt_not_eq, Qc_of_nat_pos. lia. }
    field. done.
Qed.

Lemma linspace_one (a b : Qc) : linspace a b 1 = [a].
Proof.
  unfold linspace. rewrite decide_True by lia.
  change (seq 0 1) with [0]. rewrite list_fmap_singleton. f_equal.
  change (Qc_of_nat 0) with (Qc_of_Z 0).
  rewrite Z2Qc_inj_0. ring.
Qed.

Lemma Sorted_lookup {A} (R : relation A) (l : list A) :
  (∀ i x y, l !! i = Some x → l !! S i = Some y → R x y) → Sorted R l.
Proof.
  induction l as [|x l IH]; intros Hl; [constructor|].
  constructor.
  - apply IH. intros i a b Ha Hb. by apply (Hl (S i)).
  - destruct l as [|y l]; constructor. by apply (Hl 0).
Qed.

Lemma linspace_sorted (a b : Qc) (n : nat) :
  (a ≤ b)%Qc → Sorted Qcle (linspace a b n).
Proof.
  intros Hab. destruct (decide (n ≤ 1)) as [Hn|Hn].
  - destruct n as [|[|n]]; [constructor| |lia].
    rewrite linspace_one. repeat constructor.
  - apply Sorted_lookup. intros i x y Hx Hy.
    assert (S i < n) as Hi.
    { apply lookup_lt_Some in Hy. by rewrite length_linspace in Hy. }
    rewrite linspace_lookup in Hx, Hy by lia.
    injection Hx as <-. injection Hy as <-.
    rewrite Qc_of_nat_S. apply (proj1 (Qcplus_le_mono_l _ _ _)).
    rewrite Qcmult_plus_distr_l, Qcmult_1_l.
    rewrite <-(Qcplus_0_r (Qc_of_nat i * _)) at 1.
    apply (proj1 (Qcplus_le_mono_l _ _ _)).
    apply Qcmult_nonneg_nonneg.
    + rewrite <-(Qcplus_opp_r a). by apply (proj1 (Qcplus_le_mono_r _ _ _)).
    + apply Qclt_le_weak, Qcinv_pos, Qc_of_nat_pos. lia.
Qed.

(** A sorted list lies between its first and its last element. *)
Lemma Sorted_Qcle_span (l : list Qc) (lo hi x : Qc) :
  Sorted Qcle l → l !! 0 = Some lo → last l = Some hi → x ∈ l →
  (lo ≤ x)%Qc ∧ (x ≤ hi)%Qc.
Proof.
  intros Hs Hlo Hhi Hx. apply Sorted_StronglySorted in Hs; [|apply _].
  split.
  - destruct l as [|y l]; [done|]. injection Hlo as ->.
    apply StronglySorted_inv in Hs as [_ Hall].
    rewrite Forall_forall in Hall.
    apply elem_of_cons in Hx as [->|Hx]; [done|by apply Hall].
  - clear Hlo. induction Hs as [|y l Hs IH Hall]; [done|].
    rewrite Forall_forall in Hall.
    destruct l as [|y' l].
    + injection Hhi as <-. by apply list_elem_of_singleton in Hx as ->.
    + change (last (y :: y' :: l)) with (last (y' :: l)) in Hhi.
      apply elem_of_cons in Hx as [->|Hx]; [|by apply IH].
      apply Hall. apply last_Some in Hhi as [l' ->].
      apply elem_of_app. right. by left.
Qed.

(** [np.linspace] stays between its end points. *)
Lemma linspace_span (lo hi x : Qc) (n : nat) :
  (lo ≤ hi)%Qc → x ∈ linspace lo hi n → (lo ≤ x)%Qc ∧ (x ≤ hi)%Qc.
Proof.
  intros Hle Hx.
  destruct n as [|[|n]].
  - by apply elem_of_nil in Hx.
  - rewrite linspace_one in Hx. by apply list_elem_of_singleton in Hx as ->.
  - apply (Sorted_Qcle_span (linspace lo hi (S (S n)))); [|..|done].
    + by apply linspace_sorted.
    + rewrite linspace_lookup by lia. f_equal.
      change (Qc_of_nat 0) with (Qc_of_Z 0). rewrite Z2Qc_inj_0. ring.
    + unfold linspace. rewrite decide_False by lia. apply last_snoc.
Qed.

Lemma lookup_concat_replicate {A} (a : list A) (k i : nat) :
  i < k * length a → concat (replicate k a) !! i = a !! (i mod length a).
Proof.
  revert i. induction k as [|k IH]; intros i Hi; [lia|].
  simpl. destruct (decide (i < length a)) as [Hlt|Hge].
  - rewrite lookup_app_l by done. by rewrite Nat.mod_small.
  - rewrite lookup_app_r by lia. rewrite IH by lia. f_equal.
    assert (length a ≠ 0) by lia.
    rewrite <-(Nat.Div0.mod_add (i - length a) 1 (length a)).
    f_equal. lia.
Qed.

Lemma ceil_div_mul (n m : nat) : 0 < m → n ≤ (n + m - 1) / m * m.
Proof.
  intros Hm. pose proof (Nat.div_mod (n + m - 1) m ltac:(lia)) as Hd.
  pose proof (Nat.mod_upper_bound (n + m - 1) m ltac:(lia)). lia.
Qed.

Lemma length_np_resize (a : list Qc) (n : nat) : length (np_resize a n) = n.
Proof.
  unfold np_resize. destruct a as [|x a']; [by rewrite length_replicate|].
  set (a := x :: a'). rewrite length_take, length_concat.
  rewrite fmap_replicate, sum_list_replicate.
  pose proof (ceil_div_mul n (length a) ltac:(simpl; lia)). lia.
Qed.

(** Cyclic repetition. *)
Lemma np_resize_lookup (a : list Qc) (n i : nat) :
  a ≠ [] → i < n → np_resize a n !! i = a !! (i mod length a).
Proof.
  intros Ha Hi. unfold np_resize. destruct a as [|x a']; [done|].
  set (a := x :: a'). rewrite lookup_take_lt by done.
  apply lookup_concat_replicate.
  pose proof (ceil_div_mul n (length a) ltac:(simpl; lia)). lia.
Qed.

Lemma np_arange_Ok (start stop step : nat) :
  step ≠ 0 →
  np_arange start stop step
  = Ok ((λ i, start + i * step) <$> seq 0 ((stop - start + step - 1) / step)).
Proof. intros Hs. unfold np_arange. by case_decide. Qed.

(** ** The azimuth and elevation grids *)

Lemma Sorted_head_last (l : list Qc) (x y : Qc) :
  Sorted Qcle l → l !! 0 = Some x → last l = Some y → (x ≤ y)%Qc.
Proof.
  intros Hs Hx Hy. apply Sorted_StronglySorted in Hs; [|apply _].
  destruct l as [|x' l]; [done|]. injection Hx as ->.
  apply StronglySorted_cons in Hs as [Hall _].
  destruct l as [|z l].
  - injection Hy as <-. done.
  - rewrite last_cons_cons in Hy. rewrite Forall_forall in Hall.
    apply Hall. rewrite last_lookup in Hy. by eapply list_elem_of_lookup_2.
Qed.

Lemma np_concatenate_row_Ok {A} (acc : list (list A)) (row : list A) acc' :
  np_concatenate_row acc row = Ok acc' → acc' = acc ++ [row].
Proof.
  unfold np_concatenate_row. destruct acc; [by intros [= <-]|].
  case_decide; by intros [= <-].
Qed.

Section GridFacts.
Context `{Externals}.

Lemma sorted_rays_Ok (radar : Radar) (sweep : nat) azi azs els idx :
  sorted_rays radar sweep = Ok (azi, azs, els, idx) →
  ∃ sl ele,
    get_slice radar sweep = Ok sl ∧
    delete_extra_ray (slice sl (azimuth radar)) = Ok azi ∧
    delete_extra_ray (slice sl (elevation radar)) = Ok ele ∧
    idx = argsort azi ∧
    fancy_index azi idx = Ok azs ∧
    fancy_index ele idx = Ok els.
Proof.
  unfold sorted_rays. intros Hs. inv_ok. subst. eauto 10.
Qed.

Lemma sorted_rays_facts (radar : Radar) (sweep : nat) azi azs els idx :
  sorted_rays radar sweep = Ok (azi, azs, els, idx) →
  Sorted Qcle azs ∧ azs ≡ₚ azi ∧
  length azs = length azi ∧ length els = length azi ∧
  length idx = length azi.
Proof.
  intros (sl & ele & _ & _ & _ & -> & Haz & Hel)%sorted_rays_Ok.
  pose proof (argsort_perm azi) as Hp.
  assert (length (argsort azi) = length azi) as Hlen.
  { by rewrite Hp, length_seq. }
  destruct (fancy_index_perm azi _ Hp) as (s & Hs & Hsp).
  rewrite Haz in Hs. injection Hs as <-.
  split_and!; [by eapply argsort_sorted|done|..].
  - by rewrite Hsp.
  - by rewrite (fancy_index_length _ _ _ Hel).
  - done.
Qed.

Lemma homogenize_facts (n : nat) azs els idx a e i :
  homogenize n azs els idx = Ok (a, e, i) →
  Sorted Qcle azs → length els = length azs → length idx = length azs →
  length a = n ∧ length e = n ∧ length i = n ∧ Sorted Qcle a.
Proof.
  unfold homogenize. intros Hh Hs He Hi. case_decide as Hn.
  - inv_ok. subst.
    rewrite length_linspace, length_np_resize, length_seq.
    split_and!; try done. apply linspace_sorted. by eapply Sorted_head_last.
  - injection Hh as <- <- <-. by rewrite He, Hi, Hn.
Qed.

Lemma homogenize_same (azs els : list Qc) (idx : list nat) :
  homogenize (length azs) azs els idx = Ok (azs, els, idx).
Proof. unfold homogenize. by rewrite decide_False by (by intros []). Qed.

Lemma grid_row_facts (radar : Radar) (n sweep : nat) a e i :
  grid_row radar n sweep = Ok (a, e, i) →
  length a = n ∧ length e = n ∧ length i = n ∧ Sorted Qcle a.
Proof.
  unfold grid_row. intros Hg. inv_ok.
  match goal with Hs : sorted_rays _ _ = Ok _ |- _ =>
    destruct (sorted_rays_facts _ _ _ _ _ _ Hs) as (? & ? & ? & ? & ?) end.
  eapply homogenize_facts; [done..|congruence|congruence].
Qed.

Lemma grid_step_min (radar : Radar) (sweep_min : nat) st st' :
  grid_step radar sweep_min st sweep_min = Ok st' →
  ∃ azi azs els idx,
    sorted_rays radar sweep_min = Ok (azi, azs, els, idx) ∧
    grid_row radar (length azi) sweep_min = Ok (azs, els, idx) ∧
    st' = Some (MkGrids azi [azs] [els] [idx]).
Proof.
  unfold grid_step. intros Hg.
  apply rbind_Ok in Hg as ([[[azi azs] els] idx] & Hs & Hg).
  rewrite decide_True in Hg by done. simpl in Hg.
  destruct (sorted_rays_facts _ _ _ _ _ _ Hs) as (? & ? & Hl & ? & ?).
  rewrite <-Hl, homogenize_same in Hg. simpl in Hg.
  rewrite decide_True in Hg by done. injection Hg as <-.
  exists azi, azs, els, idx. split_and!; [done| |done].
  unfold grid_row. rewrite Hs. simpl. by rewrite <-Hl, homogenize_same.
Qed.

Lemma grid_step_other (radar : Radar) (sweep_min sweep : nat) st st' :
  sweep ≠ sweep_min →
  grid_step radar sweep_min st sweep = Ok st' →
  ∃ g a e i,
    st = Some g ∧
    grid_row radar (length (azimuth_final g)) sweep = Ok (a, e, i) ∧
    st' = Some (MkGrids (azimuth_final g) (az_final g ++ [a])
                  (ele_final g ++ [e]) (idx_final g ++ [i])).
Proof.
  unfold grid_step. intros Hne Hg.
  apply rbind_Ok in Hg as ([[[azi azs] els] idx] & Hs & Hg).
  rewrite decide_False in Hg by done.
  apply rbind_Ok in Hg as (ref & Href & Hg). apply or_raise_Ok in Href.
  destruct st as [g|]; [|done]. injection Href as <-.
  apply rbind_Ok in Hg as ([[a e] i] & Hh & Hg).
  rewrite decide_False in Hg by done. simpl in Hg.
  apply rbind_Ok in Hg as (az & Haz & Hg).
  apply rbind_Ok in Hg as (el & Hel & Hg).
  apply rbind_Ok in Hg as (ix & Hix & Hg). injection Hg as <-.
  exists g, a, e, i. split_and!; [done|..].
  - unfold grid_row. by rewrite Hs.
  - by rewrite (np_concatenate_row_Ok _ _ _ Haz),
      (np_concatenate_row_Ok _ _ _ Hel), (np_concatenate_row_Ok _ _ _ Hix).
Qed.

Lemma grid_loop_rest (radar : Radar) (sweep_min : nat) (rest : list nat) :
  ∀ g st',
  sweep_min ∉ rest →
  for_each (grid_step radar sweep_min) (Some g) rest = Ok st' →
  ∃ rows,
    Forall2 (λ s row, grid_row radar (length (azimuth_final g)) s = Ok row)
      rest rows ∧
    st' = Some (MkGrids (azimuth_final g) (az_final g ++ rows.*1.*1)
                  (ele_final g ++ rows.*1.*2) (idx_final g ++ rows.*2)).
Proof.
  induction rest as [|s rest IH]; intros g st' Hnin Hf.
  - injection Hf as <-. exists []. split; [constructor|].
    rewrite !fmap_nil, !app_nil_r. by destruct g.
  - apply not_elem_of_cons in Hnin as [Hne Hnin]. simpl in Hf.
    apply rbind_Ok in Hf as (st1 & Hstep & Hf).
    apply grid_step_other in Hstep as (g0 & a & e & i & [= <-] & Hrow & ->);
      [|done].
    apply IH in Hf as (rows & Hrows & ->); [|done]. simpl in *.
    exists ((a, e, i) :: rows). split; [by constructor|].
    rewrite !fmap_cons. simpl. by rewrite <-!app_assoc.
Qed.

(** What the first loop leaves: one row per sweep, each computed from the
    sweep's own rays and the ray count of the first (lowest) sweep. *)
Lemma build_grids_Ok (radar : Radar) (sweep_min : nat) (g : grids) :
  NoDup (sweep_number radar) →
  build_grids radar sweep_min = Ok g →
  ∃ rest azs els idx rows,
    sweep_number radar = sweep_min :: rest ∧
    sorted_rays radar sweep_min = Ok (azimuth_final g, azs, els, idx) ∧
    Forall2 (λ s row, grid_row radar (length (azimuth_final g)) s = Ok row)
      (sweep_number radar) rows ∧
    az_final g = rows.*1.*1 ∧ ele_final g = rows.*1.*2 ∧
    idx_final g = rows.*2.
Proof.
  unfold build_grids. intros Hnd Hb. inv_ok.
  destruct (sweep_number radar) as [|s0 rest] eqn:Hsn; [by simplify_eq/=|].
  simpl in Hx. apply rbind_Ok in Hx as (st1 & Hstep & Hf).
  destruct (decide (s0 = sweep_min)) as [->|Hne]; last first.
  { apply grid_step_other in Hstep as (? & ? & ? & ? & [=] & _); done. }
  apply grid_step_min in Hstep as (azi & azs & els & idx & Hs & Hrow & ->).
  apply NoDup_cons in Hnd as [Hnin _].
  apply grid_loop_rest in Hf as (rows & Hrows & ->); [|done].
  injection Hb as <-. simpl in *.
  exists rest, azs, els, idx, ((azs, els, idx) :: rows).
  split_and!; try done. by constructor.
Qed.

End GridFacts.

(** ** The last stage *)

Section MainFacts.
Context `{Externals}.

Lemma finish_Returned (g : grids) ft (radar r' : Radar) :
  finish g ft radar = Returned r' →
  ∃ t az0 starts s1 ends,
    ft = Some t ∧
    az_final g !! 0 = Some az0 ∧
    np_arange 0 (length (concat (az_final g))) (length az0) = Ok starts ∧
    starts !! 1 = Some s1 ∧
    np_arange (s1 - 1) (length (concat (az_final g))) (length az0) = Ok ends ∧
    r' = set_end_index ends (set_start_index starts
           (set_rays (astype t <$> concat (az_final g))
              (astype t <$> concat (ele_final g)) radar)).
Proof.
  unfold finish. intros Hf.
  destruct ft as [t|]; [|done].
  destruct (az_final g !! 0) as [az0|] eqn:Haz0; [|done].
  cbn [azimuth set_rays set_start_index sweep_start_ray_index] in Hf.
  rewrite length_fmap in Hf.
  destruct (np_arange 0 _ _) as [starts|] eqn:Hst; [|done].
  destruct (starts !! 1) as [s1|] eqn:Hs1; [|done].
  destruct (np_arange (s1 - 1) _ _) as [ends|] eqn:Hen; [|done].
  injection Hf as <-. exists t, az0, starts, s1, ends. done.
Qed.

Lemma main_Returned (radar r' : Radar) :
  main radar = Returned r' →
  ∃ sweep_min g rf ft,
    np_min (sweep_number radar) = Ok sweep_min ∧
    build_grids radar sweep_min = Ok g ∧
    fields_loop g sweep_min (fields radar).*1 radar None = (rf, Ok ft) ∧
    finish g ft rf = Returned r'.
Proof.
  unfold main. intros Hm.
  destruct (np_min _) as [smin|] eqn:Hmin; [|done].
  destruct (build_grids _ _) as [g|] eqn:Hg; [|done].
  destruct (fields_loop _ _ _ _ _) as [rf [ft|]] eqn:Hfl; [|done].
  eauto 10.
Qed.

(** With a single row in [az_final] the start table has one entry, and
    line 142 reads its second one. *)
Lemma finish_single_row (g : grids) ft (radar : Radar) (row : list Qc) :
  az_final g = [row] → ∃ e r', finish g ft radar = Raised e r'.
Proof.
  intros Hrow. destruct (finish g ft radar) as [r'|e r'] eqn:Hf; [|eauto].
  apply finish_Returned in Hf
    as (t & az0 & starts & s1 & ends & _ & Haz0 & Hst & Hs1 & _).
  rewrite Hrow in Haz0, Hst. injection Haz0 as <-.
  simpl in Hst. rewrite app_nil_r in Hst.
  unfold np_arange in Hst. case_decide as Hz; [done|]. injection Hst as <-.
  rewrite Nat.sub_0_r in Hs1.
  replace ((length row + length row - 1) / length row) with 1 in Hs1; [done|].
  apply Nat.div_unique with (length row - 1); lia.
Qed.

End MainFacts.

(** ** The field loop *)

Lemma dict_get_update (k name : string) (d : marray)
    (l : list (string * Field)) :
  dict_get k ((λ kv, if decide (kv.1 = name)
                     then (kv.1, MkField (dtype_of kv.2) d) else kv) <$> l)
  = (λ f, if decide (k = name) then MkField (dtype_of f) d else f)
      <$> dict_get k l.
Proof.
  induction l as [|[k' f] l IH]; [done|].
  rewrite fmap_cons. simpl. destruct (decide (k' = name)) as [->|Hne]; simpl.
  - destruct (decide (name = k)) as [<-|Hk]; simpl.
    + by rewrite decide_True.
    + rewrite IH. done.
  - destruct (decide (k' = k)) as [->|Hk]; simpl.
    + by rewrite decide_False.
    + by rewrite IH.
Qed.

Lemma dict_get_set_field_data (k name : string) (d : marray) (r : Radar) :
  dict_get k (fields (set_field_data name d r))
  = (λ f, if decide (k = name) then MkField (dtype_of f) d else f)
      <$> dict_get k (fields r).
Proof. apply dict_get_update. Qed.

Lemma dict_get_NoDup (l : list (string * Field)) (k : string) (f : Field) :
  NoDup l.*1 → (k, f) ∈ l → dict_get k l = Some f.
Proof.
  induction l as [|[k' f'] l IH]; intros Hnd Hin; [by apply elem_of_nil in Hin|].
  rewrite fmap_cons in Hnd. apply NoDup_cons in Hnd as [Hnin Hnd].
  simpl. apply elem_of_cons in Hin as [[= -> ->]|Hin].
  - by rewrite decide_True.
  - rewrite decide_False; [by apply IH|].
    intros ->. apply Hnin. apply list_elem_of_fmap. by exists (k, f).
Qed.

Lemma for_each_ext {A S} (f g : S → A → result S) (s : S) (l : list A) :
  (∀ s x, f s x = g s x) → for_each f s l = for_each g s l.
Proof.
  intros Hfg. revert s. induction l as [|x l IH]; intros s; simpl; [done|].
  rewrite Hfg. destruct (g s x); simpl; [apply IH|done].
Qed.

Section FieldLoopFacts.
Context `{Externals}.

Lemma resample_sweep_ext (r1 r2 : Radar) g f sweep :
  geometry r1 = geometry r2 →
  resample_sweep r1 g f sweep = resample_sweep r2 g f sweep.
Proof.
  destruct r1, r2. unfold geometry. simpl. intros [=]. subst. reflexivity.
Qed.

Lemma resample_field_ext (r1 r2 : Radar) g sweep_min f :
  geometry r1 = geometry r2 →
  resample_field r1 g sweep_min f = resample_field r2 g sweep_min f.
Proof.
  intros Hg. unfold resample_field.
  assert (sweep_number r1 = sweep_number r2) as -> by (by injection Hg).
  rewrite (for_each_ext (stack_step r1 g sweep_min f)
             (stack_step r2 g sweep_min f)); [done|].
  intros st sweep. unfold stack_step, field_sweep.
  by rewrite (resample_sweep_ext r1 r2).
Qed.

Lemma geometry_set_field_data (name : string) (d : marray) (r : Radar) :
  geometry (set_field_data name d r) = geometry r.
Proof. done. Qed.

(** The field loop stores one array per key and changes nothing else;
    every array is computed from the volume as [main] received it. *)
Lemma fields_loop_Ok (g : grids) (sweep_min : nat) (keys : list string) :
  ∀ rc ft rf ft',
  NoDup keys →
  fields_loop g sweep_min keys rc ft = (rf, Ok ft') →
  geometry rf = geometry rc ∧
  Forall2 (λ kv kv',
      kv'.1 = kv.1 ∧ dtype_of kv'.2 = dtype_of kv.2 ∧
      (kv.1 ∈ keys → ∃ f0, dict_get kv.1 (fields rc) = Some f0 ∧
         resample_field rc g sweep_min f0 = Ok (data kv'.2)) ∧
      (kv.1 ∉ keys → kv' = kv))
    (fields rc) (fields rf).
Proof.
  induction keys as [|name keys IH]; intros rc ft rf ft' Hnd Hl.
  - injection Hl as <- <-. split; [done|].
    apply Forall2_same_length_lookup. split; [done|].
    intros i kv kv' Hkv Hkv'. simplify_eq. split_and!; try done.
    by intros ?%elem_of_nil.
  - apply NoDup_cons in Hnd as [Hnin Hnd]. simpl in Hl.
    destruct (dict_get name (fields rc)) as [f|] eqn:Hget; [|done].
    destruct (resample_field rc g sweep_min f) as [d|] eqn:Hres; [|done].
    apply IH in Hl as [Hgeo Hall]; [|done].
    split; [done|].
    set (rc1 := set_field_data name d rc) in *.
    assert (fields rc1
            = (λ kv, if decide (kv.1 = name)
                     then (kv.1, MkField (dtype_of kv.2) d) else kv)
                <$> fields rc) as Hfs by done.
    rewrite Hfs in Hall. apply Forall2_fmap_l in Hall.
    eapply Forall2_impl; [exact Hall|].
    intros kv kv'. cbn beta. intros (Hname & Hty & Hin & Hout).
    destruct (decide (kv.1 = name)) as [Heq|Hne]; cbn [fst snd dtype_of] in *.
    + rewrite <-Heq in Hnin. specialize (Hout Hnin). subst kv'.
      split_and!; try done.
      * intros _. exists f. by rewrite Heq.
      * intros []. rewrite Heq. apply elem_of_cons. by left.
    + split_and!; try done.
      * intros [?|Hk]%elem_of_cons; [done|].
        destruct (Hin Hk) as (f0 & Hf0 & Hr).
        subst rc1. rewrite dict_get_update in Hf0.
        destruct (dict_get kv.1 (fields rc)) as [f1|]; [|done].
        simpl in Hf0. rewrite decide_False in Hf0 by done.
        injection Hf0 as ->. exists f0. split; [done|].
        by rewrite <-(resample_field_ext (set_field_data name d rc)).
      * intros Hk. apply Hout. intros ?. apply Hk, elem_of_cons. by right.
Qed.

(** [field_type] ends as the precision of the field under the last key. *)
Lemma fields_loop_type (g : grids) (sweep_min : nat) (keys : list string) :
  ∀ rc ft rf ft',
  fields_loop g sweep_min keys rc ft = (rf, Ok ft') →
  ft' = match last keys with
        | Some name => dtype_of <$> dict_get name (fields rc)
        | None => ft
        end.
Proof.
  induction keys as [|name keys IH]; intros rc ft rf ft' Hl.
  - by injection Hl as _ <-.
  - simpl in Hl.
    destruct (dict_get name (fields rc)) as [f|] eqn:Hget; [|done].
    destruct (resample_field rc g sweep_min f) as [d|] eqn:Hres; [|done].
    apply IH in Hl. destruct keys as [|k keys].
    + simpl in *. by rewrite Hget.
    + rewrite last_cons_cons. rewrite Hl.
      destruct (last (k :: keys)) as [n|] eqn:Hlast.
      * rewrite dict_get_set_field_data. destruct (dict_get n (fields rc)); [|done].
        simpl. by case_decide.
      * by apply last_None in Hlast.
Qed.

End FieldLoopFacts.

(** ** A run that returns *)

Lemma length_concat_uniform {A} (k : nat) (ls : list (list A)) :
  Forall (λ l, length l = k) ls → length (concat ls) = length ls * k.
Proof.
  induction 1 as [|l ls Hl _ IH]; [done|].
  simpl. rewrite length_app, IH, Hl. lia.
Qed.

Lemma arange_count_start (S k : nat) : 0 < k → (S * k - 0 + k - 1) / k = S.
Proof.
  intros Hk. symmetry. apply Nat.div_unique with (k - 1); lia.
Qed.

Lemma arange_count_end (S k : nat) :
  0 < k → 0 < S → (S * k - (k - 1) + k - 1) / k = S.
Proof.
  intros Hk HS. symmetry. apply Nat.div_unique with 0; nia.
Qed.

Section MainShape.
Context `{Externals}.

Lemma fields_loop_geometry (g : grids) (sweep_min : nat)
    (keys : list string) :
  ∀ rc ft rf ft',
  fields_loop g sweep_min keys rc ft = (rf, ft') → geometry rf = geometry rc.
Proof.
  induction keys as [|name keys IH]; intros rc ft rf ft' Hl; simpl in Hl.
  - by injection Hl as <- _.
  - destruct (dict_get name (fields rc)) as [f|]; [|by injection Hl as <- _].
    destruct (resample_field rc g sweep_min f) as [d|];
      [|by injection Hl as <- _].
    by apply IH in Hl.
Qed.

Lemma sorted_rays_count (radar : Radar) (sweep : nat) azi azs els idx :
  sorted_rays radar sweep = Ok (azi, azs, els, idx) →
  sweep_ray_count radar sweep = Ok (length azi).
Proof.
  intros (sl & ele & Hsl & Hazi & _)%sorted_rays_Ok.
  unfold sweep_ray_count. rewrite Hsl. simpl. by rewrite Hazi.
Qed.

(** The shape of a run that returns. *)
Lemma main_Returned_shape (radar r' : Radar) :
  NoDup (sweep_number radar) →
  main radar = Returned r' →
  ∃ sweep_min rest g rows t rf,
    let k := length (azimuth_final g) in
    let S := length (sweep_number radar) in
    sweep_number radar = sweep_min :: rest ∧
    build_grids radar sweep_min = Ok g ∧
    sweep_ray_count radar sweep_min = Ok k ∧
    Forall2 (λ s row, grid_row radar k s = Ok row) (sweep_number radar) rows ∧
    az_final g = rows.*1.*1 ∧ ele_final g = rows.*1.*2 ∧
    fields_loop g sweep_min (fields radar).*1 radar None = (rf, Ok (Some t)) ∧
    2 ≤ S ∧ 0 < k ∧
    r' = MkRadar (sweep_number radar) (range radar)
           (astype t <$> concat (az_final g))
           (astype t <$> concat (ele_final g))
           (fields rf) (unambiguous_range radar)
           ((λ i, 0 + i * k) <$> seq 0 S)
           ((λ i, k - 1 + i * k) <$> seq 0 S)
           (S * k).
Proof.
  intros Hnd Hm.
  apply main_Returned in Hm as (smin & g & rf & ft & Hmin & Hg & Hfl & Hf).
  pose proof Hg as Hg0.
  apply build_grids_Ok in Hg
    as (rest & azs & els & idx & rows & Hsn & Hs0 & Hrows & Haz & Hel & _);
    [|done].
  apply finish_Returned in Hf
    as (t & az0 & starts & s1 & ends & -> & Haz0 & Hst & Hs1 & Hen & ->).
  set (k := length (azimuth_final g)) in *.
  assert (Forall (λ row : list Qc, length row = k) (az_final g)) as Hlen.
  { rewrite Haz. apply Forall_fmap, Forall_fmap.
    eapply Forall2_Forall_r; [exact Hrows|].
    apply Forall_forall. intros s _ [[a e] i] Hrow. simpl.
    by apply grid_row_facts in Hrow as (? & _). }
  assert (length (az_final g) = length (sweep_number radar)) as Hrowsn.
  { rewrite Haz, !length_fmap. symmetry. by eapply Forall2_length. }
  assert (length az0 = k) as Hk0.
  { rewrite Forall_lookup in Hlen. by eapply Hlen. }
  rewrite (length_concat_uniform k) in Hst, Hen by done.
  rewrite Hrowsn, Hk0 in Hst, Hen.
  unfold np_arange in Hst. case_decide as Hk; [done|].
  injection Hst as <-.
  rewrite arange_count_start in Hs1 by lia.
  assert (2 ≤ length (sweep_number radar)) as HS.
  { apply lookup_lt_Some in Hs1. rewrite length_fmap, length_seq in Hs1. lia. }
  rewrite list_lookup_fmap, lookup_seq_lt in Hs1 by lia.
  injection Hs1 as <-.
  unfold np_arange in Hen. rewrite decide_False in Hen by done.
  injection Hen as <-.
  rewrite Nat.add_0_r, arange_count_end by lia.
  exists smin, rest, g, rows, t, rf. cbn zeta.
  split_and!; try done; try lia.
  - by eapply sorted_rays_count.
  - apply fields_loop_geometry in Hfl. injection Hfl as ? ? ? ? ? ? ? ?.
    unfold set_end_index, set_start_index, set_rays. simpl.
    rewrite arange_count_start by lia.
    f_equal; try done.
    rewrite length_fmap, (length_concat_uniform k) by done. by rewrite Hrowsn.
Qed.

End MainShape.

(** ** Rows of the grids *)

Lemma take_drop_concat_uniform {A} (k p : nat) (ls : list (list A)) (row : list A) :
  Forall (λ l, length l = k) ls → ls !! p = Some row →
  take k (drop (p * k) (concat ls)) = row.
Proof.
  intros Hall. revert p. induction Hall as [|l ls Hl _ IH]; intros p Hp; [done|].
  destruct p as [|p]; simpl in *.
  - injection Hp as ->. by rewrite drop_0, take_app_length'.
  - rewrite drop_app_add'; [by apply IH|done].
Qed.

Lemma delete_extra_ray2_Ok {A} (r : list A) (field : marray) :
  length r = length field →
  delete_extra_ray2 r field
  = Ok (if decide (length field = 361)
        then (take 360 r, drop_mask (take 360 field))
        else (r, field)).
Proof.
  intros Hlen. unfold delete_extra_ray2, ma_delete_last.
  case_decide as Hf; [|done].
  assert (np_delete_last r = Ok (take 360 r)) as ->.
  { destruct r; [by rewrite Hf in Hlen|].
    unfold np_delete_last. by rewrite removelast_take, Hlen, Hf. }
  assert (np_delete_last field = Ok (take 360 field)) as ->.
  { destruct field; [done|].
    unfold np_delete_last. by rewrite removelast_take, Hf. }
  done.
Qed.

Section GridRows.
Context `{Externals}.

Lemma grid_row_Ok (radar : Radar) (n sweep : nat) a e i :
  grid_row radar n sweep = Ok (a, e, i) →
  ∃ azi azs els idx,
    sorted_rays radar sweep = Ok (azi, azs, els, idx) ∧
    homogenize n azs els idx = Ok (a, e, i).
Proof.
  unfold grid_row. intros Hg.
  apply rbind_Ok in Hg as ([[[azi azs] els] idx] & Hs & Hh). eauto 10.
Qed.

Lemma homogenize_Ok (n : nat) azs els idx a e i :
  homogenize n azs els idx = Ok (a, e, i) →
  (length azs ≠ n ∧ ∃ start stop,
     azs !! 0 = Some start ∧ last azs = Some stop ∧
     a = linspace start stop n ∧ e = np_resize els n ∧ i = seq 0 n) ∨
  (length azs = n ∧ a = azs ∧ e = els ∧ i = idx).
Proof.
  unfold homogenize. intros Hh. case_decide as Hn.
  - left. split; [done|].
    apply rbind_Ok in Hh as (start & Hstart%or_raise_Ok & Hh).
    apply rbind_Ok in Hh as (stop & Hstop%or_raise_Ok & Hh).
    injection Hh as <- <- <-. eauto 10.
  - right. by injection Hh as <- <- <-.
Qed.

Lemma grid_rows_lookup (radar : Radar) (n : nat) (sweeps : list nat)
    (rows : list (list Qc * list Qc * list nat)) (p sweep : nat) :
  Forall2 (λ s row, grid_row radar n s = Ok row) sweeps rows →
  sweeps !! p = Some sweep →
  ∃ a e i, grid_row radar n sweep = Ok (a, e, i) ∧
    rows.*1.*1 !! p = Some a ∧ rows.*1.*2 !! p = Some e.
Proof.
  intros Hrows Hp.
  destruct (Forall2_lookup_l _ _ _ _ _ Hrows Hp) as ([[a e] i] & Hrow & Hg).
  exists a, e, i. rewrite !list_lookup_fmap, Hrow. done.
Qed.

End GridRows.

(** ** Two-dimensional arrays *)

Lemma shape_fmap2 {A B} (f : A → B) (a : list (list A)) :
  shape (map (map f) a) = shape a.
Proof.
  unfold shape. rewrite <-list_fmap_compose. apply list_fmap_ext.
  intros _ row _. simpl. apply length_fmap.
Qed.

Lemma at2_fmap2 {A B} (f : A → B) (a : list (list A)) (i j : nat) :
  at2 (map (map f) a) i j = f <$> at2 a i j.
Proof.
  unfold at2. rewrite list_lookup_fmap. destruct (a !! i) as [row|]; [|done].
  simpl. apply list_lookup_fmap.
Qed.

Lemma shape_zip_with2 {A B C} (f : A → B → C) (c : list (list A))
    (a : list (list B)) :
  shape c = shape a → shape (zip_with (zip_with f) c a) = shape a.
Proof.
  revert a. induction c as [|rc c IH]; intros [|ra a]; try done.
  intros [= Hr Hs]. simpl. rewrite length_zip_with, Hr, Nat.min_id.
  f_equal. by apply IH.
Qed.

Lemma at2_zip_with2 {A B C} (f : A → B → C) (c : list (list A))
    (a : list (list B)) (i j : nat) (x : A) (y : B) :
  at2 c i j = Some x → at2 a i j = Some y →
  at2 (zip_with (zip_with f) c a) i j = Some (f x y).
Proof.
  unfold at2. intros Hc Ha.
  destruct (c !! i) as [rc|] eqn:Hrc; [|done].
  destruct (a !! i) as [ra|] eqn:Hra; [|done]. simpl in *.
  rewrite lookup_zip_with, Hrc. simpl. rewrite Hra. simpl.
  rewrite lookup_zip_with, Hc. simpl. by rewrite Ha.
Qed.

Lemma at2_shape {A} (a : list (list A)) (i j : nat) :
  is_Some (at2 a i j) ↔ ∃ n, shape a !! i = Some n ∧ j < n.
Proof.
  unfold at2, shape. rewrite list_lookup_fmap.
  destruct (a !! i) as [row|]; simpl.
  - rewrite lookup_lt_is_Some. split.
    + intros ?. by exists (length row).
    + by intros (n & [= <-] & ?).
  - split; [by intros []|by intros (? & ? & ?)].
Qed.

Lemma at2_Some_rows {A} (a : list (list A)) (i j : nat) (x : A) :
  at2 a i j = Some x ↔ ∃ row, a !! i = Some row ∧ row !! j = Some x.
Proof.
  unfold at2. destruct (a !! i) as [row|]; simpl.
  - split; [eauto|]. by intros (row' & [= <-] & ?).
  - split; [done|]. by intros (? & ? & _).
Qed.

Lemma at2_same_shape {A B} (a : list (list A)) (b : list (list B))
    (i j : nat) :
  shape a = shape b → is_Some (at2 a i j) → is_Some (at2 b i j).
Proof. intros Hs. rewrite !at2_shape. by rewrite Hs. Qed.

Lemma elem_of_concat {A} (x : A) (ls : list (list A)) :
  x ∈ concat ls ↔ ∃ l, l ∈ ls ∧ x ∈ l.
Proof.
  induction ls as [|l ls IH]; simpl.
  - split; [by intros ?%elem_of_nil|by intros (? & ?%elem_of_nil & _)].
  - rewrite elem_of_app, IH. split.
    + intros [?|(l' & ? & ?)]; [exists l|exists l']; split; try done.
      * by left.
      * by right.
    + intros (l' & [->|?]%elem_of_cons & ?); [by left|right; eauto].
Qed.

Lemma at2_elem_of {A} (a : list (list A)) (i j : nat) (x : A) :
  at2 a i j = Some x → x ∈ concat a.
Proof.
  unfold at2. intros Hx. destruct (a !! i) as [row|] eqn:Hrow; [|done].
  simpl in Hx. apply elem_of_concat. exists row.
  split; by eapply list_elem_of_lookup_2.
Qed.

Lemma at2_concat_uniform {A} (k p i j : nat) (arrs : list (list (list A)))
    (a : list (list A)) :
  Forall (λ a, length a = k) arrs → arrs !! p = Some a → i < k →
  at2 (concat arrs) (p * k + i) j = at2 a i j.
Proof.
  intros Hall. revert p. induction Hall as [|a0 arrs Ha0 _ IH];
    intros p Hp Hi; [done|].
  unfold at2 in *. destruct p as [|p]; simpl in *.
  - injection Hp as ->. by rewrite lookup_app_l by lia.
  - rewrite lookup_app_r by lia.
    replace (k + p * k + i - length a0) with (p * k + i) by lia.
    by apply IH.
Qed.

(** ** Masks *)

Lemma masked_where_Ok (c : list (list bool)) (a a' : marray) :
  masked_where c a = Ok a' →
  shape c = shape a ∧ a' = zip_with (zip_with mask_gate) c a ∧
  shape a' = shape a.
Proof.
  unfold masked_where. case_decide as Hs; [|done]. intros [= <-].
  split_and!; [done..|]. by apply shape_zip_with2.
Qed.

Lemma masked_equal_hits (a : marray) (m : option Qc) :
  masked_equal a m = map (map (λ g, mask_gate (hits (gval g) m) g)) a.
Proof. by destruct m. Qed.

Lemma shape_masked_equal (a : marray) (m : option Qc) :
  shape (masked_equal a m) = shape a.
Proof. rewrite masked_equal_hits. apply shape_fmap2. Qed.

Lemma shape_ma_astype `{Externals} (t : dtype) (a : marray) :
  shape (ma_astype t a) = shape a.
Proof. apply shape_fmap2. Qed.

Lemma Qc_min_le_l (x y : Qc) : (Qc_min x y ≤ x)%Qc.
Proof.
  unfold Qc_min. destruct (Qc_leb x y) eqn:Hxy; [done|].
  apply not_true_iff_false in Hxy. rewrite Qc_leb_le in Hxy.
  by apply Qclt_le_weak, Qcnot_le_lt.
Qed.

Lemma Qc_min_le_r (x y : Qc) : (Qc_min x y ≤ y)%Qc.
Proof.
  unfold Qc_min. destruct (Qc_leb x y) eqn:Hxy; [|done].
  by apply Qc_leb_le.
Qed.

Lemma Qc_min_cases (x y : Qc) : Qc_min x y = x ∨ Qc_min x y = y.
Proof. unfold Qc_min. destruct (Qc_leb x y); auto. Qed.

Lemma opt_min_least (l : list gate) :
  least_unmasked l (foldr opt_min None l).
Proof.
  induction l as [|g l IH]; simpl.
  - by intros g ?%elem_of_nil.
  - unfold opt_min at 1. destruct (gmask g) eqn:Hg.
    + destruct (foldr opt_min None l) as [v|]; simpl in *.
      * destruct IH as [(g' & Hin & Hm & Hv) Hle]. split.
        { exists g'. split_and!; [by right|done..]. }
        intros g'' [->|Hin']%elem_of_cons Hm'; [congruence|by apply Hle].
      * intros g' [->|Hin']%elem_of_cons; [done|by apply IH].
    + destruct (foldr opt_min None l) as [v|]; simpl in *.
      * destruct IH as [(g' & Hin & Hm & Hv) Hle]. split.
        { destruct (Qc_min_cases (gval g) v) as [->| ->].
          - exists g. split_and!; [by left|done..].
          - exists g'. split_and!; [by right|done..]. }
        intros g'' [->|Hin']%elem_of_cons Hm'; [apply Qc_min_le_l|].
        etrans; [apply Qc_min_le_r|]. by apply Hle.
      * split.
        { exists g. split_and!; [by left|done..]. }
        intros g'' [->|Hin']%elem_of_cons Hm'; [done|].
        apply IH in Hin'. congruence.
Qed.

Lemma ma_min_Ok (a : marray) (m : option Qc) :
  ma_min a = Ok m → gate_count a ≠ 0 ∧ least_unmasked (concat a) m.
Proof.
  unfold ma_min. case_decide; [done|]. intros [= <-].
  split; [done|]. apply opt_min_least.
Qed.

(** A gate that holds the least value of the whole array, masked gates
    included, is masked once the array's minimum has been masked. *)
Lemma least_value_masked (l : list gate) (m : option Qc) (g : gate) :
  least_unmasked l m → g ∈ l →
  (∀ g', g' ∈ l → (gval g ≤ gval g')%Qc) →
  hits (gval g) m || gmask g = true.
Proof.
  intros Hm Hg Hle. destruct (gmask g) eqn:Hmask; [by rewrite orb_true_r|].
  rewrite orb_false_r. destruct m as [v|]; simpl in *.
  - destruct Hm as [(g' & Hin & _ & Hv) Hmin].
    apply Qc_eqb_eq. apply Qcle_antisym.
    + rewrite <-Hv. by apply Hle.
    + by apply Hmin.
  - apply Hm in Hg. congruence.
Qed.

(** ** Stacking the sweeps of a field *)

Lemma ma_concatenate_Ok (acc : list marray) (a : marray) acc' :
  ma_concatenate acc a = Ok acc' →
  acc' = acc ++ [a] ∧ ∀ a0, head acc = Some a0 → shape a0 = shape a.
Proof.
  unfold ma_concatenate. destruct acc as [|a0 acc].
  - intros [= <-]. by split.
  - case_decide; [|done]. intros [= <-]. split; [done|]. by intros ? [= <-].
Qed.

Lemma shape_concat {A} (arrs : list (list (list A))) :
  shape (concat arrs) = concat (shape <$> arrs).
Proof.
  unfold shape. induction arrs as [|a arrs IH]; [done|].
  simpl. by rewrite fmap_app, IH.
Qed.

Lemma concat_replicate_replicate {A} (S k : nat) (x : A) :
  concat (replicate S (replicate k x)) = replicate (S * k) x.
Proof.
  induction S as [|S IH]; [done|]. simpl. by rewrite IH, replicate_add.
Qed.

Lemma length_slice_eq {A B} (s : nat * nat) (l1 : list A) (l2 : list B) :
  length l1 = length l2 → length (slice s l1) = length (slice s l2).
Proof. intros Hl. unfold slice. by rewrite !length_take, !length_drop, Hl. Qed.

(** The field that lines 91-93 leave: the rows of [delete_extra_ray], and
    without their mask when a ray was deleted. *)
Lemma delete_extra_ray2_field {A} (r r' : list A) (field field' : marray) :
  delete_extra_ray2 r field = Ok (r', field') →
  ∃ rows, delete_extra_ray field = Ok rows ∧
          field' = if decide (length field = 361) then drop_mask rows
                   else rows.
Proof.
  unfold delete_extra_ray2, delete_extra_ray, ma_delete_last. case_decide.
  - intros Hd. apply rbind_Ok in Hd as (r1 & _ & Hd).
    apply rbind_Ok in Hd as (f1 & Hf1 & Hd).
    apply rbind_Ok in Hf1 as (rows & Hrows & [= <-]).
    injection Hd as _ <-. by exists rows.
  - intros [= _ <-]. by exists field.
Qed.

Lemma length_drop_mask (a : marray) : length (drop_mask a) = length a.
Proof. unfold drop_mask. by rewrite length_map. Qed.

Lemma drop_mask_lookup (a : marray) (i : nat) :
  drop_mask a !! i = map (λ g, unmasked (gval g)) <$> a !! i.
Proof. unfold drop_mask. apply list_lookup_fmap. Qed.

Lemma delete_extra_ray2_length {A} (r r' : list A) (field field' : marray)
    (rows : marray) :
  delete_extra_ray2 r field = Ok (r', field') →
  delete_extra_ray field = Ok rows →
  length field' = length rows ∧
  Forall2 (λ row' row, length row' = length row) field' rows.
Proof.
  intros (rows' & Hrows & ->)%delete_extra_ray2_field Hrows'.
  rewrite Hrows in Hrows'. injection Hrows' as ->.
  case_decide.
  - split; [apply length_drop_mask|].
    unfold drop_mask. apply Forall2_fmap_l, Forall_Forall2_diag.
    apply Forall_forall. intros row _. apply length_map.
  - split; [done|]. apply Forall_Forall2_diag. by apply Forall_forall.
Qed.

Lemma shape_replicate_rows {A} (a : list (list A)) (n G : nat) :
  shape a = replicate n G ↔ length a = n ∧ Forall (λ row, length row = G) a.
Proof.
  unfold shape. split.
  - intros Hs. split.
    + apply (f_equal length) in Hs. by rewrite length_fmap, length_replicate in Hs.
    + apply Forall_forall. intros row Hrow.
      assert (length row ∈ replicate n G) as Hin.
      { rewrite <-Hs. by apply (list_elem_of_fmap_2 length). }
      by apply elem_of_replicate in Hin as [? _].
  - intros [<- Hall]. induction Hall as [|row a Hrow _ IH]; [done|].
    by rewrite fmap_cons, Hrow, IH.
Qed.

Lemma gate_count_shape {A} (a : list (list A)) :
  gate_count a = sum_list (shape a).
Proof.
  unfold gate_count, shape. induction a as [|row a IH]; [done|].
  simpl. by rewrite length_app, IH.
Qed.

Section FieldFacts.
Context `{Externals}.

Lemma field_sweep_Ok (radar : Radar) (g : grids) (f : Field) (sweep : nat)
    (a : marray) :
  field_sweep radar g f sweep = Ok a ↔
  ∃ rr fs mr rm m,
    resample_sweep radar g f sweep = Ok (rr, fs, mr) ∧
    masked_where (map (map (Qc_leb mr)) rr) fs = Ok rm ∧
    range_masked radar g f sweep = Ok rm ∧
    ma_min rm = Ok m ∧ a = masked_equal rm m.
Proof.
  unfold field_sweep, range_masked, mask_sweep. split.
  - intros Hf. apply rbind_Ok in Hf as ([[rr fs] mr] & Hr & Hf).
    apply rbind_Ok in Hf as (rm & Hrm & Hf).
    apply rbind_Ok in Hf as (m & Hm & Hf). injection Hf as <-.
    exists rr, fs, mr, rm, m. rewrite Hr. simpl. by rewrite Hrm.
  - intros (rr & fs & mr & rm & m & Hr & Hrm & _ & Hm & ->).
    rewrite Hr. simpl. rewrite Hrm. simpl. by rewrite Hm.
Qed.

Lemma shape_field_sweep (radar : Radar) (g : grids) (f : Field)
    (sweep : nat) rr fs mr (a : marray) :
  resample_sweep radar g f sweep = Ok (rr, fs, mr) →
  field_sweep radar g f sweep = Ok a →
  shape a = shape fs ∧ shape rr = shape fs ∧ gate_count fs ≠ 0.
Proof.
  intros Hr (rr' & fs' & mr' & rm & m & Hr' & Hrm & _ & Hm & ->)%field_sweep_Ok.
  rewrite Hr in Hr'. injection Hr' as <- <- <-.
  apply masked_where_Ok in Hrm as (Hs & -> & Hs').
  rewrite shape_fmap2 in Hs.
  rewrite shape_masked_equal. split_and!; [done..|].
  apply ma_min_Ok in Hm as [Hc _].
  rewrite gate_count_shape in Hc |- *. by rewrite <-Hs'.
Qed.

Lemma stack_step_min (radar : Radar) (g : grids) (sweep_min : nat)
    (f : Field) st st' :
  stack_step radar g sweep_min f st sweep_min = Ok st' →
  ∃ a, field_sweep radar g f sweep_min = Ok a ∧ st' = Some [a].
Proof.
  unfold stack_step. intros Hs. apply rbind_Ok in Hs as (a & Ha & Hs).
  rewrite decide_True in Hs by done. injection Hs as <-. eauto.
Qed.

Lemma stack_step_other (radar : Radar) (g : grids) (sweep_min sweep : nat)
    (f : Field) st st' :
  sweep ≠ sweep_min →
  stack_step radar g sweep_min f st sweep = Ok st' →
  ∃ acc a,
    st = Some acc ∧ field_sweep radar g f sweep = Ok a ∧
    st' = Some (acc ++ [a]) ∧ ∀ a0, head acc = Some a0 → shape a0 = shape a.
Proof.
  unfold stack_step. intros Hne Hs. apply rbind_Ok in Hs as (a & Ha & Hs).
  rewrite decide_False in Hs by done.
  apply rbind_Ok in Hs as (acc & Hacc%or_raise_Ok & Hs).
  apply rbind_Ok in Hs as (acc' & [-> Hsh]%ma_concatenate_Ok & Hs).
  injection Hs as <-. subst st. eauto 10.
Qed.

Lemma stack_loop_rest (radar : Radar) (g : grids) (sweep_min : nat)
    (f : Field) (rest : list nat) :
  ∀ a0 acc st',
  sweep_min ∉ rest →
  for_each (stack_step radar g sweep_min f) (Some (a0 :: acc)) rest
  = Ok st' →
  ∃ arrs,
    Forall2 (λ s a, field_sweep radar g f s = Ok a) rest arrs ∧
    Forall (λ a, shape a = shape a0) arrs ∧
    st' = Some (a0 :: acc ++ arrs).
Proof.
  induction rest as [|s rest IH]; intros a0 acc st' Hnin Hf.
  - injection Hf as <-. exists []. by rewrite app_nil_r.
  - apply not_elem_of_cons in Hnin as [Hne Hnin]. simpl in Hf.
    apply rbind_Ok in Hf as (st1 & Hstep & Hf).
    apply stack_step_other in Hstep
      as (acc0 & a & [= <-] & Ha & -> & Hsh); [|done].
    change ((a0 :: acc) ++ [a]) with (a0 :: (acc ++ [a])) in Hf.
    apply IH in Hf as (arrs & Harrs & Hshapes & ->); [|done].
    exists (a :: arrs). split_and!.
    + by constructor.
    + constructor; [|done]. symmetry. by apply Hsh.
    + by rewrite <-app_assoc.
Qed.

(** The arrays the loop of line 81 stacks: one per sweep, all of the shape
    of the first. *)
Lemma stack_loop_Ok (radar : Radar) (g : grids) (sweep_min : nat)
    (f : Field) (rest : list nat) st :
  sweep_number radar = sweep_min :: rest → sweep_min ∉ rest →
  for_each (stack_step radar g sweep_min f) None (sweep_number radar)
  = Ok st →
  ∃ a0 arrs,
    st = Some (a0 :: arrs) ∧
    Forall2 (λ s a, field_sweep radar g f s = Ok a)
      (sweep_number radar) (a0 :: arrs) ∧
    Forall (λ a, shape a = shape a0) (a0 :: arrs).
Proof.
  intros Hsn Hnin Hf. rewrite Hsn in Hf |- *. simpl in Hf.
  apply rbind_Ok in Hf as (st1 & Hstep & Hf).
  apply stack_step_min in Hstep as (a0 & Ha0 & ->).
  apply stack_loop_rest in Hf as (arrs & Harrs & Hsh & ->); [|done].
  exists a0, arrs. split_and!; [done|by constructor|by constructor].
Qed.

Lemma resample_field_stacked (radar : Radar) (g : grids) (sweep_min : nat)
    (f : Field) (d : marray) :
  resample_field radar g sweep_min f = Ok d ↔
  ∃ st m, stacked_field radar g sweep_min f = Ok st ∧
          ma_min st = Ok m ∧ d = masked_equal st m.
Proof.
  unfold resample_field, stacked_field, assemble. split.
  - intros Hr. apply rbind_Ok in Hr as (st & Hst & Hr).
    apply rbind_Ok in Hr as (ff & Hff & Hr).
    apply rbind_Ok in Hr as (m & Hm & Hr). injection Hr as <-.
    eexists _, m. rewrite Hst. simpl. rewrite Hff. simpl. done.
  - intros (st & m & Hst & Hm & ->).
    apply rbind_Ok in Hst as (st0 & Hst0 & Hst).
    apply rbind_Ok in Hst as (ff & Hff & Hst). injection Hst as <-.
    rewrite Hst0. simpl. rewrite Hff. simpl. by rewrite Hm.
Qed.

Lemma stacked_field_Ok (radar : Radar) (g : grids) (sweep_min : nat)
    (f : Field) (rest : list nat) (st : marray) :
  sweep_number radar = sweep_min :: rest → sweep_min ∉ rest →
  stacked_field radar g sweep_min f = Ok st →
  ∃ a0 arrs,
    Forall2 (λ s a, field_sweep radar g f s = Ok a)
      (sweep_number radar) (a0 :: arrs) ∧
    Forall (λ a, shape a = shape a0) (a0 :: arrs) ∧
    st = ma_astype (dtype_of f) (concat (a0 :: arrs)).
Proof.
  intros Hsn Hnin Hst. unfold stacked_field in Hst.
  apply rbind_Ok in Hst as (st0 & Hst0 & Hst).
  apply rbind_Ok in Hst as (ff & Hff%or_raise_Ok & Hst). injection Hst as <-.
  destruct (stack_loop_Ok _ _ _ _ _ _ Hsn Hnin Hst0)
    as (a0 & arrs & -> & Harrs & Hsh).
  injection Hff as <-. eauto.
Qed.

End FieldFacts.

(** ** The array of one sweep *)

Lemma elem_of_slice {A} (s : nat * nat) (l : list A) (x : A) :
  x ∈ slice s l → x ∈ l.
Proof. unfold slice. intros Hx. by eapply subseteq_drop, subseteq_take. Qed.

Section SweepShape.
Context `{Externals}.

(** The two ways through lines 83-116. *)
Lemma resample_sweep_Ok (radar : Radar) (g : grids) (f : Field)
    (sweep : nat) rr fs mr :
  resample_sweep radar g f sweep = Ok (rr, fs, mr) →
  ∃ sl r0 r1 field azi azs az0,
    get_slice radar sweep = Ok sl ∧
    gate_range (range radar) (slice sl (azimuth radar))
      (slice sl (elevation radar)) = Ok r0 ∧
    delete_extra_ray2 r0 (slice sl (data f)) = Ok (r1, field) ∧
    slice sl (unambiguous_range radar) !! 0 = Some mr ∧
    delete_extra_ray (slice sl (azimuth radar)) = Ok azi ∧
    fancy_index azi (argsort azi) = Ok azs ∧
    az_final g !! 0 = Some az0 ∧
    ((length field = length az0 ∧ rr = r1 ∧
      fancy_index field (argsort azi) = Ok fs) ∨
     (length field ≠ length az0 ∧
      ∃ sorted target field_interp,
        fancy_index field (argsort azi) = Ok sorted ∧
        az_final g !! sweep = Some target ∧
        interp1d azs r1 target = Ok rr ∧
        interp2d (range radar) azs (map (map gval) sorted) (range radar)
          target = Ok field_interp ∧
        fs = map (map (λ x, unmasked (np_round3 x))) field_interp)).
Proof.
  unfold resample_sweep. intros Hr.
  apply rbind_Ok in Hr as (sl & Hsl & Hr).
  apply rbind_Ok in Hr as (r0 & Hr0 & Hr).
  apply rbind_Ok in Hr as ([r1 field] & Hd & Hr).
  apply rbind_Ok in Hr as (mr' & Hmr%or_raise_Ok & Hr).
  apply rbind_Ok in Hr as (azi & Hazi & Hr).
  apply rbind_Ok in Hr as (azs & Hazs & Hr).
  apply rbind_Ok in Hr as (sorted & Hsorted & Hr).
  apply rbind_Ok in Hr as (az0 & Haz0%or_raise_Ok & Hr).
  exists sl, r0, r1, field, azi, azs, az0.
  case_decide as Hlen.
  - apply rbind_Ok in Hr as (target & Ht%or_raise_Ok & Hr).
    apply rbind_Ok in Hr as (rr' & Hrr & Hr).
    apply rbind_Ok in Hr as (fi & Hfi & Hr). injection Hr as <- <- <-.
    split_and!; try done. right. split; [done|]. eauto 10.
  - injection Hr as <- <- <-. split_and!; try done. left. done.
Qed.

(** On a consistent volume the lowest sweep is never interpolated: its
    array has one row of [len(range)] gates per ray. *)
Lemma reference_sweep_shape (radar : Radar) (g : grids) (sweep_min : nat)
    (kv : string * Field) azs els idx az0 rr fs mr :
  consistent radar →
  sorted_rays radar sweep_min = Ok (azimuth_final g, azs, els, idx) →
  az_final g !! 0 = Some az0 →
  length az0 = length (azimuth_final g) →
  kv ∈ fields radar →
  resample_sweep radar g kv.2 sweep_min = Ok (rr, fs, mr) →
  shape fs = replicate (length (azimuth_final g)) (length (range radar)).
Proof.
  intros Hc Hs Haz0 Hk Hkv Hr.
  destruct Hc as [_ _ _ Hshapes]. rewrite Forall_forall in Hshapes.
  apply Hshapes in Hkv. apply shape_replicate_rows in Hkv as [Hrows Hcols].
  apply sorted_rays_Ok in Hs as (sl & ele & Hsl & Hazi & _ & -> & _ & _).
  apply resample_sweep_Ok in Hr
    as (sl' & r0 & r1 & field & azi & azs' & az0' & Hsl' & _ & Hd & _ & Hazi'
        & _ & Haz0' & Hcase).
  rewrite Hsl in Hsl'. injection Hsl' as <-.
  rewrite Hazi in Hazi'. injection Hazi' as <-.
  rewrite Haz0 in Haz0'. injection Haz0' as <-.
  destruct (delete_extra_ray2_field _ _ _ _ Hd) as (kept & Hkept & _).
  destruct (delete_extra_ray2_length _ _ _ _ _ Hd Hkept) as [Hlf Hrowlen].
  rewrite delete_extra_ray_Ok in Hkept. rewrite delete_extra_ray_Ok in Hazi.
  injection Hkept as <-. injection Hazi as Hazi.
  assert (length (slice sl (data kv.2)) = length (slice sl (azimuth radar)))
    as Hsame by (by apply length_slice_eq).
  assert (length field = length (azimuth_final g)) as Hlen.
  { rewrite Hlf, <-Hazi, Hsame.
    destruct (decide (length (slice sl (azimuth radar)) = 361)); [|done].
    by rewrite !length_take, Hsame. }
  destruct Hcase as [(_ & _ & Hfs)|[Hne _]]; [|by rewrite Hlen, Hk in Hne].
  apply shape_replicate_rows. split.
  - rewrite (fancy_index_length _ _ _ Hfs).
    pose proof (argsort_perm (azimuth_final g)) as Hp.
    by rewrite Hp, length_seq.
  - apply fancy_index_Forall2 in Hfs.
    eapply Forall2_Forall_r; [exact Hfs|].
    apply Forall_forall. intros i _ row Hrow.
    destruct (Forall2_lookup_l _ _ _ _ _ Hrowlen Hrow) as (row0 & Hrow0 & ->).
    rewrite Forall_forall in Hcols. apply Hcols.
    apply list_elem_of_lookup_2 in Hrow0.
    case_decide; [|by eapply elem_of_slice].
    eapply elem_of_slice, subseteq_take. done.
Qed.

End SweepShape.

(** ** The fields of a run that returns *)

Section MainFields.
Context `{Externals}.

(** The fields of a run that returns on a consistent volume. *)
Lemma main_Returned_fields (radar r' : Radar) :
  consistent radar →
  main radar = Returned r' →
  ∃ sweep_min rest g az0,
    sweep_number radar = sweep_min :: rest ∧ (sweep_min ∉ rest) ∧
    build_grids radar sweep_min = Ok g ∧
    az_final g !! 0 = Some az0 ∧ length az0 = length (azimuth_final g) ∧
    Forall2 (λ kv kv',
        kv'.1 = kv.1 ∧ dtype_of kv'.2 = dtype_of kv.2 ∧
        resample_field radar g sweep_min kv.2 = Ok (data kv'.2))
      (fields radar) (fields r').
Proof.
  intros Hc Hm. pose proof Hc as [Hnd Hkeys _ _].
  apply main_Returned_shape in Hm
    as (smin & rest & g & rows & t & rf & Hsn & Hg & Hk & Hrows & Haz & Hel
        & Hfl & HS & Hkpos & ->); [|done].
  assert (smin ∉ rest) as Hnin.
  { rewrite Hsn in Hnd. by apply NoDup_cons in Hnd as [? _]. }
  assert (∃ az0, az_final g !! 0 = Some az0
                 ∧ length az0 = length (azimuth_final g)) as (az0 & Haz0 & Hl0).
  { rewrite Hsn in Hrows. destruct rows as [|[[a e] i] rows];
      [by apply Forall2_length in Hrows|].
    apply Forall2_cons in Hrows as [Hrow _].
    exists a. rewrite Haz. split; [done|].
    by apply grid_row_facts in Hrow as (? & _). }
  exists smin, rest, g, az0. split_and!; try done.
  apply fields_loop_Ok in Hfl as [_ Hall]; [|done].
  cbn [fields]. apply Forall2_same_length_lookup. split.
  { by eapply Forall2_length. }
  intros q kv kv' Hkv Hkv'.
  destruct (Forall2_lookup_lr _ _ _ _ _ _ Hall Hkv Hkv')
    as (Hname & Hty & Hin & _).
  split_and!; [done..|].
  destruct Hin as (f0 & Hget & Hres).
  { apply list_elem_of_fmap. exists kv. split; [done|].
    by eapply list_elem_of_lookup_2. }
  rewrite (dict_get_NoDup (fields radar) kv.1 kv.2) in Hget; [|done|].
  - by injection Hget as <-.
  - destruct kv. by eapply list_elem_of_lookup_2.
Qed.

(** Every sweep of a field has the shape of the lowest one, and the
    stacked array has one row per ray of the homogenised volume. *)
Lemma stacked_field_shape (radar : Radar) (g : grids) (sweep_min : nat)
    (rest : list nat) (kv : string * Field) azs els idx az0 (st : marray) :
  consistent radar →
  sweep_number radar = sweep_min :: rest → sweep_min ∉ rest →
  sorted_rays radar sweep_min = Ok (azimuth_final g, azs, els, idx) →
  az_final g !! 0 = Some az0 →
  length az0 = length (azimuth_final g) →
  kv ∈ fields radar →
  stacked_field radar g sweep_min kv.2 = Ok st →
  ∃ arrs,
    Forall2 (λ s a, field_sweep radar g kv.2 s = Ok a)
      (sweep_number radar) arrs ∧
    Forall (λ a, shape a = replicate (length (azimuth_final g))
                             (length (range radar))) arrs ∧
    st = ma_astype (dtype_of kv.2) (concat arrs) ∧
    shape st = replicate (length (sweep_number radar)
                          * length (azimuth_final g))
                 (length (range radar)).
Proof.
  intros Hc Hsn Hnin Hs Haz0 Hl0 Hkv Hst.
  apply (stacked_field_Ok _ _ _ _ rest) in Hst
    as (a0 & arrs & Harrs & Hsh & ->); [|done..].
  assert (shape a0 = replicate (length (azimuth_final g))
                       (length (range radar))) as Ha0.
  { rewrite Hsn in Harrs. apply Forall2_cons in Harrs as [Ha0 _].
    pose proof Ha0 as (rr & fs & mr & rm & m & Hr & _)%field_sweep_Ok.
    destruct (shape_field_sweep _ _ _ _ _ _ _ _ Hr Ha0) as (-> & _).
    by eapply reference_sweep_shape. }
  assert (Forall (λ a, shape a = replicate (length (azimuth_final g))
                                   (length (range radar))) (a0 :: arrs))
    as Hall.
  { eapply Forall_impl; [exact Hsh|]. intros a ->. done. }
  exists (a0 :: arrs). split_and!; [done..|].
  rewrite shape_ma_astype, shape_concat.
  rewrite (Forall2_length _ _ _ Harrs).
  rewrite <-concat_replicate_replicate. f_equal.
  clear -Hall. induction Hall as [|a l Ha _ IH]; [done|].
  by rewrite fmap_cons, Ha, IH.
Qed.

End MainFields.

(** ** Where a gate ends up *)

Lemma at2_masked_equal (a : marray) (m : option Qc) (i j : nat) :
  at2 (masked_equal a m) i j
  = (λ g, mask_gate (hits (gval g) m) g) <$> at2 a i j.
Proof. rewrite masked_equal_hits. apply at2_fmap2. Qed.

Lemma at2_ma_astype `{Externals} (t : dtype) (a : marray) (i j : nat) :
  at2 (ma_astype t a) i j
  = (λ g, Gate (astype t (gval g)) (gmask g)) <$> at2 a i j.
Proof. apply at2_fmap2. Qed.

Lemma at2_row_bound {A} (a : list (list A)) (n G i j : nat) :
  shape a = replicate n G → is_Some (at2 a i j) → i < n.
Proof.
  intros Hs (m & Hm & _)%at2_shape. rewrite Hs in Hm.
  by apply lookup_replicate in Hm as [_ ?].
Qed.

Section FinalGate.
Context `{Externals}.

(** Where a gate of a sweep's resampled array ends up, and with which
    mask. *)
Lemma final_gate (radar r' : Radar) (q p sweep : nat)
    (kv kv' : string * Field) :
  consistent radar →
  main radar = Returned r' →
  fields radar !! q = Some kv → fields r' !! q = Some kv' →
  sweep_number radar !! p = Some sweep →
  ∃ sweep_min g rr fs mr rm st m_sweep m_vol,
    let k := length (azimuth_final g) in
    let t := dtype_of kv.2 in
    head (sweep_number radar) = Some sweep_min ∧
    build_grids radar sweep_min = Ok g ∧
    sweep_ray_count radar sweep_min = Ok k ∧
    resample_sweep radar g kv.2 sweep = Ok (rr, fs, mr) ∧
    shape rr = shape fs ∧
    range_masked radar g kv.2 sweep = Ok rm ∧
    rm = zip_with (zip_with mask_gate) (map (map (Qc_leb mr)) rr) fs ∧
    ma_min rm = Ok m_sweep ∧
    stacked_field radar g sweep_min kv.2 = Ok st ∧
    ma_min st = Ok m_vol ∧
    data kv'.2 = masked_equal st m_vol ∧
    ∀ i j g0 x,
      at2 fs i j = Some g0 → at2 rr i j = Some x →
      at2 rm i j = Some (mask_gate (Qc_leb mr x) g0) ∧
      at2 st (p * k + i) j
      = Some (Gate (astype t (gval g0))
                (hits (gval g0) m_sweep || (Qc_leb mr x || gmask g0))) ∧
      at2 (data kv'.2) (p * k + i) j
      = Some (Gate (astype t (gval g0))
                (hits (astype t (gval g0)) m_vol
                 || (hits (gval g0) m_sweep || (Qc_leb mr x || gmask g0)))).
Proof.
  intros Hc Hm Hkv Hkv' Hp.
  destruct (main_Returned_fields _ _ Hc Hm)
    as (smin & rest & g & az0 & Hsn & Hnin & Hg & Haz0 & Hl0 & Hfields).
  destruct (Forall2_lookup_lr _ _ _ _ _ _ Hfields Hkv Hkv')
    as (_ & _ & Hres).
  apply resample_field_stacked in Hres as (st & m_vol & Hst & Hmvol & Hdata).
  pose proof Hg as Hg0.
  apply build_grids_Ok in Hg0
    as (rest' & azs & els & idx & rows' & _ & Hs0 & _);
    [|by destruct Hc].
  destruct (stacked_field_shape _ _ _ _ _ _ _ _ _ _ Hc Hsn Hnin Hs0 Haz0
              Hl0 (list_elem_of_lookup_2 _ _ _ Hkv) Hst)
    as (arrs & Harrs & Hshapes & Hsteq & _).
  destruct (Forall2_lookup_l _ _ _ _ _ Harrs Hp) as (a & Ha & Hfs).
  pose proof Hfs as (rr & fs & mr & rm & m_sweep & Hr & Hrm & Hrange & Hms
                     & Haeq)%field_sweep_Ok.
  pose proof (masked_where_Ok _ _ _ Hrm) as (Hshape & Hrmeq & _).
  rewrite shape_fmap2 in Hshape.
  exists smin, g, rr, fs, mr, rm, st, m_sweep, m_vol. cbn zeta.
  split_and!; try done.
  { by rewrite Hsn. }
  { by eapply sorted_rays_count. }
  intros i j g0 x Hg0' Hx.
  assert (at2 rm i j = Some (mask_gate (Qc_leb mr x) g0)) as Hrmij.
  { rewrite Hrmeq. apply at2_zip_with2; [|done].
    by rewrite at2_fmap2, Hx. }
  assert (at2 a i j
          = Some (mask_gate (hits (gval g0) m_sweep)
                    (mask_gate (Qc_leb mr x) g0))) as Haij.
  { by rewrite Haeq, at2_masked_equal, Hrmij. }
  assert (i < length (azimuth_final g)) as Hi.
  { rewrite Forall_lookup in Hshapes. eapply at2_row_bound.
    - by eapply Hshapes.
    - by rewrite Haij. }
  assert (at2 st (p * length (azimuth_final g) + i) j
          = Some (Gate (astype (dtype_of kv.2) (gval g0))
                    (hits (gval g0) m_sweep
                     || (Qc_leb mr x || gmask g0)))) as Hstij.
  { rewrite Hsteq, at2_ma_astype.
    rewrite (at2_concat_uniform (length (azimuth_final g)) p i j arrs a);
      [by rewrite Haij|..|done|done].
    eapply Forall_impl; [exact Hshapes|]. intros a' Ha'.
    by apply shape_replicate_rows in Ha' as [? _]. }
  split_and!; [done..|].
  by rewrite Hdata, at2_masked_equal, Hstij.
Qed.

End FinalGate.

(** ** Gates of masked arrays *)

Lemma elem_of_zip_with_inv {A B C} (f : A → B → C) (c : list A)
    (a : list B) (x : C) :
  x ∈ zip_with f c a → ∃ b y, y ∈ a ∧ x = f b y.
Proof.
  revert a. induction c as [|b c IH]; intros [|y a]; simpl;
    try (by intros ?%elem_of_nil).
  intros [->|Hin]%elem_of_cons.
  - exists b, y. split; [by left|done].
  - destruct (IH _ Hin) as (b' & y' & ? & ->).
    exists b', y'. split; [by right|done].
Qed.

Lemma elem_of_concat_zip_with2 {A B C} (f : A → B → C)
    (c : list (list A)) (a : list (list B)) (x : C) :
  x ∈ concat (zip_with (zip_with f) c a) → ∃ b y, y ∈ concat a ∧ x = f b y.
Proof.
  intros (row & Hrow & Hx)%elem_of_concat.
  apply elem_of_zip_with_inv in Hrow as (rc & ra & Hra & ->).
  apply elem_of_zip_with_inv in Hx as (b & y & Hy & ->).
  exists b, y. split; [|done]. apply elem_of_concat. eauto.
Qed.

Section MaxRange.
Context `{Externals}.

Lemma resample_sweep_max_range (radar : Radar) (g : grids) (f : Field)
    (sweep : nat) rr fs mr :
  resample_sweep radar g f sweep = Ok (rr, fs, mr) →
  ∃ sl, get_slice radar sweep = Ok sl ∧
        slice sl (unambiguous_range radar) !! 0 = Some mr.
Proof.
  intros (sl & ? & ? & ? & ? & ? & ? & Hsl & _ & _ & Hmr & _)%resample_sweep_Ok.
  eauto.
Qed.

End MaxRange.

(** ** Where the gates of a sweep's array come from *)

Section Source.
Context `{Externals}.


End Source.

(** ** Summary of a run that returns *)

Lemma dict_get_last (l : list (string * Field)) (kv : string * Field) :
  NoDup l.*1 → last l = Some kv → dict_get kv.1 l = Some kv.2.
Proof.
  intros Hnd Hlast. apply dict_get_NoDup; [done|].
  destruct kv. rewrite last_lookup in Hlast. by eapply list_elem_of_lookup_2.
Qed.

Section Summary.
Context `{Externals}.

(** Everything the later lemmas need to know about a run that returns on a
    consistent volume. *)
Lemma main_Returned_summary (v v1 : Radar) :
  consistent v →
  main v = Returned v1 →
  ∃ s0 g t kvl rows,
    let k := length (azimuth_final g) in
    let S := length (sweep_number v) in
    head (sweep_number v) = Some s0 ∧
    build_grids v s0 = Ok g ∧
    sweep_ray_count v s0 = Ok k ∧
    Forall2 (λ s row, grid_row v k s = Ok row) (sweep_number v) rows ∧
    az_final g = rows.*1.*1 ∧ ele_final g = rows.*1.*2 ∧
    last (fields v) = Some kvl ∧ t = dtype_of kvl.2 ∧
    0 < k ∧ k ≠ 361 ∧ 2 ≤ S ∧
    length (az_final g) = S ∧ length (ele_final g) = S ∧
    Forall (λ row, length row = k ∧ Sorted Qcle row) (az_final g) ∧
    Forall (λ row : list Qc, length row = k) (ele_final g) ∧
    v1 = MkRadar (sweep_number v) (range v)
           (astype t <$> concat (az_final g))
           (astype t <$> concat (ele_final g))
           (fields v1) (unambiguous_range v)
           ((λ i, 0 + i * k) <$> seq 0 S)
           ((λ i, k - 1 + i * k) <$> seq 0 S)
           (S * k) ∧
    Forall2 (λ kv kv', kv'.1 = kv.1 ∧ dtype_of kv'.2 = dtype_of kv.2)
      (fields v) (fields v1) ∧
    Forall (λ kv', shape (data kv'.2) = replicate (S * k) (length (range v)) ∧
                   Forall (Forall (λ g, astype (dtype_of kv'.2) (gval g)
                                        = gval g)) (data kv'.2))
      (fields v1).
Proof.
  intros Hc Hm. pose proof Hc as [Hnd Hkeys _ _].
  destruct (main_Returned_fields _ _ Hc Hm)
    as (smin & rest & g & az0 & Hsn & Hnin & Hg & Haz0 & Hl0 & Hfields).
  pose proof Hm as Hm'.
  apply main_Returned_shape in Hm'
    as (smin' & rest' & g' & rows & t & rf & Hsn' & Hg' & Hk & Hrows & Haz
        & Hel & Hfl & HS & Hkpos & Hv1); [|done].
  rewrite Hsn in Hsn'. injection Hsn' as <- <-.
  rewrite Hg in Hg'. injection Hg' as <-.
  set (k := length (azimuth_final g)) in *.
  pose proof (fields_loop_type _ _ _ _ _ _ _ Hfl) as Hty.
  destruct (last (fields v).*1) as [name|] eqn:Hlastname; [|done].
  rewrite fmap_last in Hlastname.
  destruct (last (fields v)) as [kvl|] eqn:Hlast; [|done].
  injection Hlastname as <-.
  rewrite (dict_get_last _ _ Hkeys Hlast) in Hty. injection Hty as Hty.
  pose proof Hg as Hg0.
  apply build_grids_Ok in Hg0
    as (rest' & azs & els & idx & rows' & _ & Hs0 & _); [|done].
  exists smin, g, t, kvl, rows. cbn zeta. split_and!; try done.
  - by rewrite Hsn.
  - pose proof (sorted_rays_Ok _ _ _ _ _ _ Hs0)
      as (sl & ele & _ & Hazi & _).
    by apply delete_extra_ray_length in Hazi.
  - rewrite Haz, !length_fmap. symmetry. by eapply Forall2_length.
  - rewrite Hel, !length_fmap. symmetry. by eapply Forall2_length.
  - rewrite Haz. apply Forall_fmap, Forall_fmap.
    eapply Forall2_Forall_r; [exact Hrows|].
    apply Forall_forall. intros s _ [[a e] i] Hrow. simpl.
    by apply grid_row_facts in Hrow as (? & _ & _ & ?).
  - rewrite Hel. apply Forall_fmap, Forall_fmap.
    eapply Forall2_Forall_r; [exact Hrows|].
    apply Forall_forall. intros s _ [[a e] i] Hrow. simpl.
    by apply grid_row_facts in Hrow as (_ & ? & _).
  - rewrite Hv1. cbn [fields]. by rewrite Hty.
  - eapply Forall2_impl; [exact Hfields|]. by intros ?? (? & ? & _).
  - eapply Forall2_Forall_r; [exact Hfields|].
    apply Forall_forall. intros kv Hkv kv' (_ & Hdt & Hres).
    apply resample_field_stacked in Hres as (st & m & Hst & Hm0 & Hdata).
    destruct (stacked_field_shape _ _ _ _ _ _ _ _ _ _ Hc Hsn Hnin Hs0 Haz0
                Hl0 Hkv Hst) as (arrs & _ & _ & Hsteq & Hshape).
    rewrite Hdata, shape_masked_equal. split; [done|].
    rewrite masked_equal_hits, Hsteq, Hdt. unfold ma_astype.
    apply Forall_fmap, Forall_fmap, Forall_forall. intros row _.
    apply Forall_fmap, Forall_fmap, Forall_forall. intros g0 _.
    simpl. apply astype_idemp.
Qed.

End Summary.

(** ** A second run *)

Lemma concat_blocks {A} (ns k : nat) (l : list A) :
  length l = ns * k →
  concat ((λ p, take k (drop (p * k) l)) <$> seq 0 ns) = l.
Proof.
  revert l. induction ns as [|ns IH]; intros l Hl.
  - by destruct l.
  - cbn [seq]. rewrite fmap_cons, <-fmap_S_seq, <-list_fmap_compose.
    cbn [concat]. rewrite drop_0.
    transitivity (take k l ++ drop k l); [|apply take_drop]. f_equal.
    rewrite <-(IH (drop k l)) by (rewrite length_drop; lia).
    f_equal. apply list_fmap_ext.
    intros i p Hp.
    simpl.
    by rewrite drop_drop.
Qed.

Lemma length_block {A} (ns k p : nat) (l : list A) :
  length l = ns * k → p < ns → length (take k (drop (p * k) l)) = k.
Proof. intros Hl Hp. rewrite length_take, length_drop. nia. Qed.

Lemma Forall2_fmap_eq {A B C} (f : A → C) (g : B → C) (l : list A)
    (k : list B) :
  Forall2 (λ x y, g y = f x) l k → g <$> k = f <$> l.
Proof. induction 1 as [|x y l k Hxy _ IH]; [done|]. by rewrite !fmap_cons, Hxy, IH. Qed.

Lemma slice_block {A} (p k : nat) (l : list A) :
  slice (0 + p * k, k - 1 + p * k + 1) l = take k (drop (p * k) l) ∨ k = 0.
Proof.
  destruct k as [|k]; [by right|left]. unfold slice. cbn [fst snd].
  f_equal. lia.
Qed.

Section SecondRun.
Context `{Externals}.

(** A sorting permutation of a sorted array without repeated values is the
    identity, whatever the sorting algorithm. *)
Lemma argsort_sorted_id (l : list Qc) :
  Sorted Qcle l → NoDup l → argsort l = seq 0 (length l).
Proof.
  intros Hs Hnd. pose proof (argsort_perm l) as Hp.
  destruct (fancy_index_perm l _ Hp) as (s & Hf & Hsp).
  assert (s = l) as ->.
  { apply (Sorted_unique Qcle); [by eapply argsort_sorted|done..]. }
  apply fancy_index_Forall2 in Hf.
  apply list_eq_same_length with (length l).
  - by rewrite length_seq.
  - by rewrite Hp, length_seq.
  - intros n i j Hn Hi Hj. apply lookup_seq in Hj as [-> _].
    destruct (lookup_lt_is_Some_2 l n Hn) as [y Hy].
    pose proof (Forall2_lookup_lr _ _ _ _ _ _ Hf Hi Hy) as Hiy.
    simpl in *. by eapply NoDup_lookup.
Qed.

(** The sorted azimuths of an array that is sorted already. *)
Lemma fancy_index_argsort_sorted (l s : list Qc) :
  Sorted Qcle l → fancy_index l (argsort l) = Ok s → s = l.
Proof.
  intros Hs Hf. pose proof (argsort_perm l) as Hp.
  destruct (fancy_index_perm l _ Hp) as (s' & Hf' & Hsp).
  rewrite Hf in Hf'. injection Hf' as <-.
  apply (Sorted_unique Qcle); [by eapply argsort_sorted|done..].
Qed.

Variables (w : Radar) (ns k : nat).
Hypothesis Hk : 0 < k.
Hypothesis Hk361 : k ≠ 361.
Hypothesis Hstart :
  sweep_start_ray_index w = (λ i, 0 + i * k) <$> seq 0 ns.
Hypothesis Hend :
  sweep_end_ray_index w = (λ i, k - 1 + i * k) <$> seq 0 ns.
Hypothesis Haz : length (azimuth w) = ns * k.
Hypothesis Hel : length (elevation w) = ns * k.
Hypothesis Hsorted :
  ∀ p, p < ns → Sorted Qcle (take k (drop (p * k) (azimuth w))).

Lemma get_slice_stacked (p : nat) (sl : nat * nat) :
  get_slice w p = Ok sl →
  p < ns ∧ ∀ A (l : list A), slice sl l = take k (drop (p * k) l).
Proof.
  unfold get_slice. rewrite Hstart, Hend. intros Hg.
  apply rbind_Ok in Hg as (s & Hs%or_raise_Ok & Hg).
  apply rbind_Ok in Hg as (e & He%or_raise_Ok & Hg). injection Hg as <-.
  rewrite list_lookup_fmap in Hs, He.
  destruct (seq 0 ns !! p) as [p'|] eqn:Hp; [|done].
  apply lookup_seq in Hp as [-> Hp]. simpl in *.
  injection Hs as <-. injection He as <-.
  split; [done|]. intros A l.
  destruct (slice_block p k l) as [?|?]; [done|lia].
Qed.

Lemma sorted_rays_stacked (p : nat) azi azs els idx :
  sorted_rays w p = Ok (azi, azs, els, idx) →
  p < ns ∧
  azi = take k (drop (p * k) (azimuth w)) ∧ azs = azi ∧
  (NoDup azi → idx = seq 0 k ∧ els = take k (drop (p * k) (elevation w))).
Proof.
  intros (sl & ele & Hsl & Hazi & Hele & -> & Hazs & Hels)%sorted_rays_Ok.
  apply get_slice_stacked in Hsl as [Hp Hsl].
  rewrite Hsl, delete_extra_ray_Ok in Hazi.
  rewrite Hsl, delete_extra_ray_Ok in Hele.
  rewrite decide_False in Hazi by (by rewrite (length_block ns)).
  rewrite decide_False in Hele by (by rewrite (length_block ns)).
  injection Hazi as <-. injection Hele as <-.
  split_and!; [done..| |].
  - by eapply fancy_index_argsort_sorted; [apply Hsorted|].
  - intros Hnd. rewrite argsort_sorted_id in Hels |- * by auto.
    rewrite (length_block ns) in Hels |- * by done. split; [done|].
    pose proof (fancy_index_seq (take k (drop (p * k) (elevation w))))
      as Hid.
    rewrite (length_block ns) in Hid by done. congruence.
Qed.

Lemma grid_row_stacked (p : nat) a e i :
  grid_row w k p = Ok (a, e, i) →
  p < ns ∧ a = take k (drop (p * k) (azimuth w)) ∧
  (NoDup a → e = take k (drop (p * k) (elevation w))).
Proof.
  intros (azi & azs & els & idx & Hs & Hh)%grid_row_Ok.
  apply sorted_rays_stacked in Hs as (Hp & -> & -> & Hnd).
  apply homogenize_Ok in Hh as [[Hne _]|(_ & -> & -> & _)].
  { by rewrite (length_block ns) in Hne. }
  split_and!; [done..|]. intros Hd. by apply Hnd.
Qed.

End SecondRun.

(** ** A second run: the fields *)

Lemma at2_block {A} (a : list (list A)) (k p i j : nat) :
  i < k → at2 (take k (drop (p * k) a)) i j = at2 a (p * k + i) j.
Proof.
  intros Hi. unfold at2. by rewrite lookup_take_lt, lookup_drop by done.
Qed.

Lemma take_drop_fmap_blocks {A B} (f : A → B) (k p : nat) (l : list A) :
  take k (drop (p * k) (f <$> l)) = f <$> take k (drop (p * k) l).
Proof. by rewrite <-fmap_drop, <-fmap_take. Qed.

Section SecondRunFields.
Context `{Externals}.
Variables (w : Radar) (ns k : nat).
Hypothesis Hk : 0 < k.
Hypothesis Hk361 : k ≠ 361.
Hypothesis Hstart :
  sweep_start_ray_index w = (λ i, 0 + i * k) <$> seq 0 ns.
Hypothesis Hend :
  sweep_end_ray_index w = (λ i, k - 1 + i * k) <$> seq 0 ns.
Hypothesis Haz : length (azimuth w) = ns * k.
Hypothesis Hel : length (elevation w) = ns * k.
Hypothesis Hsorted :
  ∀ p, p < ns → Sorted Qcle (take k (drop (p * k) (azimuth w))).

Lemma sweep_ray_count_stacked (p c : nat) :
  sweep_ray_count w p = Ok c → c = k.
Proof.
  unfold sweep_ray_count. intros Hc.
  apply rbind_Ok in Hc as (sl & Hsl & Hc).
  apply rbind_Ok in Hc as (azi & Hazi & Hc). injection Hc as <-.
  apply (get_slice_stacked w ns k) in Hsl as [Hp Hsl]; [|done..].
  rewrite Hsl, delete_extra_ray_Ok in Hazi.
  rewrite decide_False in Hazi by (by rewrite (length_block ns)).
  injection Hazi as <-. by apply (length_block ns).
Qed.

(** A sweep of a stacked volume whose azimuths are distinct is read back
    as it is stored. *)
Lemma resample_sweep_stacked (g : grids) (f : Field) (p : nat) az0 rr fs mr :
  az_final g !! 0 = Some az0 → length az0 = k →
  length (data f) = ns * k →
  NoDup (take k (drop (p * k) (azimuth w))) →
  resample_sweep w g f p = Ok (rr, fs, mr) →
  p < ns ∧ fs = take k (drop (p * k) (data f)).
Proof.
  intros Haz0 Hl0 Hdata Hnd Hr.
  apply resample_sweep_Ok in Hr
    as (sl & r0 & r1 & field & azi & azs & az0' & Hsl & _ & Hd & _ & Hazi
        & _ & Haz0' & Hcase).
  rewrite Haz0 in Haz0'. injection Haz0' as <-.
  apply (get_slice_stacked w ns k) in Hsl as [Hp Hsl]; [|done..].
  apply delete_extra_ray2_field in Hd as (kept & Hd & ->).
  rewrite Hsl, delete_extra_ray_Ok in Hd.
  rewrite Hsl, delete_extra_ray_Ok in Hazi.
  rewrite decide_False in Hd by (by rewrite (length_block ns)).
  rewrite decide_False in Hazi by (by rewrite (length_block ns)).
  rewrite Hsl, decide_False in Hcase by (by rewrite (length_block ns)).
  injection Hd as <-. injection Hazi as <-.
  split; [done|].
  destruct Hcase as [(_ & _ & Hfs)|[Hne _]];
    [|by rewrite (length_block ns), Hl0 in Hne].
  rewrite argsort_sorted_id in Hfs by auto.
  rewrite (length_block ns) in Hfs by done.
  pose proof (fancy_index_seq (take k (drop (p * k) (data f)))) as Hid.
  rewrite (length_block ns) in Hid by done. congruence.
Qed.

End SecondRunFields.

(** ** The span of a row of the grid *)

Section GridSpan.
Context `{Externals}.

(** The rays [main] sorts are rays of the volume. *)
Lemma sorted_rays_elem_of (radar : Radar) (sweep : nat) azi azs els idx x :
  sorted_rays radar sweep = Ok (azi, azs, els, idx) →
  x ∈ azs → x ∈ azimuth radar.
Proof.
  intros Hs Hx.
  destruct (sorted_rays_facts _ _ _ _ _ _ Hs) as (_ & Hperm & _).
  apply sorted_rays_Ok in Hs as (sl & ele & _ & Hazi & _).
  rewrite delete_extra_ray_Ok in Hazi. injection Hazi as <-.
  rewrite Hperm in Hx. case_decide; [|by eapply elem_of_slice].
  eapply elem_of_slice, subseteq_take. done.
Qed.

(** Every azimuth of a sweep's row of the grid lies between two azimuths
    of the volume. *)
Lemma grid_row_span (radar : Radar) (n sweep : nat) a e i (x : Qc) :
  grid_row radar n sweep = Ok (a, e, i) → x ∈ a →
  ∃ lo hi, lo ∈ azimuth radar ∧ hi ∈ azimuth radar ∧
           (lo ≤ x)%Qc ∧ (x ≤ hi)%Qc.
Proof.
  intros (azi & azs & els & idx & Hs & Hh)%grid_row_Ok Hx.
  destruct (sorted_rays_facts _ _ _ _ _ _ Hs) as (Hsorted & _).
  apply homogenize_Ok in Hh
    as [(_ & lo & hi & Hlo & Hhi & -> & _)|(_ & -> & _)].
  - destruct (linspace_span lo hi x n) as [Hl Hh];
      [by eapply Sorted_head_last|done|].
    exists lo, hi. split_and!; [| |done..].
    + eapply sorted_rays_elem_of; [done|]. by eapply list_elem_of_lookup_2.
    + eapply sorted_rays_elem_of; [done|].
      apply last_Some in Hhi as [l' ->]. apply elem_of_app. right. by left.
  - exists x, x. split_and!; [by eapply sorted_rays_elem_of..|done|done].
Qed.

(** A type that can hold every azimuth of the volume can hold the grid. *)
Lemma grid_row_representable (t : dtype) (radar : Radar) (n sweep : nat)
    a e i :
  Forall (representable t) (azimuth radar) →
  grid_row radar n sweep = Ok (a, e, i) →
  Forall (representable t) a.
Proof.
  rewrite !Forall_forall. intros Hall Hrow x Hx.
  destruct (grid_row_span _ _ _ _ _ _ _ Hrow Hx)
    as (lo & hi & Hlo & Hhi & Hl & Hh).
  apply (representable_between t lo hi); auto.
Qed.

End GridSpan.

(** ** The volume a run returns *)

Lemma fmap_astype_idemp `{Externals} (t : dtype) (l : list Qc) :
  astype t <$> (astype t <$> l) = astype t <$> l.
Proof.
  rewrite <-list_fmap_compose. apply list_fmap_ext. intros _ x _.
  apply astype_idemp.
Qed.

Section Stacked.
Context `{Externals}.

(** The volume a run returns is consistent again and laid out sweep after
    sweep, [k] rays each. *)
Lemma main_output_stacked (v v1 : Radar) :
  consistent v →
  main v = Returned v1 →
  ∃ s0 k t,
    let ns := length (sweep_number v) in
    head (sweep_number v) = Some s0 ∧
    sweep_ray_count v s0 = Ok k ∧
    0 < k ∧ k ≠ 361 ∧
    sweep_number v1 = sweep_number v ∧ range v1 = range v ∧
    nrays v1 = ns * k ∧
    sweep_start_ray_index v1 = (λ i, 0 + i * k) <$> seq 0 ns ∧
    sweep_end_ray_index v1 = (λ i, k - 1 + i * k) <$> seq 0 ns ∧
    length (azimuth v1) = ns * k ∧ length (elevation v1) = ns * k ∧
    (Forall (representable t) (azimuth v) →
     ∀ p, p < ns → Sorted Qcle (take k (drop (p * k) (azimuth v1)))) ∧
    astype t <$> azimuth v1 = azimuth v1 ∧
    astype t <$> elevation v1 = elevation v1 ∧
    (∃ kvl, last (fields v) = Some kvl ∧ dtype_of kvl.2 = t) ∧
    (∀ kvl, last (fields v1) = Some kvl → dtype_of kvl.2 = t) ∧
    Forall (λ kv', shape (data kv'.2) = replicate (ns * k) (length (range v)) ∧
                   Forall (Forall (λ g, astype (dtype_of kv'.2) (gval g)
                                        = gval g)) (data kv'.2))
      (fields v1) ∧
    consistent v1.
Proof.
  intros Hc Hm. pose proof Hc as [Hnd Hkeys _ _].
  destruct (main_Returned_summary _ _ Hc Hm)
    as (s0 & g & t & kvl & rows & Hhead & Hg & Hcount & Hrows & Haz & Hel
        & Hlast & Ht & Hk & Hk361 & HS & Hna & Hne & Hazrows & Helrows & Hv1
        & Hnames & Hdata).
  set (k := length (azimuth_final g)) in *.
  set (ns := length (sweep_number v)) in *.
  assert (length (concat (az_final g)) = ns * k) as Hlaz.
  { rewrite (length_concat_uniform k), Hna; [done|].
    eapply Forall_impl; [exact Hazrows|]. by intros ? [? _]. }
  assert (length (concat (ele_final g)) = ns * k) as Hlel.
  { by rewrite (length_concat_uniform k), Hne. }
  exists s0, k, t. cbn zeta. rewrite Hv1. cbn [sweep_number range nrays
    sweep_start_ray_index sweep_end_ray_index azimuth elevation fields].
  rewrite !length_fmap, !fmap_astype_idemp.
  split_and!; try done.
  - intros Hrep p Hp. rewrite take_drop_fmap_blocks.
    destruct (lookup_lt_is_Some_2 (az_final g) p) as [row Hrow]; [lia|].
    rewrite (take_drop_concat_uniform k p _ row); [|..|done].
    + rewrite Forall_lookup in Hazrows.
      destruct (Hazrows _ _ Hrow) as [_ Hsorted].
      apply (Sorted_cast t); [|done].
      rewrite Haz, !list_lookup_fmap in Hrow.
      destruct (rows !! p) as [[[a e] i]|] eqn:Hrowp; [|done].
      injection Hrow as <-.
      destruct (Forall2_lookup_r _ _ _ _ _ Hrows Hrowp) as (s & _ & Hgrid).
      by eapply grid_row_representable.
    + eapply Forall_impl; [exact Hazrows|]. by intros ? [? _].
  - by exists kvl.
  - intros kvl1 Hlast1.
    pose proof (Forall2_last _ _ _ Hnames) as Hl.
    rewrite Hlast, Hlast1 in Hl. inversion Hl as [?? [_ Hd]|]; subst.
    done.
  - split; cbn [sweep_number fields elevation azimuth range].
    + done.
    + replace (fields v1).*1 with (fields v).*1; [done|].
      symmetry. apply Forall2_fmap_eq.
      eapply Forall2_impl; [exact Hnames|]. by intros ?? [? _].
    + by rewrite !length_fmap, Hlaz, Hlel.
    + rewrite length_fmap, Hlaz.
      eapply Forall_impl; [exact Hdata|]. by intros ? [? _].
Qed.

End Stacked.

(** * The properties of the specification *)

(** ** C8: a volume without sweeps *)

Section Claims.
Context `{Externals}.

(** C8. On a volume with zero sweeps [main] raises at its first statement
    (the minimum of an empty array), and the radar object it leaves is the
    one it was given: no field, azimuth, elevation or index array has been
    stored into. *)
Theorem main_no_sweep_fails_fast (radar : Radar) :
  sweep_number radar = [] → main radar = Raised ValueError radar.
Proof. intros Hn. unfold main. by rewrite Hn. Qed.

(** ** C9: a volume with a single sweep *)

(** C9. [main] never returns on a volume with exactly one sweep: when
    everything before succeeds, the start table computed at line 141 has
    one entry and line 142 reads its second one.  Hence a run that returns
    had at least two sweeps. *)
Theorem main_needs_two_sweeps (radar : Radar) :
  (length (sweep_number radar) = 1 → ∃ e r', main radar = Raised e r') ∧
  (∀ r', main radar = Returned r' → 2 ≤ length (sweep_number radar)).
Proof.
  assert (length (sweep_number radar) = 1 →
          ∃ e r', main radar = Raised e r') as Hone.
  { intros Hlen. destruct (main radar) as [r'|e r'] eqn:Hm; [|eauto].
    exfalso.
    apply main_Returned in Hm as (smin & g & rf & ft & _ & Hg & _ & Hf).
    destruct (sweep_number radar) as [|s [|]] eqn:Hsn; try done.
    apply build_grids_Ok in Hg
      as (rest & azs & els & idx & rows & _ & _ & Hrows & Haz & _);
      [|rewrite Hsn; apply NoDup_singleton].
    rewrite Hsn in Hrows. apply Forall2_length in Hrows.
    destruct rows as [|row [|]]; try done.
    destruct (finish_single_row g ft rf row.1.1 Haz) as (e & r0 & He).
    congruence. }
  split; [done|].
  intros r' Hm. destruct (sweep_number radar) as [|s [|]] eqn:Hsn.
  - unfold main in Hm. by rewrite Hsn in Hm.
  - destruct Hone as (e & r0 & He); [done|congruence].
  - simpl. lia.
Qed.

(** ** C6: ray count and index tables *)

(** C6. After a run that returns, with [k] the ray count of the lowest
    sweep after de-duplication and [S] the number of sweeps, the volume has
    [S * k] rays, the start indices are [0, k, 2k, ...] and the end indices
    [k-1, 2k-1, ...]; for three sweeps of 360 rays these are
    [0, 360, 720] and [359, 719, 1079]. *)
Theorem ray_index_tables (radar r' : Radar) :
  NoDup (sweep_number radar) →
  main radar = Returned r' →
  ∃ s0 k,
    let S := length (sweep_number radar) in
    head (sweep_number radar) = Some s0 ∧
    sweep_ray_count radar s0 = Ok k ∧
    nrays r' = S * k ∧
    length (azimuth r') = S * k ∧
    sweep_start_ray_index r' = (λ i, i * k) <$> seq 0 S ∧
    sweep_end_ray_index r' = (λ i, i * k + k - 1) <$> seq 0 S ∧
    (S = 3 → k = 360 →
     sweep_start_ray_index r' = [0; 360; 720] ∧
     sweep_end_ray_index r' = [359; 719; 1079]).
Proof.
  intros Hnd Hm.
  apply main_Returned_shape in Hm
    as (s0 & rest & g & rows & t & rf & Hsn & _ & Hk & Hrows & Haz & _ & _
        & HS & Hkpos & ->); [|done].
  set (k := length (azimuth_final g)) in *.
  exists s0, k. cbn zeta. cbn [nrays azimuth sweep_start_ray_index
    sweep_end_ray_index].
  assert (length (astype t <$> concat (az_final g))
          = length (sweep_number radar) * k) as Hlen.
  { rewrite length_fmap, (length_concat_uniform k).
    - rewrite Haz, !length_fmap. f_equal. symmetry. by eapply Forall2_length.
    - rewrite Haz. apply Forall_fmap, Forall_fmap.
      eapply Forall2_Forall_r; [exact Hrows|].
      apply Forall_forall. intros s _ [[a e] i] Hrow. simpl.
      by apply grid_row_facts in Hrow as (? & _). }
  assert ((λ i, k - 1 + i * k) <$> seq 0 (length (sweep_number radar))
          = (λ i, i * k + k - 1) <$> seq 0 (length (sweep_number radar)))
    as Hends.
  { apply list_fmap_ext. intros _ i _. lia. }
  split_and!; try done.
  - by rewrite Hsn.
  - intros HS3 Hk360. rewrite Hends, HS3, Hk360. done.
Qed.

(** ** C10: the precision of the ray angles *)


(** ** C3: the grid of one sweep *)


(** ** C2: the homogenised volume *)

(** C2, as the code has it.  After a run that returns on a consistent
    volume, with [k] the ray count of the lowest sweep after
    de-duplication, [S] the number of sweeps and [G] the number of range
    gates: the volume has [S] blocks of [k] azimuths, and every field's
    array is two-dimensional, of shape [(S * k, G)], the sweeps stacked
    along the ray axis.  The [p]-th block of azimuths is non-decreasing
    when the precision of the last field, to which line 136 casts the
    azimuths, can hold every azimuth of the input (a floating precision
    always can). *)
Theorem homogeneous_after_main (radar r' : Radar) :
  consistent radar →
  main radar = Returned r' →
  ∃ s0 k kvl,
    let S := length (sweep_number radar) in
    let G := length (range radar) in
    head (sweep_number radar) = Some s0 ∧
    sweep_ray_count radar s0 = Ok k ∧
    last (fields radar) = Some kvl ∧
    length (azimuth r') = S * k ∧
    (∀ p, p < S → length (take k (drop (p * k) (azimuth r'))) = k) ∧
    (Forall (representable (dtype_of kvl.2)) (azimuth radar) →
     ∀ p, p < S → Sorted Qcle (take k (drop (p * k) (azimuth r')))) ∧
    Forall (λ kv, shape (data kv.2) = replicate (S * k) G ∧
                  np_shape (data kv.2) = [S * k; G]) (fields r').
Proof.
  intros Hc Hm.
  destruct (main_output_stacked _ _ Hc Hm)
    as (s0 & k & t & Hhead & Hcount & Hk & _ & _ & _ & _ & _ & _ & Hlaz & _
        & Hsorted & _ & _ & (kvl & Hlast & <-) & _ & Hdata & _).
  exists s0, k, kvl. cbn zeta. split_and!; try done.
  - intros p Hp. by eapply length_block.
  - eapply Forall_impl; [exact Hdata|]. intros kv [Hshape _].
    split; [done|]. unfold np_shape.
    apply shape_replicate_rows in Hshape as [Hlen Hcols].
    f_equal; [done|]. f_equal.
    destruct (data kv.2) as [|row d].
    + destruct (sweep_number radar); [done|]. simpl in Hlen. lia.
    + simpl. by apply Forall_cons in Hcols as [? _].
Qed.

(** ** C4: the unambiguous-range mask *)


(** ** C5: the two minimum masks *)

(** C5. A gate that holds the least value of its sweep's resampled array
    [fs] is masked in the stacked array and in the array [main] stores; a
    gate that holds the least value of the whole stacked array [st] is
    masked in the array [main] stores.  Both hold whatever the gate is, a
    fill value or a measurement.  The value each pass compares against is
    the [min()] of the masked array at hand ([m_sweep], [m_vol]: the least
    value not yet masked), and a gate equal to it is masked as well. *)
Theorem minimum_gates_masked (radar r' : Radar) (q p sweep : nat)
    (kv kv' : string * Field) :
  consistent radar →
  main radar = Returned r' →
  fields radar !! q = Some kv → fields r' !! q = Some kv' →
  sweep_number radar !! p = Some sweep →
  ∃ sweep_min g rr fs mr rm st m_sweep m_vol,
    let k := length (azimuth_final g) in
    let t := dtype_of kv.2 in
    build_grids radar sweep_min = Ok g ∧
    sweep_ray_count radar sweep_min = Ok k ∧
    resample_sweep radar g kv.2 sweep = Ok (rr, fs, mr) ∧
    range_masked radar g kv.2 sweep = Ok rm ∧
    ma_min rm = Ok m_sweep ∧ least_unmasked (concat rm) m_sweep ∧
    stacked_field radar g sweep_min kv.2 = Ok st ∧
    ma_min st = Ok m_vol ∧ least_unmasked (concat st) m_vol ∧
    ∀ i j g0,
      at2 fs i j = Some g0 →
      ∃ gst gout,
        at2 st (p * k + i) j = Some gst ∧
        at2 (data kv'.2) (p * k + i) j = Some gout ∧
        gval gst = astype t (gval g0) ∧ gval gout = gval gst ∧
        ((∀ g', g' ∈ concat fs → (gval g0 ≤ gval g')%Qc) →
         gmask gst = true ∧ gmask gout = true) ∧
        (hits (gval g0) m_sweep = true →
         gmask gst = true ∧ gmask gout = true) ∧
        ((∀ g', g' ∈ concat st → (gval gst ≤ gval g')%Qc) →
         gmask gout = true) ∧
        (hits (gval gst) m_vol = true → gmask gout = true).
Proof.
  intros Hc Hm Hkv Hkv' Hp.
  destruct (final_gate _ _ _ _ _ _ _ Hc Hm Hkv Hkv' Hp)
    as (smin & g & rr & fs & mr & rm & st & m_sweep & m_vol & _ & Hg & Hk
        & Hr & Hshape & Hrange & Hrmeq & Hms & Hst & Hmv & _ & Hgate).
  pose proof (ma_min_Ok _ _ Hms) as [_ Hls].
  pose proof (ma_min_Ok _ _ Hmv) as [_ Hlv].
  exists smin, g, rr, fs, mr, rm, st, m_sweep, m_vol. cbn zeta.
  split_and!; try done.
  intros i j g0 Hg0.
  destruct (at2_same_shape fs rr i j) as [x Hx]; [done|by rewrite Hg0|].
  destruct (Hgate i j g0 x Hg0 Hx) as (Hrmij & Hstij & Hout).
  eexists _, _. split; [exact Hstij|]. split; [exact Hout|].
  cbn [gval gmask]. split_and!; [done..| | | |].
  - intros Hleast.
    assert (hits (gval g0) m_sweep || (Qc_leb mr x || gmask g0) = true)
      as Hmask.
    { apply (least_value_masked _ _ (mask_gate (Qc_leb mr x) g0) Hls).
      - by eapply at2_elem_of.
      - intros g' Hg'. rewrite Hrmeq in Hg'.
        apply elem_of_concat_zip_with2 in Hg' as (b & y & Hy & ->).
        simpl. by apply Hleast. }
    rewrite Hmask. by rewrite orb_true_r.
  - intros ->. by rewrite orb_true_r.
  - intros Hleast.
    apply (least_value_masked _ _ _ Hlv (at2_elem_of _ _ _ _ Hstij) Hleast).
  - by intros ->.
Qed.

(** ** C1: running [main] twice *)

(** C1, as the code has it.  Let [v1] be what a run returns on a consistent
    volume whose sweeps are numbered [0, 1, ...] and whose azimuths the
    precision of the last field can hold (so that the cast of line 136
    keeps them in order), and [v2] what a second run returns on [v1].  The
    azimuths, the ray count and the index tables of [v2] are those of
    [v1].  When no sweep of [v1] has the same azimuth twice (so that the
    order of its rays does not depend on the sorting algorithm), the
    elevations and every field value of [v2] are those of [v1] too, and
    every gate masked in [v1] is masked in [v2].  The masks need not be
    equal: each pass of lines 122 and 133 masks the least value the run
    before left unmasked. *)
Theorem second_run_keeps_values (v v1 v2 : Radar) (kvl : string * Field) :
  consistent v →
  sweep_number v = seq 0 (length (sweep_number v)) →
  last (fields v) = Some kvl →
  Forall (representable (dtype_of kvl.2)) (azimuth v) →
  main v = Returned v1 →
  main v1 = Returned v2 →
  ∃ s0 k,
    let ns := length (sweep_number v) in
    head (sweep_number v) = Some s0 ∧
    sweep_ray_count v s0 = Ok k ∧
    azimuth v2 = azimuth v1 ∧
    nrays v2 = nrays v1 ∧
    sweep_start_ray_index v2 = sweep_start_ray_index v1 ∧
    sweep_end_ray_index v2 = sweep_end_ray_index v1 ∧
    ((∀ p, p < ns → NoDup (take k (drop (p * k) (azimuth v1)))) →
     elevation v2 = elevation v1 ∧
     Forall2 (λ kv1 kv2,
         kv2.1 = kv1.1 ∧ dtype_of kv2.2 = dtype_of kv1.2 ∧
         shape (data kv2.2) = shape (data kv1.2) ∧
         ∀ n j g1,
           at2 (data kv1.2) n j = Some g1 →
           ∃ g2, at2 (data kv2.2) n j = Some g2 ∧
                 gval g2 = gval g1 ∧
                 (gmask g1 = true → gmask g2 = true))
       (fields v1) (fields v2)).
Proof.
  intros Hc Hseq Hlast Hrep Hm1 Hm2.
  destruct (main_output_stacked _ _ Hc Hm1)
    as (s0 & k & t & Hhead & Hcount & Hk & Hk361 & Hsn1 & Hrange1 & Hnrays1
        & Hstart1 & Hend1 & Hlaz1 & Hlel1 & Hsorted1 & Hcaz & Hcel
        & (kvl' & Hlast' & Hkvl) & Hlastty & Hdata1 & Hc1).
  rewrite Hlast in Hlast'. injection Hlast' as <-. rewrite Hkvl in Hrep.
  specialize (Hsorted1 Hrep).
  set (ns := length (sweep_number v)) in *.
  destruct (main_Returned_summary _ _ Hc1 Hm2)
    as (s0' & g2 & t2 & kvl2 & rows2 & Hhead2 & Hg2 & Hcount2 & Hrows2
        & Haz2 & Hel2 & Hlast2 & Ht2 & _ & _ & _ & Hna2 & _ & Hazrows2 & _
        & Hv2 & Hnames2 & Hdata2).
  assert (length (azimuth_final g2) = k) as Hk2.
  { by eapply (sweep_ray_count_stacked v1 ns k). }
  rewrite Hk2 in *. rewrite Hsn1 in *. fold ns in Hv2, Hna2, Hdata2.
  assert (t2 = t) as -> by (subst t2; by apply Hlastty).
  rewrite Hseq in Hrows2.
  assert (az_final g2
          = (λ p, take k (drop (p * k) (azimuth v1))) <$> seq 0 ns) as Hazf.
  { rewrite Haz2, <-list_fmap_compose. apply Forall2_fmap_eq.
    eapply Forall2_impl; [exact Hrows2|]. intros p [[a e] i] Hrow. simpl.
    by eapply (grid_row_stacked v1 ns k) in Hrow as (_ & ? & _). }
  exists s0, k. cbn zeta. split_and!; [done..| | | | |].
  - rewrite Hv2. cbn [azimuth]. by rewrite Hazf, concat_blocks.
  - rewrite Hv2. cbn [nrays]. by rewrite Hnrays1.
  - rewrite Hv2. cbn [sweep_start_ray_index]. by rewrite Hstart1.
  - rewrite Hv2. cbn [sweep_end_ray_index]. by rewrite Hend1.
  - intros Hdistinct. split.
    + assert (ele_final g2
              = (λ p, take k (drop (p * k) (elevation v1))) <$> seq 0 ns)
        as Helf.
      { rewrite Hel2, <-list_fmap_compose. apply Forall2_fmap_eq.
        eapply Forall2_impl; [exact Hrows2|]. intros p [[a e] i] Hrow. simpl.
        eapply (grid_row_stacked v1 ns k) in Hrow as (Hp & -> & He);
          [|done..].
        apply He. by apply Hdistinct. }
      rewrite Hv2. cbn [elevation]. by rewrite Helf, concat_blocks.
    + apply Forall2_same_length_lookup. split.
      { by eapply Forall2_length. }
      intros q kv1 kv2 Hkv1 Hkv2.
      destruct (Forall2_lookup_lr _ _ _ _ _ _ Hnames2 Hkv1 Hkv2)
        as [Hname Hdtype].
      rewrite Forall_lookup in Hdata1, Hdata2.
      destruct (Hdata1 _ _ Hkv1) as [Hshape1 Hcast1].
      destruct (Hdata2 _ _ Hkv2) as [Hshape2 _].
      split_and!; [done..| |].
      { by rewrite Hshape1, Hshape2, Hrange1. }
      intros n j g1 Hg1.
      assert (n < ns * k) as Hn.
      { eapply at2_row_bound; [exact Hshape1|by rewrite Hg1]. }
      set (p := n / k). set (i := n mod k).
      assert (n = p * k + i) as Hnpi.
      { subst p i. pose proof (Nat.div_mod n k ltac:(lia)). lia. }
      assert (i < k) as Hi by (subst i; apply Nat.mod_upper_bound; lia).
      assert (p < ns) as Hp by nia.
      assert (sweep_number v1 !! p = Some p) as Hsp.
      { by rewrite Hsn1, Hseq, lookup_seq_lt. }
      destruct (final_gate _ _ _ _ _ _ _ Hc1 Hm2 Hkv1 Hkv2 Hsp)
        as (smin & g & rr & fs & mr & rm & st & m_sweep & m_vol & Hhead'
            & Hg & Hcnt & Hr & Hshape & _ & _ & _ & _ & _ & _ & Hgate).
      rewrite Hsn1 in Hhead'.
      rewrite Hhead2 in Hhead'. injection Hhead' as <-.
      rewrite Hg2 in Hg. injection Hg as <-. rewrite Hk2 in Hgate.
      destruct (lookup_lt_is_Some_2 (az_final g2) 0) as [az0 Haz0]; [lia|].
      assert (length az0 = k) as Hl0.
      { rewrite Forall_lookup in Hazrows2.
        by destruct (Hazrows2 _ _ Haz0) as [? _]. }
      destruct (resample_sweep_stacked v1 ns k Hk Hk361 Hstart1 Hend1 Hlaz1
                  Hlel1 Hsorted1 g2 kv1.2 p az0 rr fs mr Haz0 Hl0)
        as [_ Hfs]; [|by apply Hdistinct|done|].
      { by apply shape_replicate_rows in Hshape1 as [? _]. }
      assert (at2 fs i j = Some g1) as Hfsij.
      { by rewrite Hfs, at2_block, <-Hnpi. }
      destruct (at2_same_shape fs rr i j) as [x Hx];
        [done|by rewrite Hfsij|].
      destruct (Hgate i j g1 x Hfsij Hx) as (_ & _ & Hout).
      rewrite <-Hnpi in Hout.
      eexists. split; [exact Hout|]. cbn [gval gmask]. split.
      * apply at2_Some_rows in Hg1 as (row & Hrow & Hg1).
        rewrite Forall_lookup in Hcast1. specialize (Hcast1 _ _ Hrow).
        rewrite Forall_lookup in Hcast1. by apply (Hcast1 _ _ Hg1).
      * intros ->. by rewrite !orb_true_r.
Qed.

End Claims.

(** Membership of a concrete array in the numbers a type can hold. *)
Ltac solve_representable :=
  repeat (constructor; [by (split; vm_compute)|]); constructor.

Lemma two_sweep_volume_consistent : consistent Examples.two_sweep_volume.
Proof. split; [compute_done|compute_done|done|by repeat constructor]. Qed.

Lemma uneven_volume_consistent : consistent Examples.uneven_volume.
Proof. split; [compute_done|compute_done|done|by repeat constructor]. Qed.

Lemma half_degree_volume_consistent : consistent Examples.half_degree_volume.
Proof. split; [compute_done|compute_done|done|by repeat constructor]. Qed.

Lemma masked_circle_volume_consistent :
  consistent Examples.masked_circle_volume.
Proof.
  split; [compute_done|compute_done|by vm_compute|].
  constructor; [by vm_compute|constructor].
Qed.

Lemma ray_index_tables_witness :
  ∃ r', main Examples.three_sweep_volume = Returned r' ∧
  ∃ s0 k,
    head (sweep_number Examples.three_sweep_volume) = Some s0 ∧
    sweep_ray_count Examples.three_sweep_volume s0 = Ok k ∧
    nrays r' = 3 * k ∧
    length (azimuth r') = 3 * k ∧
    sweep_start_ray_index r' = (λ i, i * k) <$> seq 0 3 ∧
    sweep_end_ray_index r' = (λ i, i * k + k - 1) <$> seq 0 3 ∧
    (3 = 3 → k = 360 →
     sweep_start_ray_index r' = [0; 360; 720] ∧
     sweep_end_ray_index r' = [359; 719; 1079]).
Proof.
  eexists. split; [vm_compute; reflexivity|].
  apply (ray_index_tables Examples.three_sweep_volume);
    [compute_done|vm_compute; reflexivity].
Defined.


(** On [half_degree_volume] the field is stored as 32-bit integers, and
    the azimuths 0.5 and 1.5 and the elevations 0.25 and 1.25 come back as
    0 and 1. *)
Example half_degrees_truncated :
  ∃ r', main Examples.half_degree_volume = Returned r' ∧
        this <$> azimuth r' = [0; 1; 0; 1]%Q ∧
        this <$> elevation r' = [0; 0; 1; 1]%Q.
Proof.
  eexists. split; [vm_compute; reflexivity|]. split; reflexivity.
Qed.


(** C7.  [masked_circle_volume] is a consistent volume whose lowest sweep
    has 361 rays.  [main] drops the last ray of that sweep and keeps the
    value of every other gate, moved to the row of its azimuth: ray 5
    (azimuth 354) becomes row 354.  Its gate 1, masked on input, comes
    back unmasked, because [np.delete] returns the rows of the field
    without their mask; the same gate of the second sweep, which has 360
    rays and is not shortened, comes back masked. *)
Theorem extra_ray_mask_lost :
  ∃ sl r' f',
    consistent Examples.masked_circle_volume ∧
    get_slice Examples.masked_circle_volume 0 = Ok sl ∧
    length (slice sl (azimuth Examples.masked_circle_volume)) = 361 ∧
    length (slice sl (data Examples.masked_circle_dbz)) = 361 ∧
    slice sl (azimuth Examples.masked_circle_volume) !! 5
    = Some (Qc_of_nat 354) ∧
    at2 (slice sl (data Examples.masked_circle_dbz)) 5 1
    = Some (Gate (Examples.z 6) true) ∧
    azimuth Examples.masked_circle_volume !! 366 = Some (Qc_of_nat 354) ∧
    at2 (data Examples.masked_circle_dbz) 366 1
    = Some (Gate (Examples.z 367) true) ∧
    main Examples.masked_circle_volume = Returned r' ∧
    fields r' = [("dbz"%string, f')] ∧
    sweep_start_ray_index r' = [0; 360; 720] ∧
    sweep_end_ray_index r' = [359; 719; 1079] ∧
    azimuth r' !! 354 = Some (Qc_of_nat 354) ∧
    at2 (data f') 354 1 = Some (Gate (Examples.z 6) false) ∧
    azimuth r' !! (360 + 354) = Some (Qc_of_nat 354) ∧
    at2 (data f') (360 + 354) 1 = Some (Gate (Examples.z 367) true).
Proof.
  eexists _, _, _.
  split; [apply masked_circle_volume_consistent|].
  split; [reflexivity|].
  split; [by vm_compute|]. split; [by vm_compute|].
  split; [by vm_compute|]. split; [by vm_compute|].
  split; [by vm_compute|]. split; [by vm_compute|].
  split; [vm_compute; reflexivity|].
  split; [reflexivity|].
  split_and!; by vm_compute.
Qed.


(** On [uneven_volume] the second sweep has two rays at azimuths 0 and 3:
    its row becomes 0, 1, 2, 3 and its elevations 1, 2 are repeated. *)
Example uneven_volume_rows :
  ∃ r', main Examples.uneven_volume = Returned r' ∧
        this <$> azimuth r' = [0; 1; 2; 3; 0; 1; 2; 3]%Q ∧
        this <$> elevation r' = [0; 0; 0; 0; 1; 2; 1; 2]%Q.
Proof.
  eexists. split; [vm_compute; reflexivity|]. split; reflexivity.
Qed.

Lemma homogeneous_after_main_witness :
  ∃ r',
    main Examples.uneven_volume = Returned r' ∧
    Forall (representable (dtype_of Examples.uneven_dbz))
      (azimuth Examples.uneven_volume) ∧
    length (azimuth r') = 2 * 4 ∧
    (∀ p, p < 2 →
       length (take 4 (drop (p * 4) (azimuth r'))) = 4 ∧
       Sorted Qcle (take 4 (drop (p * 4) (azimuth r')))) ∧
    Forall (λ kv, shape (data kv.2) = replicate (2 * 4) 3 ∧
                  np_shape (data kv.2) = [2 * 4; 3]) (fields r').
Proof.
  assert (Forall (representable (dtype_of Examples.uneven_dbz))
            (azimuth Examples.uneven_volume)) as Hrep
    by solve_representable.
  destruct (main Examples.uneven_volume) as [r'|e r'] eqn:Hm;
    [|by vm_compute in Hm].
  destruct (homogeneous_after_main _ _ uneven_volume_consistent Hm)
    as (s0 & k & kvl & Hhead & Hcount & Hlast & Hlen & Hblocks & Hsorted
        & Hshapes).
  injection Hhead as <-. injection Hlast as <-.
  vm_compute in Hcount. injection Hcount as <-.
  exists r'. split_and!; [done..| |done].
  intros p Hp. split; [by apply Hblocks|by apply Hsorted].
Defined.

(** The array [main] stores for a field has two axes, rays and gates: on
    [two_sweep_volume] (two sweeps, two rays, three gates) its shape is
    [(4, 3)], not [(2, 2, 3)]. *)
Lemma field_array_is_two_dimensional :
  ∃ r' f, main Examples.two_sweep_volume = Returned r' ∧
          fields r' = [("dbz"%string, f)] ∧
          np_shape (data f) = [4; 3] ∧
          np_shape (data f) ≠ [2; 2; 3].
Proof.
  eexists _, _. split; [vm_compute; reflexivity|].
  split; [reflexivity|]. split; [reflexivity|]. discriminate.
Qed.

(** Without the condition on the precision the azimuths of a sweep can
    come back out of order: on [narrow_volume] the 8-bit field type cannot
    hold the azimuth 300.5, and the sorted azimuths 100.5, 300.5 of each
    sweep are stored as 100, 44. *)
Example narrow_azimuths_out_of_order :
  ∃ r', main Examples.narrow_volume = Returned r' ∧
        this <$> azimuth r' = [100; 44; 100; 44]%Q ∧
        ¬ Sorted Qcle (take 2 (azimuth r')) ∧
        ¬ Forall (representable (IntType true W8))
            (azimuth Examples.narrow_volume).
Proof.
  eexists. split; [vm_compute; reflexivity|]. split; [reflexivity|]. split.
  - intros Hs. apply Sorted_inv in Hs as [_ Hhd].
    apply HdRel_inv in Hhd. by vm_compute in Hhd.
  - intros Hall. apply Forall_cons in Hall as [_ Hall].
    apply Forall_cons in Hall as [[_ Hhi] _]. by vm_compute in Hhi.
Qed.


(** On the lowest sweep of [uneven_volume] the unambiguous range is 2, the
    distance of the last gate: in the ray stored first the gate at range 2
    is masked and the gate at range 1 is not. *)
Example range_bound_is_inclusive :
  ∃ r' f g rr fs mr,
    main Examples.uneven_volume = Returned r' ∧
    fields r' = [("dbz"%string, f)] ∧
    build_grids Examples.uneven_volume 0 = Ok g ∧
    resample_sweep Examples.uneven_volume g Examples.uneven_dbz 0
    = Ok (rr, fs, mr) ∧
    mr = Examples.z 2 ∧
    at2 rr 0 2 = Some (Examples.z 2) ∧ gmask <$> at2 (data f) 0 2 = Some true ∧
    at2 rr 0 1 = Some (Examples.z 1) ∧ gmask <$> at2 (data f) 0 1 = Some false.
Proof.
  eexists _, _, _, _, _, _.
  split; [vm_compute; reflexivity|]. split; [reflexivity|].
  split; [vm_compute; reflexivity|]. split; [vm_compute; reflexivity|].
  split_and!; reflexivity.
Qed.


Lemma minimum_gates_masked_witness :
  ∃ r' kv',
    main Examples.uneven_volume = Returned r' ∧ fields r' !! 0 = Some kv' ∧
  ∃ sweep_min g rr fs mr rm st m_sweep m_vol,
    let k := length (azimuth_final g) in
    let t := dtype_of Examples.uneven_dbz in
    build_grids Examples.uneven_volume sweep_min = Ok g ∧
    sweep_ray_count Examples.uneven_volume sweep_min = Ok k ∧
    resample_sweep Examples.uneven_volume g Examples.uneven_dbz 1
    = Ok (rr, fs, mr) ∧
    range_masked Examples.uneven_volume g Examples.uneven_dbz 1 = Ok rm ∧
    ma_min rm = Ok m_sweep ∧ least_unmasked (concat rm) m_sweep ∧
    stacked_field Examples.uneven_volume g sweep_min Examples.uneven_dbz
    = Ok st ∧
    ma_min st = Ok m_vol ∧ least_unmasked (concat st) m_vol ∧
    ∀ i j g0,
      at2 fs i j = Some g0 →
      ∃ gst gout,
        at2 st (1 * k + i) j = Some gst ∧
        at2 (data kv'.2) (1 * k + i) j = Some gout ∧
        gval gst = astype t (gval g0) ∧ gval gout = gval gst ∧
        ((∀ g', g' ∈ concat fs → (gval g0 ≤ gval g')%Qc) →
         gmask gst = true ∧ gmask gout = true) ∧
        (hits (gval g0) m_sweep = true →
         gmask gst = true ∧ gmask gout = true) ∧
        ((∀ g', g' ∈ concat st → (gval gst ≤ gval g')%Qc) →
         gmask gout = true) ∧
        (hits (gval gst) m_vol = true → gmask gout = true).
Proof.
  eexists _, _. split; [vm_compute; reflexivity|]. split; [reflexivity|].
  eapply (minimum_gates_masked Examples.uneven_volume _ 0 1 1
            ("dbz"%string, Examples.uneven_dbz));
    [apply uneven_volume_consistent|vm_compute; reflexivity
    |reflexivity|reflexivity|reflexivity].
Defined.

Lemma second_run_keeps_values_witness :
  ∃ v1 v2 kvl,
    main Examples.half_degree_volume = Returned v1 ∧
    main v1 = Returned v2 ∧
    last (fields Examples.half_degree_volume) = Some kvl ∧
    Forall (representable (dtype_of kvl.2))
      (azimuth Examples.half_degree_volume) ∧
  ∃ s0 k,
    let ns := length (sweep_number Examples.half_degree_volume) in
    head (sweep_number Examples.half_degree_volume) = Some s0 ∧
    sweep_ray_count Examples.half_degree_volume s0 = Ok k ∧
    azimuth v2 = azimuth v1 ∧
    nrays v2 = nrays v1 ∧
    sweep_start_ray_index v2 = sweep_start_ray_index v1 ∧
    sweep_end_ray_index v2 = sweep_end_ray_index v1 ∧
    ((∀ p, p < ns → NoDup (take k (drop (p * k) (azimuth v1)))) →
     elevation v2 = elevation v1 ∧
     Forall2 (λ kv1 kv2,
         kv2.1 = kv1.1 ∧ dtype_of kv2.2 = dtype_of kv1.2 ∧
         shape (data kv2.2) = shape (data kv1.2) ∧
         ∀ n j g1,
           at2 (data kv1.2) n j = Some g1 →
           ∃ g2, at2 (data kv2.2) n j = Some g2 ∧
                 gval g2 = gval g1 ∧
                 (gmask g1 = true → gmask g2 = true))
       (fields v1) (fields v2)).
Proof.
  assert (Forall (representable (IntType true W32))
            (azimuth Examples.half_degree_volume)) as Hrep
    by solve_representable.
  eexists _, _, _. split; [vm_compute; reflexivity|].
  split; [vm_compute; reflexivity|]. split; [reflexivity|].
  split; [exact Hrep|].
  eapply (second_run_keeps_values Examples.half_degree_volume);
    [apply half_degree_volume_consistent|reflexivity|reflexivity
    |exact Hrep|vm_compute; reflexivity|vm_compute; reflexivity].
Defined.

(** [two_sweep_volume] is homogeneous (two rays in each sweep), and a
    second run masks gates the first left valid: the first run masks the
    values 1 and 2, the second also 3 and 4. *)
Lemma second_run_masks_more_gates :
  ∃ v1 v2 f1 f2,
    sweep_ray_count Examples.two_sweep_volume 0 = Ok 2 ∧
    sweep_ray_count Examples.two_sweep_volume 1 = Ok 2 ∧
    main Examples.two_sweep_volume = Returned v1 ∧
    main v1 = Returned v2 ∧
    fields v1 = [("dbz"%string, f1)] ∧ fields v2 = [("dbz"%string, f2)] ∧
    map (map gmask) (data f1)
    = [[false; false; false]; [true; true; false];
       [true; true; false]; [false; false; false]] ∧
    map (map gmask) (data f2)
    = [[true; false; false]; [true; true; true];
       [true; true; true]; [true; false; false]] ∧
    v2 ≠ v1.
Proof.
  eexists _, _, _, _.
  split; [reflexivity|]. split; [reflexivity|].
  split; [vm_compute; reflexivity|]. split; [vm_compute; reflexivity|].
  split; [reflexivity|]. split; [reflexivity|].
  split; [reflexivity|]. split; [reflexivity|].
  intros Heq.
  apply (f_equal (λ r, (λ kv, map (map gmask) (data kv.2)) <$> fields r))
    in Heq.
  vm_compute in Heq. discriminate Heq.
Qed.

(** Without the condition on the precision a second run moves rays: on
    [narrow_volume] the first run stores the azimuths 100, 44 for each
    sweep, and the second run sorts them again, and the elevations and the
    field rows with them. *)
Example second_run_sorts_wrapped_azimuths :
  ∃ v1 v2,
    main Examples.narrow_volume = Returned v1 ∧ main v1 = Returned v2 ∧
    this <$> azimuth v1 = [100; 44; 100; 44]%Q ∧
    this <$> azimuth v2 = [44; 100; 44; 100]%Q ∧
    this <$> elevation v1 = [0; 1; 2; 3]%Q ∧
    this <$> elevation v2 = [1; 0; 3; 2]%Q.
Proof.
  eexists _, _. split; [vm_compute; reflexivity|].
  split; [vm_compute; reflexivity|]. split_and!; reflexivity.
Qed.

(** Three sweeps homogenised to 360 rays: the extra ray of the lowest sweep
    is gone, its azimuths run from 0 to 359, and the index tables are those
    of the specification's scenario. *)
Example three_sweeps_of_360 :
  ∃ r', main Examples.three_sweep_volume = Returned r' ∧
        nrays r' = 1080 ∧
        sweep_start_ray_index r' = [0; 360; 720] ∧
        sweep_end_ray_index r' = [359; 719; 1079] ∧
        this <$> take 360 (azimuth r')
        = (λ i, inject_Z (Z.of_nat i)) <$> seq 0 360.
Proof.
  eexists. split; [vm_compute; reflexivity|].
  split_and!; vm_compute; reflexivity.
Qed.

Lemma main_needs_two_sweeps_witness :
  ∃ e r', main Examples.single_sweep_volume = Raised e r'.
Proof. apply (proj1 (main_needs_two_sweeps _)). reflexivity. Defined.

(** On [single_sweep_volume] the exception is the [IndexError] of line
    142; the field, the rays and the start table have been overwritten by
    then. *)
Example single_sweep_fails_at_end_index :
  ∃ r', main Examples.single_sweep_volume = Raised IndexError r' ∧
        sweep_start_ray_index r' = [0] ∧
        (map (map gmask) ∘ data ∘ snd) <$> fields r'
        = [[[false; false; false]; [true; true; false]]].
Proof. eexists. split; [vm_compute; reflexivity|]. split; reflexivity. Qed.

Lemma main_no_sweep_fails_fast_witness :
  main Examples.empty_volume = Raised ValueError Examples.empty_volume.
Proof. apply main_no_sweep_fails_fast. reflexivity. Defined.

(** * Further properties of the code

    Properties of [main] beyond those of the specification, and of
    [smooth_vel] and [dual_nyquist]. *)

(** ** Auxiliary facts *)

Lemma np_min_le (l : list nat) (m s : nat) :
  np_min l = Ok m → s ∈ l → m ≤ s.
Proof.
  destruct l as [|x l]; [done|]. simpl. intros [= <-].
  induction l as [|y l IH]; simpl.
  - by intros ->%list_elem_of_singleton.
  - intros [->|[->|Hin]%elem_of_cons]%elem_of_cons.
    + etrans; [apply Nat.le_min_r|]. apply IH. by left.
    + apply Nat.le_min_l.
    + etrans; [apply Nat.le_min_r|]. apply IH. by right.
Qed.

Lemma for_each_elem_Err {A S} (f : S → A → result S) (x : A) (l : list A) :
  (∀ s, ∃ e, f s x = Err e) → x ∈ l → ∀ s, ∃ e, for_each f s l = Err e.
Proof.
  intros Hx. induction l as [|y l IH]; [by intros ?%elem_of_nil|].
  intros Hin s. simpl. destruct (f s y) as [s'|e] eqn:Hy; [|by eexists].
  simpl. apply elem_of_cons in Hin as [->|Hin]; [|by apply IH].
  destruct (Hx s) as [e He]. congruence.
Qed.

Lemma set_field_data_names (name : string) (d : marray) (r : Radar) :
  (fields (set_field_data name d r)).*1 = (fields r).*1 ∧
  (dtype_of ∘ snd) <$> fields (set_field_data name d r)
  = (dtype_of ∘ snd) <$> fields r.
Proof.
  unfold set_field_data. cbn [fields].
  rewrite <-!list_fmap_compose.
  split; apply list_fmap_ext; intros i [k f] _; simpl; by case_decide.
Qed.

Lemma lookup_concat_uniform {A} (k p i : nat) (ls : list (list A))
    (row : list A) :
  Forall (λ l, length l = k) ls → ls !! p = Some row → i < k →
  concat ls !! (p * k + i) = row !! i.
Proof.
  intros Hall Hrow Hi.
  rewrite <-(take_drop_concat_uniform k p ls row Hall Hrow).
  by rewrite lookup_take_lt, lookup_drop.
Qed.

Lemma delete_extra_ray_same_length {A B} (l : list A) (m : list B) l' m' :
  length l = length m →
  delete_extra_ray l = Ok l' → delete_extra_ray m = Ok m' →
  length l' = length m'.
Proof.
  intros Hlen. rewrite !delete_extra_ray_Ok. intros [= <-] [= <-].
  rewrite Hlen. case_decide; [|done]. by rewrite !length_take, Hlen.
Qed.

Lemma elem_of_concat_at2 {A} (a : list (list A)) (x : A) :
  x ∈ concat a → ∃ i j, at2 a i j = Some x.
Proof.
  intros (row & [i Hrow]%list_elem_of_lookup & [j Hx]%list_elem_of_lookup)
    %elem_of_concat.
  exists i, j. apply at2_Some_rows. eauto.
Qed.

Lemma filter_none {A} (P : A → Prop) `{∀ x, Decision (P x)} (l : list A) :
  Forall (λ x, ¬ P x) l → filter P l = [].
Proof.
  induction 1 as [|x l Hx _ IH]; [done|]. by rewrite filter_cons_False.
Qed.

Lemma StronglySorted_lookup_le {A} (R : relation A) (l : list A)
    (i j : nat) (x y : A) :
  StronglySorted R l → i < j → l !! i = Some x → l !! j = Some y → R x y.
Proof.
  intros Hs. revert i j. induction Hs as [|z l Hs IH Hall]; [done|].
  intros [|i] [|j] Hij Hx Hy; try lia; simpl in *.
  - injection Hx as ->. rewrite Forall_forall in Hall. apply Hall.
    by eapply list_elem_of_lookup_2.
  - apply (IH i j); [lia|done..].
Qed.

(** ** Rounding and spans *)

Lemma Qc_le_Q (x y : Qc) : (x ≤ y)%Qc ↔ (this x <= this y)%Q.
Proof. done. Qed.

Lemma Qc_pos_ne (x : Qc) : (0 < x)%Qc → x ≠ 0%Qc.
Proof. intros Hx ->. by apply Qclt_not_eq in Hx. Qed.

Lemma Qcdiv_pos (x y : Qc) : (0 < x)%Qc → (0 < y)%Qc → (0 < x / y)%Qc.
Proof. intros. apply Qcmult_pos_pos; [done|by apply Qcinv_pos]. Qed.

(** Rounding half to even moves a number by at most one half. *)
Lemma round_half_even_spec (x : Qc) :
  (x - Q2Qc (1 # 2) ≤ Qc_of_Z (round_half_even x))%Qc ∧
  (Qc_of_Z (round_half_even x) ≤ x + Q2Qc (1 # 2))%Qc.
Proof.
  unfold round_half_even.
  pose proof (Qfloor_le x) as Hlo. pose proof (Qlt_floor x) as Hhi.
  set (f := Qfloor x) in *.
  assert (∀ n : Z, this (x - Qc_of_Z n) == this x - inject_Z n)%Q as Hsub.
  { intros n. unfold Qcminus, Qcplus, Qcopp, Q2Qc. cbn [this].
    rewrite !Qred_correct. reflexivity. }
  assert (∀ q : Q, this (x - Q2Qc q) == this x - q)%Q as Hsubq.
  { intros n. unfold Qcminus, Qcplus, Qcopp, Q2Qc. cbn [this].
    rewrite !Qred_correct. reflexivity. }
  assert (∀ q : Q, this (x + Q2Qc q) == this x + q)%Q as Haddq.
  { intros n. unfold Qcplus, Q2Qc. cbn [this].
    rewrite !Qred_correct. reflexivity. }
  assert (inject_Z (f + 1) == inject_Z f + 1)%Q as Hf1.
  { rewrite inject_Z_plus. reflexivity. }
  rewrite !Qc_le_Q, Hsubq, Haddq.
  destruct (Qc_eqb _ _) eqn:Heq.
  - apply Qc_eqb_eq in Heq. apply (f_equal this) in Heq.
    assert (this x - inject_Z f == 1 # 2)%Q as Hr.
    { rewrite <-Hsub, Heq. cbn [this Q2Qc]. apply Qred_correct. }
    destruct (Z.even f); rewrite Qc_of_Z_this, ?Hf1; lra.
  - destruct (Qc_leb _ _) eqn:Hle.
    + apply Qc_leb_le in Hle. rewrite Qc_le_Q, Hsub in Hle.
      cbn [this Q2Qc] in Hle. rewrite Qred_correct in Hle.
      rewrite Qc_of_Z_this. lra.
    + apply not_true_iff_false in Hle. rewrite Qc_leb_le, Qc_le_Q, Hsub in Hle.
      cbn [this Q2Qc] in Hle. rewrite Qred_correct in Hle.
      rewrite Qc_of_Z_this, Hf1. rewrite Hf1 in Hhi. lra.
Qed.

(** [np.round(x, 3)] is a multiple of 0.001 at most 0.0005 from [x]. *)
Lemma np_round3_spec (x : Qc) :
  ∃ n : Z, np_round3 x = (Qc_of_Z n / Qc_of_Z 1000)%Qc ∧
    (x - Q2Qc (1 # 2000) ≤ np_round3 x)%Qc ∧
    (np_round3 x ≤ x + Q2Qc (1 # 2000))%Qc.
Proof.
  exists (round_half_even (x * Qc_of_Z 1000)). split; [done|].
  destruct (round_half_even_spec (x * Qc_of_Z 1000)%Qc) as [Hlo Hhi].
  unfold np_round3. set (n := round_half_even _) in *.
  rewrite !Qc_le_Q in *.
  unfold Qcdiv, Qcmult, Qcinv, Qcminus, Qcplus, Qcopp, Q2Qc in *.
  cbn [this] in *. rewrite ?Qred_correct in *.
  rewrite !Qc_of_Z_this in *.
  change (/ inject_Z 1000)%Q with (1 # 1000)%Q.
  change (inject_Z 1000) with (1000 # 1)%Q in *.
  split; lra.
Qed.

(** ** [main]: the rays of a sweep and its resampling *)

Section MainRays.
Context `{Externals}.

(** A sweep that has the reference ray count, gate by gate: the arrays
    [main] reads and the gate it stores. *)
Lemma same_count_sweep (radar r' : Radar) (q p sweep : nat)
    (kv kv' : string * Field) :
  consistent radar → main radar = Returned r' →
  fields radar !! q = Some kv → fields r' !! q = Some kv' →
  sweep_number radar !! p = Some sweep →
  ∃ s0 k kvl sl azi ele r0 r1 fld mr,
    let t := dtype_of kvl.2 in
    head (sweep_number radar) = Some s0 ∧
    sweep_ray_count radar s0 = Ok k ∧
    last (fields radar) = Some kvl ∧
    get_slice radar sweep = Ok sl ∧
    delete_extra_ray (slice sl (azimuth radar)) = Ok azi ∧
    delete_extra_ray (slice sl (elevation radar)) = Ok ele ∧
    gate_range (range radar) (slice sl (azimuth radar))
      (slice sl (elevation radar)) = Ok r0 ∧
    delete_extra_ray2 r0 (slice sl (data kv.2)) = Ok (r1, fld) ∧
    slice sl (unambiguous_range radar) !! 0 = Some mr ∧
    (length azi = k →
     ∀ i j, argsort azi !! i = Some j →
       azimuth r' !! (p * k + i) = astype t <$> azi !! j ∧
       elevation r' !! (p * k + i) = astype t <$> ele !! j ∧
       ∀ c g0, at2 fld j c = Some g0 →
         ∃ x b, at2 r1 i c = Some x ∧
           at2 (data kv'.2) (p * k + i) c
           = Some (Gate (astype (dtype_of kv.2) (gval g0))
                     (b || (Qc_leb mr x || gmask g0)))).
Proof.
  intros Hc Hm Hq Hq' Hp.
  destruct (main_Returned_summary _ _ Hc Hm)
    as (s0 & g & t & kvl & rows & Hhead & Hg & Hcount & Hrows & Haz & Hel
        & Hlast & Ht & Hk & Hk361 & HS & Hna & Hne & Hazrows & Helrows & Hv1
        & Hnames & Hdata).
  destruct (final_gate _ _ _ _ _ _ _ Hc Hm Hq Hq' Hp)
    as (smin & g' & rr & fs & mr & rm & st & m_sweep & m_vol & Hhead'
        & Hg' & _ & Hr & Hshape & _ & _ & _ & _ & _ & _ & Hgate).
  rewrite Hhead in Hhead'. injection Hhead' as <-.
  rewrite Hg in Hg'. injection Hg' as <-.
  set (k := length (azimuth_final g)) in *.
  destruct (resample_sweep_Ok _ _ _ _ _ _ _ Hr)
    as (sl & r0 & r1 & fld & azi & azs & az0 & Hsl & Hr0 & Hd2 & Hmr
        & Hazi & Hazs & Haz0 & Hbranch).
  destruct (delete_extra_ray2_field _ _ _ _ Hd2) as (kept & Hkept & _).
  destruct (delete_extra_ray2_length _ _ _ _ _ Hd2 Hkept) as [Hlkept _].
  destruct (grid_rows_lookup _ _ _ _ _ _ Hrows Hp)
    as (a & e & ix & Hrow & Ha & He).
  rewrite <-Haz in Ha. rewrite <-Hel in He.
  destruct (grid_row_Ok _ _ _ _ _ _ Hrow)
    as (azi' & azs' & els & idx & Hsr & Hhom).
  destruct (sorted_rays_Ok _ _ _ _ _ _ Hsr)
    as (sl' & ele & Hsl' & Hazi' & Hele & -> & Hazs' & Hels).
  rewrite Hsl in Hsl'. injection Hsl' as <-.
  rewrite Hazi in Hazi'. injection Hazi' as <-.
  rewrite Hazs in Hazs'. injection Hazs' as <-.
  pose proof Hc as [_ _ Hlen_el Hshapes].
  subst t. exists s0, k, kvl, sl, azi, ele, r0, r1, fld, mr. cbn zeta.
  split_and!; [done..|].
  intros Hlazi i j Hij.
  assert (i < k) as Hi.
  { apply lookup_lt_Some in Hij.
    by rewrite (Permutation_length (argsort_perm azi)), length_seq, Hlazi
      in Hij. }
  assert (length azs = k) as Hlazs.
  { apply fancy_index_length in Hazs.
    by rewrite Hazs, (Permutation_length (argsort_perm azi)), length_seq. }
  destruct (homogenize_Ok _ _ _ _ _ _ _ Hhom)
    as [(Hdiff & _)|(_ & -> & -> & _)]; [done|].
  rewrite Hv1. cbn [azimuth elevation].
  rewrite !list_lookup_fmap.
  rewrite (lookup_concat_uniform k p i _ azs); [|..|done|done]; last first.
  { eapply Forall_impl; [exact Hazrows|]. by intros ? [? _]. }
  rewrite (lookup_concat_uniform k p i _ els); [|done..].
  rewrite (fancy_index_lookup _ _ _ _ _ Hazs Hij).
  rewrite (fancy_index_lookup _ _ _ _ _ Hels Hij).
  split_and!; [done..|].
  intros c g0 Hg0.
  assert (length fld = length azi) as Hlfld.
  { rewrite Hlkept. symmetry.
    eapply delete_extra_ray_same_length; [|done..].
    apply length_slice_eq.
    rewrite Forall_forall in Hshapes.
    specialize (Hshapes kv (list_elem_of_lookup_2 _ _ _ Hq)).
    by apply shape_replicate_rows in Hshapes as [-> _]. }
  assert (length az0 = k) as Hlaz0.
  { rewrite Forall_lookup in Hazrows.
    by destruct (Hazrows _ _ Haz0) as [? _]. }
  destruct Hbranch as [(_ & -> & Hfs)|(Hdiff & _)]; [|congruence].
  assert (at2 fs i c = Some g0) as Hfsic.
  { unfold at2 in *. by rewrite (fancy_index_lookup _ _ _ _ _ Hfs Hij). }
  destruct (at2_same_shape fs r1 i c) as [x Hx];
    [done|by rewrite Hfsic|].
  destruct (Hgate i c g0 x Hfsic Hx) as (_ & _ & Hout).
  exists x. eexists. split; [done|]. rewrite Hout. f_equal. f_equal.
  apply orb_assoc.
Qed.

(** X1. Sorting keeps every ray in one piece.  In a sweep that has the
    reference ray count (after the 361st ray is dropped) the sort applies
    one permutation of the rays, [argsort] of the sweep's azimuths, to the
    azimuths, the elevations and the rows of every field: ray [i] of the
    sweep in the returned volume carries the azimuth, the elevation and,
    gate by gate, the field values of one and the same input ray [j],
    the angles cast to the precision of the last field and the values to
    that of their field; in a sweep that was not shortened from 361 rays
    a gate that was masked stays masked. *)
Theorem sorted_rays_stay_together (radar r' : Radar) (q p sweep : nat)
    (kv kv' : string * Field) :
  consistent radar → main radar = Returned r' →
  fields radar !! q = Some kv → fields r' !! q = Some kv' →
  sweep_number radar !! p = Some sweep →
  ∃ s0 k kvl sl azi ele fld,
    let t := dtype_of kvl.2 in
    head (sweep_number radar) = Some s0 ∧
    sweep_ray_count radar s0 = Ok k ∧
    last (fields radar) = Some kvl ∧
    get_slice radar sweep = Ok sl ∧
    delete_extra_ray (slice sl (azimuth radar)) = Ok azi ∧
    delete_extra_ray (slice sl (elevation radar)) = Ok ele ∧
    delete_extra_ray (slice sl (data kv.2)) = Ok fld ∧
    argsort azi ≡ₚ seq 0 (length azi) ∧
    (length azi = k →
     ∀ i j, argsort azi !! i = Some j →
       azimuth r' !! (p * k + i) = astype t <$> azi !! j ∧
       elevation r' !! (p * k + i) = astype t <$> ele !! j ∧
       ∀ c g0, at2 fld j c = Some g0 →
         ∃ gout, at2 (data kv'.2) (p * k + i) c = Some gout ∧
                 gval gout = astype (dtype_of kv.2) (gval g0) ∧
                 (length (slice sl (data kv.2)) ≠ 361 →
                  gmask g0 = true → gmask gout = true)).
Proof.
  intros Hc Hm Hq Hq' Hp.
  destruct (same_count_sweep _ _ _ _ _ _ _ Hc Hm Hq Hq' Hp)
    as (s0 & k & kvl & sl & azi & ele & r0 & r1 & fld & mr & Hhead & Hk
        & Hlast & Hsl & Hazi & Hele & _ & Hd2 & _ & Hrays).
  cbn zeta in Hrays.
  destruct (delete_extra_ray2_field _ _ _ _ Hd2) as (kept & Hkept & Hfld).
  exists s0, k, kvl, sl, azi, ele, kept. cbn zeta.
  split_and!; [done..|apply argsort_perm|].
  intros Hlen i j Hij. destruct (Hrays Hlen i j Hij) as (Haz & Hel & Hgates).
  split_and!; [done..|]. intros c g0 Hg0.
  destruct (decide (length (slice sl (data kv.2)) = 361)) as [H361|H361].
  - destruct (Hgates c (unmasked (gval g0))) as (x & b & _ & Hout).
    { rewrite Hfld. unfold drop_mask. by rewrite at2_fmap2, Hg0. }
    eexists. split; [exact Hout|]. done.
  - subst fld. destruct (Hgates c g0 Hg0) as (x & b & _ & Hout).
    eexists. split; [exact Hout|]. cbn [gval gmask]. split; [done|].
    intros _ ->. by rewrite !orb_true_r.
Qed.


(** X3. The azimuth grid of a sweep stays within the azimuths observed.
    For every sweep of a volume on which [main] returns, the sweep has a
    least and a greatest azimuth [lo] and [hi] (the ends of its sorted
    azimuths), and every azimuth of its row of [az_final] lies between
    them, whether the row is the sorted azimuths or the [linspace] grid of
    line 61: the grid handed to the interpolators never leaves the span of
    the azimuths they were built on. *)
Theorem azimuth_grid_within_span (radar r' : Radar) (p sweep : nat) :
  NoDup (sweep_number radar) → main radar = Returned r' →
  sweep_number radar !! p = Some sweep →
  ∃ smin g azi azs els idx a lo hi,
    build_grids radar smin = Ok g ∧
    sorted_rays radar sweep = Ok (azi, azs, els, idx) ∧
    az_final g !! p = Some a ∧
    azs !! 0 = Some lo ∧ last azs = Some hi ∧
    lo ∈ azi ∧ hi ∈ azi ∧
    (∀ x, x ∈ azi → (lo ≤ x)%Qc ∧ (x ≤ hi)%Qc) ∧
    (∀ x, x ∈ a → (lo ≤ x)%Qc ∧ (x ≤ hi)%Qc).
Proof.
  intros Hnd Hm Hp.
  destruct (main_Returned_shape _ _ Hnd Hm)
    as (smin & rest & g & rows & t & rf & Hsn & Hg & Hcount & Hrows & Haz
        & Hel & _ & _ & Hk & _).
  destruct (grid_rows_lookup _ _ _ _ _ _ Hrows Hp)
    as (a & e & i & Hrow & Ha & _).
  rewrite <-Haz in Ha.
  destruct (grid_row_Ok _ _ _ _ _ _ Hrow)
    as (azi & azs & els & idx & Hsr & Hhom).
  destruct (sorted_rays_facts _ _ _ _ _ _ Hsr)
    as (Hsorted & Hperm & Hlazs & _ & _).
  assert (∃ lo hi, azs !! 0 = Some lo ∧ last azs = Some hi ∧
                   (∀ x, x ∈ a → (lo ≤ x)%Qc ∧ (x ≤ hi)%Qc))
    as (lo & hi & Hlo & Hhi & Hspan).
  { destruct (homogenize_Ok _ _ _ _ _ _ _ Hhom)
      as [(_ & lo & hi & Hlo & Hhi & -> & _)|(Hlen & -> & _)].
    - exists lo, hi. split_and!; [done..|]. intros x.
      apply linspace_span. by eapply Sorted_head_last.
    - destruct (lookup_lt_is_Some_2 azs 0) as [lo Hlo]; [lia|].
      destruct (last azs) as [hi|] eqn:Hhi.
      + exists lo, hi. split_and!; [done..|]. intros x.
        by apply Sorted_Qcle_span.
      + apply last_None in Hhi. by subst. }
  exists smin, g, azi, azs, els, idx, a, lo, hi.
  split_and!; [done..| | | |done].
  - rewrite <-Hperm. by eapply list_elem_of_lookup_2.
  - rewrite <-Hperm. apply last_Some in Hhi as [l' ->].
    apply elem_of_app. right. by left.
  - intros x Hx. rewrite <-Hperm in Hx. by apply (Sorted_Qcle_span azs).
Qed.

(** X4. A resampled sweep loses its mask and is rounded.  When the field
    of a sweep has another number of rays than the reference row (line
    111), the interpolator of line 114 is given the stored value of every
    gate, masked or not, and every gate of the resampled sweep is
    unmasked and holds the interpolated value rounded to a multiple of
    0.001, at most 0.0005 away from it (line 116). *)
Theorem resampled_sweep_rounded (radar : Radar) (g : grids) (f : Field)
    (sweep : nat) rr fs mr sl r0 r1 field az0 :
  resample_sweep radar g f sweep = Ok (rr, fs, mr) →
  get_slice radar sweep = Ok sl →
  gate_range (range radar) (slice sl (azimuth radar))
    (slice sl (elevation radar)) = Ok r0 →
  delete_extra_ray2 r0 (slice sl (data f)) = Ok (r1, field) →
  az_final g !! 0 = Some az0 →
  length field ≠ length az0 →
  ∃ azi azs sorted target field_interp,
    delete_extra_ray (slice sl (azimuth radar)) = Ok azi ∧
    fancy_index azi (argsort azi) = Ok azs ∧
    fancy_index field (argsort azi) = Ok sorted ∧
    az_final g !! sweep = Some target ∧
    interp2d (range radar) azs (map (map gval) sorted) (range radar) target
    = Ok field_interp ∧
    shape fs = shape field_interp ∧
    ∀ i j y, at2 field_interp i j = Some y →
      ∃ n : Z,
        at2 fs i j = Some (unmasked (Qc_of_Z n / Qc_of_Z 1000)%Qc) ∧
        (y - Q2Qc (1 # 2000) ≤ Qc_of_Z n / Qc_of_Z 1000)%Qc ∧
        (Qc_of_Z n / Qc_of_Z 1000 ≤ y + Q2Qc (1 # 2000))%Qc.
Proof.
  intros Hr Hsl Hr0 Hd2 Haz0 Hne.
  destruct (resample_sweep_Ok _ _ _ _ _ _ _ Hr)
    as (sl' & r0' & r1' & field' & azi & azs & az0' & Hsl' & Hr0' & Hd2' & _
        & Hazi & Hazs & Haz0' & Hbranch).
  rewrite Hsl in Hsl'. injection Hsl' as <-.
  rewrite Hr0 in Hr0'. injection Hr0' as <-.
  rewrite Hd2 in Hd2'. injection Hd2' as <- <-.
  rewrite Haz0 in Haz0'. injection Haz0' as <-.
  destruct Hbranch as [(Heq & _)|(_ & sorted & target & field_interp
    & Hsorted & Htarget & _ & Hinterp & ->)]; [done|].
  exists azi, azs, sorted, target, field_interp.
  split_and!; [done..|by rewrite shape_fmap2|].
  intros i j y Hy. rewrite at2_fmap2, Hy. simpl.
  destruct (np_round3_spec y) as (n & Hn & Hlo & Hhi).
  exists n. rewrite <-Hn. done.
Qed.

End MainRays.

(** ** [main]: what it keeps and how it fails *)

Section MainEdges.
Context `{Externals}.

Lemma fields_loop_names (g : grids) (sweep_min : nat) (keys : list string) :
  ∀ rc ft rf ft',
  fields_loop g sweep_min keys rc ft = (rf, ft') →
  (fields rf).*1 = (fields rc).*1 ∧
  (dtype_of ∘ snd) <$> fields rf = (dtype_of ∘ snd) <$> fields rc.
Proof.
  induction keys as [|name keys IH]; intros rc ft rf ft'; simpl.
  - by intros [= <- _].
  - destruct (dict_get name (fields rc)) as [f|]; [|by intros [= <- _]].
    destruct (resample_field rc g sweep_min f) as [d|e];
      [|by intros [= <- _]].
    intros Hloop. apply IH in Hloop as [-> ->].
    apply set_field_data_names.
Qed.

Lemma fields_loop_other (g : grids) (sweep_min : nat) (keys : list string)
    (k : string) :
  ∀ rc ft rf ft',
  k ∉ keys →
  fields_loop g sweep_min keys rc ft = (rf, ft') →
  dict_get k (fields rf) = dict_get k (fields rc).
Proof.
  induction keys as [|name keys IH]; intros rc ft rf ft' Hk; simpl.
  - by intros [= <- _].
  - apply not_elem_of_cons in Hk as [Hne Hk].
    destruct (dict_get name (fields rc)) as [f|]; [|by intros [= <- _]].
    destruct (resample_field rc g sweep_min f) as [d|e];
      [|by intros [= <- _]].
    intros Hloop. rewrite (IH _ _ _ _ Hk Hloop), dict_get_set_field_data.
    destruct (dict_get k (fields rc)); simpl; [|done].
    by rewrite decide_False.
Qed.

Lemma finish_frame (g : grids) ft (radar : Radar) :
  let r' := final_state (finish g ft radar) in
  sweep_number r' = sweep_number radar ∧ range r' = range radar ∧
  unambiguous_range r' = unambiguous_range radar ∧
  fields r' = fields radar.
Proof.
  unfold finish. destruct ft as [t|]; [|done].
  destruct (az_final g !! 0) as [az0|]; [|done].
  destruct (np_arange _ _ _) as [starts|]; [|done].
  cbn [sweep_start_ray_index set_start_index].
  destruct (starts !! 1) as [s1|]; [|done].
  by destruct (np_arange _ _ _).
Qed.

(** X5. The volume [main] returns is well formed and homogeneous: it is
    consistent again (distinct sweep numbers and field names, one
    elevation per azimuth, every field of one row of [len(range)] gates
    per ray), [nrays] is the length of its azimuth array, and every entry
    of its ray index tables delimits a sweep of exactly the reference ray
    count, which is positive and is not 361. *)
Theorem main_keeps_consistent (v v1 : Radar) :
  consistent v → main v = Returned v1 →
  ∃ s0 k,
    head (sweep_number v) = Some s0 ∧ sweep_ray_count v s0 = Ok k ∧
    0 < k ∧ k ≠ 361 ∧
    consistent v1 ∧
    nrays v1 = length (azimuth v1) ∧
    ∀ p, p < length (sweep_number v) → sweep_ray_count v1 p = Ok k.
Proof.
  intros Hc Hm.
  destruct (main_output_stacked _ _ Hc Hm)
    as (s0 & k & t & Hhead & Hcount & Hk & Hk361 & Hsn1 & Hrange1 & Hnrays1
        & Hstart1 & Hend1 & Hlaz1 & Hlel1 & Hsorted1 & Hcaz & Hcel & Hlastv
        & Hlastty & Hdata1 & Hc1).
  cbn zeta in *.
  exists s0, k. split_and!; try done; [by rewrite Hnrays1, Hlaz1|].
  intros p Hp. unfold sweep_ray_count, get_slice.
  rewrite Hstart1, Hend1, !list_lookup_fmap, !lookup_seq_lt by done.
  simpl. rewrite delete_extra_ray_Ok.
  destruct (slice_block p k (azimuth v1)) as [Hs|?]; [|lia].
  simpl in Hs. rewrite Hs.
  rewrite (length_block (length (sweep_number v))) by done.
  rewrite decide_False by done. simpl.
  by rewrite (length_block (length (sweep_number v))).
Qed.

(** X6. Whether it returns or raises, [main] leaves the sweep numbers, the
    range gates and the per-ray unambiguous ranges of the radar object as
    they were, and neither adds, removes, renames, reorders nor changes
    the storage precision of a field.  (The unambiguous ranges are thus
    not brought to the new ray count.) *)
Theorem main_frame (radar : Radar) :
  let r' := final_state (main radar) in
  sweep_number r' = sweep_number radar ∧ range r' = range radar ∧
  unambiguous_range r' = unambiguous_range radar ∧
  (fields r').*1 = (fields radar).*1 ∧
  (dtype_of ∘ snd) <$> fields r' = (dtype_of ∘ snd) <$> fields radar.
Proof.
  unfold main. destruct (np_min _) as [smin|]; [|done].
  destruct (build_grids _ _) as [g|]; [|done].
  destruct (fields_loop _ _ _ _ _) as [rf ft] eqn:Hloop.
  pose proof (fields_loop_geometry _ _ _ _ _ _ _ Hloop) as Hgeo.
  pose proof (fields_loop_names _ _ _ _ _ _ _ Hloop) as [Hn Hd].
  unfold geometry in Hgeo. injection Hgeo as Hsn Hr _ _ Hu _ _ _.
  destruct ft as [ft|e]; [|done].
  destruct (finish_frame g ft rf) as (-> & -> & -> & ->). done.
Qed.

(** X7. [main] is not atomic.  When the grids are built and the first
    field is resampled, its new array is stored at once (line 132); if
    [main] raises later, in another field or while rewriting the rays and
    index tables, the radar object it leaves behind holds that new array
    in place of the first field's data. *)
Theorem failure_keeps_replaced_field (radar r' : Radar) (name : string)
    (f : Field) (others : list (string * Field)) (smin : nat) (g : grids)
    (d : marray) (e : exn) :
  fields radar = (name, f) :: others → name ∉ others.*1 →
  np_min (sweep_number radar) = Ok smin →
  build_grids radar smin = Ok g →
  resample_field radar g smin f = Ok d →
  main radar = Raised e r' →
  dict_get name (fields r') = Some (MkField (dtype_of f) d).
Proof.
  intros Hf Hname Hmin Hg Hd. unfold main. rewrite Hmin, Hg, Hf.
  rewrite fmap_cons. cbn [fields_loop fst]. rewrite Hf. cbn [dict_get].
  rewrite decide_True by done. rewrite Hd.
  destruct (fields_loop _ _ _ _ _) as [rf ft] eqn:Hloop.
  pose proof (fields_loop_other _ _ _ _ _ _ _ _ Hname Hloop) as Hget.
  rewrite dict_get_set_field_data, Hf in Hget. cbn [dict_get] in Hget.
  destruct (decide (name = name)); [|done]. simpl in Hget.
  destruct ft as [ft|e'].
  - intros Hfin. destruct (finish_frame g ft rf) as (_ & _ & _ & Hfields).
    rewrite Hfin in Hfields. simpl in Hfields. by rewrite Hfields.
  - by intros [= _ <-].
Qed.

(** X8. The first sweep has to be the lowest.  When some later element of
    [sweep_number] is smaller than the first one, [main] raises during
    the first pass of its first loop and leaves the radar object as it
    was; the exception is the [NameError] of line 59, where
    [azimuth_final] is read before any sweep has bound it, unless the rays
    of that first sweep could not even be read. *)
Theorem first_sweep_must_be_lowest (radar : Radar) (s0 s : nat)
    (rest : list nat) :
  sweep_number radar = s0 :: rest → s ∈ rest → s < s0 →
  (∃ e, main radar = Raised e radar) ∧
  (∀ x, sorted_rays radar s0 = Ok x → main radar = Raised NameError radar).
Proof.
  intros Hsn Hin Hlt. unfold main.
  destruct (np_min _) as [smin|] eqn:Hmin;
    [|rewrite Hsn in Hmin; discriminate Hmin].
  assert (smin ≤ s) as Hle.
  { eapply np_min_le; [done|]. rewrite Hsn. by right. }
  assert (∃ e, build_grids radar smin = Err e ∧
               (∀ x, sorted_rays radar s0 = Ok x → e = NameError))
    as (e & -> & He).
  { unfold build_grids. rewrite Hsn. cbn [for_each]. unfold grid_step.
    destruct (sorted_rays radar s0) as [[[[azi azs] els] idx]|e]; simpl.
    - rewrite decide_False by lia. simpl. by eexists.
    - by eexists. }
  split; [by eexists|]. by intros x ->%He.
Qed.

(** X9. A volume without fields.  [main] raises on it and leaves the
    radar object as it was; when the volume has sweeps and the grids can
    be built, the exception is the [NameError] of line 136, where
    [field_type] was never bound. *)
Theorem main_needs_a_field (radar : Radar) :
  fields radar = [] →
  (∃ e, main radar = Raised e radar) ∧
  (∀ smin g, np_min (sweep_number radar) = Ok smin →
     build_grids radar smin = Ok g → main radar = Raised NameError radar).
Proof.
  intros Hf. unfold main. rewrite Hf.
  destruct (np_min _) as [smin|];
    [|split; [by eexists|by intros ?? [=]]].
  destruct (build_grids _ _) as [g|] eqn:Hg;
    [|split; [by eexists|]; intros ?? [= <-]; by rewrite Hg].
  simpl. split; [by eexists|done].
Qed.

(** X10. A sweep number outside the ray index tables.  When some element
    of [sweep_number] has no entry in [sweep_start_ray_index] or in
    [sweep_end_ray_index], [main] raises in its first loop
    ([radar.get_slice], line 33) and leaves the radar object as it was. *)
Theorem sweep_outside_tables (radar : Radar) (s : nat) :
  s ∈ sweep_number radar →
  (length (sweep_start_ray_index radar) ≤ s ∨
   length (sweep_end_ray_index radar) ≤ s) →
  ∃ e, main radar = Raised e radar.
Proof.
  intros Hin Hlen. unfold main.
  destruct (np_min _) as [smin|]; [|by eexists].
  unfold build_grids.
  destruct (for_each_elem_Err (grid_step radar smin) s (sweep_number radar))
    with (s := @None grids) as [e ->]; [| done | by eexists].
  intros st. unfold grid_step, sorted_rays, get_slice.
  destruct Hlen as [Hl|Hl].
  - rewrite (lookup_ge_None_2 _ _ Hl). by eexists.
  - rewrite (lookup_ge_None_2 _ _ Hl).
    destruct (sweep_start_ray_index radar !! s); by eexists.
Qed.

(** X11. A sweep without rays.  When the first sweep has rays and some
    sweep of the volume has none, [main] raises in its first loop (the
    empty sorted azimuths differ in length from the reference and line 61
    reads their first element) and leaves the radar object as it was. *)
Theorem empty_sweep_rejected (radar : Radar) (s0 s k : nat) :
  NoDup (sweep_number radar) →
  head (sweep_number radar) = Some s0 →
  sweep_ray_count radar s0 = Ok k → k ≠ 0 →
  s ∈ sweep_number radar → sweep_ray_count radar s = Ok 0 →
  ∃ e, main radar = Raised e radar.
Proof.
  intros Hnd Hhead Hk Hk0 Hin Hs. unfold main.
  destruct (np_min _) as [smin|]; [|by eexists].
  destruct (build_grids radar smin) as [g|e] eqn:Hg; [|by eexists].
  exfalso.
  destruct (build_grids_Ok _ _ _ Hnd Hg)
    as (rest & azs & els & idx & rows & Hsn & Hsorted & Hrows & _).
  rewrite Hsn in Hhead. injection Hhead as ->.
  apply sorted_rays_count in Hsorted. rewrite Hk in Hsorted.
  injection Hsorted as Hlen.
  apply list_elem_of_lookup in Hin as [p Hp].
  destruct (grid_rows_lookup _ _ _ _ _ _ Hrows Hp)
    as (a & el & i & Hrow & _).
  apply grid_row_Ok in Hrow as (azi' & azs' & els' & idx' & Hsr & Hhom).
  pose proof (sorted_rays_count _ _ _ _ _ _ Hsr) as Hc.
  rewrite Hs in Hc. injection Hc as Hc.
  apply sorted_rays_facts in Hsr as (_ & _ & Hl & _).
  destruct azs'; [|simpl in Hl; lia].
  unfold homogenize in Hhom. rewrite decide_True in Hhom; [done|].
  simpl. lia.
Qed.

End MainEdges.

(** ** The median filter *)

Import VelCorrection.

Lemma shape_median_filter (a : list (list Qc)) :
  shape (median_filter a) = shape a.
Proof.
  unfold shape, median_filter. apply list_eq. intros i.
  rewrite !list_lookup_fmap, list_lookup_imap.
  destruct (a !! i); simpl; [|done]. by rewrite length_imap.
Qed.

Lemma at2_median_filter (a : list (list Qc)) (i j : nat) :
  at2 (median_filter a) i j = (λ _, median (window a i j)) <$> at2 a i j.
Proof.
  unfold at2, median_filter. rewrite list_lookup_imap.
  destruct (a !! i) as [row|]; simpl; [|done].
  by rewrite list_lookup_imap.
Qed.

(** The median of nine values has four of them below and four above. *)
Lemma median_spec (w : list Qc) :
  length w = 9 →
  ∃ lo hi,
    w ≡ₚ lo ++ median w :: hi ∧ length lo = 4 ∧ length hi = 4 ∧
    Forall (λ x, (x ≤ median w)%Qc) lo ∧ Forall (λ x, (median w ≤ x)%Qc) hi.
Proof.
  intros Hlen. unfold median.
  pose proof (merge_sort_Permutation Qcle w) as Hperm.
  pose proof (Sorted_merge_sort Qcle w) as Hsorted.
  apply Sorted_StronglySorted in Hsorted; [|apply _].
  set (s := merge_sort Qcle w) in *.
  assert (length s = 9) as Hls by (by rewrite Hperm).
  destruct (lookup_lt_is_Some_2 s 4) as [m Hm]; [lia|].
  rewrite Hm. simpl.
  exists (take 4 s), (drop 5 s). split_and!.
  - by rewrite take_drop_middle.
  - rewrite length_take. lia.
  - rewrite length_drop. lia.
  - apply Forall_lookup. intros i x Hx.
    assert (i < 4) as Hi.
    { apply lookup_lt_Some in Hx. rewrite length_take in Hx. lia. }
    rewrite lookup_take_lt in Hx by done.
    by apply (StronglySorted_lookup_le Qcle s i 4).
  - apply Forall_lookup. intros i x Hx. rewrite lookup_drop in Hx.
    apply (StronglySorted_lookup_le Qcle s 4 (5 + i)); [done|lia|done..].
Qed.

(** Five equal values among the nine decide the median. *)
Lemma median_majority (w : list Qc) (v : Qc) :
  length w = 9 → 5 ≤ length (filter (λ x, x = v) w) → median w = v.
Proof.
  intros Hlen Hcount.
  destruct (median_spec w Hlen) as (lo & hi & Hperm & Hlo & Hhi & Hle & Hge).
  set (m := median w) in *.
  destruct (decide (m = v)) as [|Hne]; [done|]. exfalso.
  rewrite Hperm, filter_app, filter_cons_False, length_app in Hcount by done.
  destruct (Qclt_le_dec m v) as [Hlt|Hvm].
  - assert (filter (λ x, x = v) lo = []) as Hnil.
    { apply filter_none. eapply Forall_impl; [exact Hle|].
      intros x Hx ->. by apply Qclt_not_le in Hlt. }
    rewrite Hnil in Hcount. pose proof (length_filter (λ x, x = v) hi).
    simpl in Hcount. lia.
  - assert (filter (λ x, x = v) hi = []) as Hnil.
    { apply filter_none. eapply Forall_impl; [exact Hge|].
      intros x Hx ->. apply Hne. by apply Qcle_antisym. }
    rewrite Hnil in Hcount. pose proof (length_filter (λ x, x = v) lo).
    simpl in Hcount. lia.
Qed.

(** The window of an element of a rectangular array, value by value. *)
Lemma window_cells (a : list (list Qc)) (n G i j : nat) :
  shape a = replicate n G → i < n → j < G →
  let i2 := Nat.min (i + 1) (n - 1) in
  let j2 := Nat.min (j + 1) (G - 1) in
  ∃ x00 x01 x02 x10 x11 x12 x20 x21 x22,
    window a i j = [x00; x01; x02; x10; x11; x12; x20; x21; x22] ∧
    at2 a (i - 1) (j - 1) = Some x00 ∧ at2 a (i - 1) j = Some x01 ∧
    at2 a (i - 1) j2 = Some x02 ∧
    at2 a i (j - 1) = Some x10 ∧ at2 a i j = Some x11 ∧
    at2 a i j2 = Some x12 ∧
    at2 a i2 (j - 1) = Some x20 ∧ at2 a i2 j = Some x21 ∧
    at2 a i2 j2 = Some x22.
Proof.
  intros Hshape Hi Hj.
  apply shape_replicate_rows in Hshape as [Hn Hrows].
  rewrite Forall_lookup in Hrows.
  unfold window, neighbours, at2. rewrite Hn.
  destruct (lookup_lt_is_Some_2 a (i - 1)) as [r0 Hr0]; [lia|].
  destruct (lookup_lt_is_Some_2 a i) as [r1 Hr1]; [lia|].
  destruct (lookup_lt_is_Some_2 a (Nat.min (i + 1) (n - 1))) as [r2 Hr2];
    [lia|].
  cbn. rewrite Hr0, Hr1, Hr2. cbn.
  rewrite (Hrows _ _ Hr0), (Hrows _ _ Hr1), (Hrows _ _ Hr2).
  assert (∀ r i', a !! i' = Some r → ∀ j', j' < G → ∃ x, r !! j' = Some x)
    as Hcell.
  { intros r i' Hr j' Hj'. apply lookup_lt_is_Some_2.
    by rewrite (Hrows _ _ Hr). }
  destruct (Hcell _ _ Hr0 (j - 1)) as [x00 H00]; [lia|].
  destruct (Hcell _ _ Hr0 j) as [x01 H01]; [lia|].
  destruct (Hcell _ _ Hr0 (Nat.min (j + 1) (G - 1))) as [x02 H02]; [lia|].
  destruct (Hcell _ _ Hr1 (j - 1)) as [x10 H10]; [lia|].
  destruct (Hcell _ _ Hr1 j) as [x11 H11]; [lia|].
  destruct (Hcell _ _ Hr1 (Nat.min (j + 1) (G - 1))) as [x12 H12]; [lia|].
  destruct (Hcell _ _ Hr2 (j - 1)) as [x20 H20]; [lia|].
  destruct (Hcell _ _ Hr2 j) as [x21 H21]; [lia|].
  destruct (Hcell _ _ Hr2 (Nat.min (j + 1) (G - 1))) as [x22 H22]; [lia|].
  rewrite H00, H01, H02, H10, H11, H12, H20, H21, H22. cbn.
  by exists x00, x01, x02, x10, x11, x12, x20, x21, x22.
Qed.

(** Nine values, each of an element at most one row and one column
    away. *)
Lemma window_spec (a : list (list Qc)) (n G i j : nat) :
  shape a = replicate n G → i < n → j < G →
  length (window a i j) = 9 ∧
  ∀ x, x ∈ window a i j →
    ∃ i' j', at2 a i' j' = Some x ∧
             i - 1 ≤ i' ∧ i' ≤ i + 1 ∧ j - 1 ≤ j' ∧ j' ≤ j + 1.
Proof.
  intros Hshape Hi Hj.
  destruct (window_cells a n G i j Hshape Hi Hj)
    as (x00 & x01 & x02 & x10 & x11 & x12 & x20 & x21 & x22 & -> & H00 & H01
        & H02 & H10 & H11 & H12 & H20 & H21 & H22).
  split; [done|]. intros x Hx.
  repeat (apply elem_of_cons in Hx as [->|Hx]);
    [..|by apply elem_of_nil in Hx];
    eexists _, _; (split; [eassumption|lia]).
Qed.

(** When every other element of the window holds [v], at least five of the
    nine values are [v]: mirrored at an edge, the centre is seen at most
    four times. *)
Lemma window_isolated (a : list (list Qc)) (n G i j : nat) (v : Qc) :
  shape a = replicate n G → 2 ≤ n → 2 ≤ G → i < n → j < G →
  (∀ i' j' x, (i', j') ≠ (i, j) →
     i - 1 ≤ i' → i' ≤ i + 1 → j - 1 ≤ j' → j' ≤ j + 1 →
     at2 a i' j' = Some x → x = v) →
  5 ≤ length (filter (λ x, x = v) (window a i j)).
Proof.
  intros Hshape Hn HG Hi Hj Hv.
  destruct (window_cells a n G i j Hshape Hi Hj)
    as (x00 & x01 & x02 & x10 & x11 & x12 & x20 & x21 & x22 & -> & H00 & H01
        & H02 & H10 & H11 & H12 & H20 & H21 & H22).
  assert (∀ i' j' x, at2 a i' j' = Some x →
            i - 1 ≤ i' → i' ≤ i + 1 → j - 1 ≤ j' → j' ≤ j + 1 →
            x = v ∨ (i' = i ∧ j' = j)) as Hcase.
  { intros i' j' x Hx ????.
    destruct (decide ((i', j') = (i, j))) as [[= -> ->]|Hne]; [by right|].
    left. by apply (Hv i' j'). }
  destruct (Hcase _ _ _ H00) as [->|[??]]; [lia..| |];
  destruct (Hcase _ _ _ H01) as [->|[??]]; try lia;
  destruct (Hcase _ _ _ H02) as [->|[??]]; try lia;
  destruct (Hcase _ _ _ H10) as [->|[??]]; try lia;
  destruct (Hcase _ _ _ H12) as [->|[??]]; try lia;
  destruct (Hcase _ _ _ H20) as [->|[??]]; try lia;
  destruct (Hcase _ _ _ H21) as [->|[??]]; try lia;
  destruct (Hcase _ _ _ H22) as [->|[??]]; try lia;
  rewrite ?filter_cons; repeat (case_decide; try done); simpl; lia.
Qed.

(** ** [smooth_vel] *)

Lemma dict_get_dict_set (k name : string) (f : Field)
    (d : list (string * Field)) :
  dict_get k (dict_set name f d)
  = if decide (k = name) then Some f else dict_get k d.
Proof.
  induction d as [|[k' f'] d IH]; simpl.
  - destruct (decide (name = k)), (decide (k = name)); congruence.
  - destruct (decide (k' = name)) as [->|Hne]; simpl.
    + destruct (decide (name = k)), (decide (k = name)); congruence.
    + destruct (decide (k' = k)) as [->|Hk]; [|done].
      destruct (decide (k = name)); congruence.
Qed.

Lemma dict_set_names (name : string) (f : Field) (d : list (string * Field)) :
  (dict_set name f d).*1
  = if decide (name ∈ d.*1) then d.*1 else d.*1 ++ [name].
Proof.
  induction d as [|[k' f'] d IH].
  - destruct (decide (name ∈ _)) as [Hin|_]; [|done].
    by apply elem_of_nil in Hin.
  - cbn [dict_set]. rewrite !fmap_cons. cbn [fst].
    destruct (decide (k' = name)) as [->|Hne].
    + rewrite fmap_cons. cbn [fst].
      destruct (decide (name ∈ name :: _)) as [_|Hnin]; [done|].
      destruct Hnin. by left.
    + rewrite fmap_cons, IH. cbn [fst].
      destruct (decide (name ∈ d.*1)) as [Hin|Hnin],
        (decide (name ∈ k' :: d.*1)) as [Hin'|Hnin']; try done.
      * destruct Hnin'. by right.
      * by apply elem_of_cons in Hin' as [->|?].
Qed.

Lemma smooth_shapes (a : marray) :
  shape (map (map gmask) a)
  = shape (map (map unmasked) (median_filter (map (map gval) a))).
Proof. by rewrite !shape_fmap2, shape_median_filter, shape_fmap2. Qed.

Lemma smooth_vel_Returned (vel_name : string) (radar r' : Radar) :
  smooth_vel vel_name radar = Returned r' →
  ∃ f m,
    let smooth := zip_with (zip_with mask_gate) (map (map gmask) (data f))
                    (map (map unmasked)
                       (median_filter (map (map gval) (data f)))) in
    dict_get vel_name (fields radar) = Some f ∧
    is_Some (dict_get "vcor_cmean" (fields radar)) ∧
    ma_min smooth = Ok m ∧
    shape (data f) = replicate (nrays radar) (length (range radar)) ∧
    r' = MkRadar (sweep_number radar) (range radar) (azimuth radar)
           (elevation radar)
           (dict_set "vcor_cmean_smooth"
              (MkField (dtype_of f) (masked_equal smooth m)) (fields radar))
           (unambiguous_range radar) (sweep_start_ray_index radar)
           (sweep_end_ray_index radar) (nrays radar).
Proof.
  unfold smooth_vel.
  destruct (dict_get vel_name (fields radar)) as [f|]; [|done].
  destruct (masked_where _ _) as [sm|] eqn:Hmw; [|done].
  apply masked_where_Ok in Hmw as (Hsh & -> & Hsh').
  destruct (ma_min _) as [m|] eqn:Hmin; [|done].
  unfold add_field_like.
  destruct (dict_get "vcor_cmean" (fields radar)) as [tmpl|]; [|done].
  unfold add_field. cbn [data]. case_decide as Hshape; [|done].
  intros [= <-]. exists f, m. cbn zeta. split_and!; [done..| |done].
  by rewrite shape_masked_equal, Hsh', !shape_fmap2, shape_median_filter,
    shape_fmap2 in Hshape.
Qed.

(** The array of line 92, gate by gate. *)
Lemma at2_smooth (a : marray) (i j : nat) (g : gate) :
  at2 a i j = Some g →
  at2 (zip_with (zip_with mask_gate) (map (map gmask) a)
         (map (map unmasked) (median_filter (map (map gval) a)))) i j
  = Some (Gate (median (window (map (map gval) a) i j)) (gmask g)).
Proof.
  intros Hg.
  erewrite at2_zip_with2; [| |by rewrite at2_fmap2, at2_median_filter,
                                 at2_fmap2, Hg].
  2: { by rewrite at2_fmap2, Hg. }
  unfold mask_gate, unmasked. simpl. by rewrite orb_false_r.
Qed.

(** X12. Every smoothed gate.  The value [smooth_vel] stores at a gate is
    the median of the nine values of its 3 x 3 window: four of them are at
    most that value and four at least.  The nine values are stored values
    of gates of the source field at most one ray and one range gate away
    (the gate itself and its neighbours, mirrored at the edges of the
    array), whether those gates are masked or not; and a gate that is
    masked in the source is masked in the result. *)
Theorem smoothed_gate (vel_name : string) (radar r' : Radar) (f new : Field)
    (i j : nat) (g0 : gate) :
  smooth_vel vel_name radar = Returned r' →
  dict_get vel_name (fields radar) = Some f →
  dict_get "vcor_cmean_smooth" (fields r') = Some new →
  at2 (data f) i j = Some g0 →
  ∃ gout lo hi,
    let w := window (map (map gval) (data f)) i j in
    at2 (data new) i j = Some gout ∧
    (gmask g0 = true → gmask gout = true) ∧
    w ≡ₚ lo ++ gval gout :: hi ∧ length lo = 4 ∧ length hi = 4 ∧
    Forall (λ x, (x ≤ gval gout)%Qc) lo ∧
    Forall (λ x, (gval gout ≤ x)%Qc) hi ∧
    ∀ x, x ∈ w →
      ∃ i' j' g, at2 (data f) i' j' = Some g ∧ gval g = x ∧
                 i - 1 ≤ i' ∧ i' ≤ i + 1 ∧ j - 1 ≤ j' ∧ j' ≤ j + 1.
Proof.
  intros (f' & m & Hf & _ & _ & Hshape & ->)%smooth_vel_Returned Hf' Hnew Hg0.
  rewrite Hf in Hf'. injection Hf' as ->.
  cbn [fields] in Hnew. rewrite dict_get_dict_set in Hnew.
  destruct (decide (_ = _)); [|done]. injection Hnew as <-. cbn [data].
  assert (i < nrays radar ∧ j < length (range radar)) as [Hi Hj].
  { split; [by eapply at2_row_bound; [|rewrite Hg0]|].
    apply at2_Some_rows in Hg0 as (row & Hrow & Hg0).
    apply shape_replicate_rows in Hshape as [_ Hrows].
    rewrite Forall_lookup in Hrows. rewrite <-(Hrows _ _ Hrow).
    by eapply lookup_lt_Some. }
  destruct (window_spec (map (map gval) (data f)) (nrays radar)
              (length (range radar)) i j) as [Hlen Hmem]; [|done..|].
  { by rewrite shape_fmap2. }
  destruct (median_spec _ Hlen) as (lo & hi & Hperm & Hlo & Hhi & Hle & Hge).
  set (w := window _ i j) in *.
  eexists _, lo, hi. cbn zeta.
  rewrite at2_masked_equal, (at2_smooth _ _ _ _ Hg0).
  cbn [fmap option_fmap option_map mask_gate gval gmask].
  fold w.
  split_and!; [done| |done..|].
  - intros ->. simpl. by rewrite orb_true_r.
  - intros x Hx. destruct (Hmem x Hx) as (i' & j' & Hat & Hb).
    rewrite at2_fmap2 in Hat.
    destruct (at2 (data f) i' j') as [g|] eqn:Hg; [|done].
    injection Hat as <-. by exists i', j', g.
Qed.

(** X13. An isolated speckle is removed.  In a field of at least two rays
    and two range gates, a gate whose neighbours (the gates at most one
    ray and one range gate away, masked or not) all hold the value [v] is
    given the value [v] by [smooth_vel], whatever it held before and
    wherever it lies, the edges and corners of the array included. *)
Theorem isolated_speckle_removed (vel_name : string) (radar r' : Radar)
    (f new : Field) (i j : nat) (v : Qc) :
  smooth_vel vel_name radar = Returned r' →
  dict_get vel_name (fields radar) = Some f →
  dict_get "vcor_cmean_smooth" (fields r') = Some new →
  2 ≤ nrays radar → 2 ≤ length (range radar) →
  i < nrays radar → j < length (range radar) →
  (∀ i' j' g, (i', j') ≠ (i, j) →
     i - 1 ≤ i' → i' ≤ i + 1 → j - 1 ≤ j' → j' ≤ j + 1 →
     at2 (data f) i' j' = Some g → gval g = v) →
  ∃ gout, at2 (data new) i j = Some gout ∧ gval gout = v.
Proof.
  intros (f' & m & Hf & _ & _ & Hshape & ->)%smooth_vel_Returned Hf' Hnew
    Hn HG Hi Hj Hv.
  rewrite Hf in Hf'. injection Hf' as ->.
  cbn [fields] in Hnew. rewrite dict_get_dict_set in Hnew.
  destruct (decide (_ = _)); [|done]. injection Hnew as <-. cbn [data].
  destruct (at2_same_shape (map (map gval) (data f)) (data f) i j)
    as [g0 Hg0]; [by rewrite shape_fmap2| |].
  { apply at2_shape. exists (length (range radar)).
    rewrite shape_fmap2, Hshape, lookup_replicate. done. }
  rewrite at2_masked_equal, (at2_smooth _ _ _ _ Hg0).
  eexists. split; [done|]. cbn [mask_gate gval].
  apply median_majority.
  - eapply window_spec; [by rewrite shape_fmap2|done..].
  - eapply window_isolated; [by rewrite shape_fmap2|done..|].
    intros i' j' x Hne ???? Hx. rewrite at2_fmap2 in Hx.
    destruct (at2 (data f) i' j') as [g|] eqn:Hg; [|done].
    injection Hx as <-. by eapply Hv.
Qed.

(** X14. The least smoothed value is masked.  A gate of the new field
    whose value is at most the smoothed value of every gate that is
    unmasked in the source is masked ([masked_equal] with the minimum,
    line 93), although it may hold a genuine velocity. *)
Theorem smooth_vel_masks_least (vel_name : string) (radar r' : Radar)
    (f new : Field) (i j : nat) (g0 gout : gate) :
  smooth_vel vel_name radar = Returned r' →
  dict_get vel_name (fields radar) = Some f →
  dict_get "vcor_cmean_smooth" (fields r') = Some new →
  at2 (data f) i j = Some g0 →
  at2 (data new) i j = Some gout →
  (∀ i' j' g0' gout',
     at2 (data f) i' j' = Some g0' → gmask g0' = false →
     at2 (data new) i' j' = Some gout' → (gval gout ≤ gval gout')%Qc) →
  gmask gout = true.
Proof.
  intros (f' & m & Hf & _ & Hmin & Hshape & ->)%smooth_vel_Returned Hf' Hnew
    Hg0 Hgout Hleast.
  rewrite Hf in Hf'. injection Hf' as ->.
  cbn [fields] in Hnew. rewrite dict_get_dict_set in Hnew.
  destruct (decide (_ = _)); [|done]. injection Hnew as <-. cbn [data] in *.
  set (smooth := zip_with _ _ _) in *.
  pose proof (at2_smooth (data f)) as Hsm. fold smooth in Hsm.
  rewrite at2_masked_equal, (Hsm _ _ _ Hg0) in Hgout. simpl in Hgout.
  injection Hgout as <-. cbn [gval gmask mask_gate].
  apply ma_min_Ok in Hmin as [_ Hmin].
  destruct m as [v|]; [|done]. cbn [hits].
  destruct (gmask g0) eqn:Hmask; [by rewrite orb_true_r|].
  rewrite orb_false_r. apply Qc_eqb_eq.
  destruct Hmin as [(g & Hin & Hgm & Hgv) Hlow].
  apply Qcle_antisym.
  - apply elem_of_concat_at2 in Hin as (i' & j' & Hg).
    destruct (at2_same_shape smooth (data f) i' j') as [g0' Hg0'].
    { unfold smooth. by rewrite shape_zip_with2, <-smooth_shapes,
        shape_fmap2 by apply smooth_shapes. }
    { by rewrite Hg. }
    rewrite (Hsm _ _ _ Hg0') in Hg. injection Hg as <-.
    cbn [gval gmask] in *. subst v.
    assert (at2 (masked_equal smooth
                   (Some (median (window (map (map gval) (data f)) i' j'))))
              i' j'
            = Some (mask_gate true
                      (Gate (median (window (map (map gval) (data f)) i' j'))
                         (gmask g0')))) as Hout.
    { rewrite at2_masked_equal, (Hsm _ _ _ Hg0'). simpl.
      by rewrite Qc_eqb_refl. }
    exact (Hleast i' j' g0' _ Hg0' Hgm Hout).
  - apply (Hlow (Gate _ false)); [|done].
    eapply at2_elem_of. rewrite (Hsm _ _ _ Hg0). by rewrite Hmask.
Qed.

(** X15. What [smooth_vel] stores and what it leaves alone.  A call that
    returns has found the field [vel_name]; it stores one field, under
    the fixed name [vcor_cmean_smooth], with the shape and the storage
    precision of the source, replacing a field of that name in place or
    else appending it as the last key; every other field, the source
    included, and the rest of the radar object are unchanged. *)
Theorem smooth_vel_adds_one_field (vel_name : string) (radar r' : Radar) :
  smooth_vel vel_name radar = Returned r' →
  ∃ f new,
    dict_get vel_name (fields radar) = Some f ∧
    dict_get "vcor_cmean_smooth" (fields r') = Some new ∧
    dtype_of new = dtype_of f ∧
    shape (data new) = shape (data f) ∧
    geometry r' = geometry radar ∧
    (∀ k, k ≠ "vcor_cmean_smooth"%string →
          dict_get k (fields r') = dict_get k (fields radar)) ∧
    (fields r').*1
    = if decide ("vcor_cmean_smooth"%string ∈ (fields radar).*1)
      then (fields radar).*1
      else (fields radar).*1 ++ ["vcor_cmean_smooth"%string].
Proof.
  intros (f & m & Hf & _ & _ & _ & ->)%smooth_vel_Returned.
  eexists f, _. cbn [fields].
  rewrite dict_get_dict_set. destruct (decide (_ = _)); [|done].
  split_and!; [done..| | | |].
  - cbn [data]. by rewrite shape_masked_equal, shape_zip_with2,
      <-smooth_shapes, shape_fmap2 by apply smooth_shapes.
  - done.
  - intros k Hk. rewrite dict_get_dict_set. by destruct (decide (k = _)).
  - apply dict_set_names.
Qed.

(** X16. The template field is fixed.  Whatever [vel_name] is, line 96
    copies the metadata of the field named [vcor_cmean]: on a volume that
    has the field [vel_name] (with at least one gate) but no field named
    [vcor_cmean], or whose array has not the shape [(nrays, ngates)],
    [smooth_vel] raises [ValueError] and leaves the radar object as it
    was. *)
Theorem smooth_vel_template_missing (vel_name : string) (radar : Radar)
    (f : Field) :
  dict_get vel_name (fields radar) = Some f →
  gate_count (data f) ≠ 0 →
  dict_get "vcor_cmean" (fields radar) = None ∨
  shape (data f) ≠ replicate (nrays radar) (length (range radar)) →
  smooth_vel vel_name radar = Raised ValueError radar.
Proof.
  unfold smooth_vel. intros -> Hcount Hbad.
  unfold masked_where. rewrite decide_True by apply smooth_shapes.
  unfold ma_min. rewrite decide_False; last first.
  { rewrite gate_count_shape, shape_zip_with2 by apply smooth_shapes.
    by rewrite <-smooth_shapes, shape_fmap2, <-gate_count_shape. }
  unfold add_field_like, add_field. cbn [data].
  destruct Hbad as [->|Hshape]; [done|].
  destruct (dict_get "vcor_cmean" (fields radar)); [|done].
  rewrite decide_False; [done|].
  by rewrite shape_masked_equal, shape_zip_with2, <-smooth_shapes,
    shape_fmap2 by apply smooth_shapes.
Qed.

(** ** [dual_nyquist] *)

Lemma param_get_update (k name : string) (x : list Qc) (d : params) :
  param_get k (param_update name x d)
  = if decide (k = name) then (λ _, x) <$> param_get k d else param_get k d.
Proof.
  induction d as [|[k' y] d IH]; simpl.
  - by destruct (decide (k = name)).
  - destruct (decide (k' = name)) as [->|Hne]; simpl.
    + destruct (decide (name = k)) as [<-|Hk].
      * by destruct (decide (name = name)).
      * by destruct (decide (k = name)) as [->|].
    + destruct (decide (k' = k)) as [->|Hk].
      * by destruct (decide (k = name)).
      * done.
Qed.

Lemma param_update_names (name : string) (x : list Qc) (d : params) :
  (param_update name x d).*1 = d.*1.
Proof.
  induction d as [|[k' y] d IH]; [done|]. cbn [param_update].
  destruct (decide (k' = name)); rewrite !fmap_cons; cbn [fst]; [done|].
  by rewrite IH.
Qed.

Lemma fdiv_Some (x y : Qc) : y ≠ 0%Qc → fdiv x y = Some (x / y)%Qc.
Proof. intros Hy. unfold fdiv. by rewrite decide_False. Qed.

Lemma fdiv_is_Some (x y z : Qc) : fdiv x y = Some z → y ≠ 0%Qc.
Proof. unfold fdiv. by case_decide. Qed.

Lemma mapM_fdiv_l (x : Qc) (l : list Qc) :
  Forall (λ y, y ≠ 0%Qc) l → mapM (fdiv x) l = Some ((λ y, x / y)%Qc <$> l).
Proof.
  intros Hl. apply mapM_Some. apply Forall2_fmap_r, Forall_Forall2_diag.
  eapply Forall_impl; [exact Hl|]. intros y Hy. by apply fdiv_Some.
Qed.

Lemma mapM_fdiv_r (d : Qc) (l : list Qc) :
  d ≠ 0%Qc → mapM (λ x, fdiv x d) l = Some ((λ x, x / d)%Qc <$> l).
Proof.
  intros Hd. apply mapM_Some. apply Forall2_fmap_r, Forall_Forall2_diag.
  apply Forall_forall. intros y _. by apply fdiv_Some.
Qed.

Lemma mapM_fdiv_l_Some (x : Qc) (l l' : list Qc) :
  mapM (fdiv x) l = Some l' → Forall (λ y, y ≠ 0%Qc) l.
Proof.
  intros Hm. apply Forall_forall. intros y Hy.
  apply mapM_Some_1 in Hm. apply list_elem_of_lookup in Hy as [i Hi].
  destruct (Forall2_lookup_l _ _ _ _ _ Hm Hi) as (z & _ & Hz).
  by eapply fdiv_is_Some.
Qed.

Lemma mapM_fdiv_r_Some (d : Qc) (l l' : list Qc) :
  mapM (λ x, fdiv x d) l = Some l' → l ≠ [] → d ≠ 0%Qc.
Proof.
  intros Hm Hne. apply mapM_Some_1 in Hm.
  destruct Hm as [|y z l k Hy _]; [done|]. by eapply fdiv_is_Some.
Qed.

Lemma dual_nyquist_Ok (nrays : nat) (ip ip' : params) :
  dual_nyquist nrays ip = Ok (Some ip') →
  ∃ frequency ratio_data prt_ratio prt_data prt0 old,
    param_get "frequency" ip = Some frequency ∧
    param_get "prt_ratio" ip = Some ratio_data ∧
    ratio_data !! 0 = Some prt_ratio ∧
    param_get "prt" ip = Some prt_data ∧ prt_data !! 0 = Some prt0 ∧
    param_get "nyquist_velocity" ip = Some old ∧
    Forall (λ f, f ≠ 0%Qc) frequency ∧ prt_ratio ≠ 0%Qc ∧
    (frequency ≠ [] →
     (Qc_of_Z 4 * prt0 * (1 / prt_ratio - 1))%Qc ≠ 0%Qc) ∧
    ip' = param_update "nyquist_velocity"
            (np_resize
               ((λ f, c / f / (Qc_of_Z 4 * prt0 * (1 / prt_ratio - 1)))%Qc
                  <$> frequency) nrays) ip.
Proof.
  unfold dual_nyquist. intros Hd.
  apply rbind_Ok in Hd as (frequency & Hfreq%or_raise_Ok & Hd).
  apply rbind_Ok in Hd as (ratio_data & Hrd%or_raise_Ok & Hd).
  apply rbind_Ok in Hd as (prt_ratio & Hratio%or_raise_Ok & Hd).
  apply rbind_Ok in Hd as (prt_data & Hpd%or_raise_Ok & Hd).
  apply rbind_Ok in Hd as (prt0 & Hprt0%or_raise_Ok & Hd).
  apply rbind_Ok in Hd as (old & Hold%or_raise_Ok & Hd).
  injection Hd as Hd.
  destruct (mapM (fdiv c) frequency) as [lamb|] eqn:Hlamb; [|done].
  cbn [mbind option_bind] in Hd.
  destruct (fdiv 1 prt_ratio) as [inv|] eqn:Hinv; [|done].
  pose proof (fdiv_is_Some _ _ _ Hinv) as Hr0.
  rewrite fdiv_Some in Hinv by done. injection Hinv as <-.
  cbn [mbind option_bind] in Hd.
  destruct (mapM _ lamb) as [nyquist|] eqn:Hnyq; [|done].
  injection Hd as <-.
  pose proof (mapM_fdiv_l_Some _ _ _ Hlamb) as Hnz.
  rewrite (mapM_fdiv_l _ _ Hnz) in Hlamb. injection Hlamb as <-.
  exists frequency, ratio_data, prt_ratio, prt_data, prt0, old.
  split_and!; [done..| |].
  - intros Hne. eapply mapM_fdiv_r_Some; [done|].
    by destruct frequency.
  - destruct (decide (frequency = [])) as [->|Hne].
    { cbn in Hnyq. by injection Hnyq as <-. }
    rewrite mapM_fdiv_r in Hnyq.
    + injection Hnyq as <-. by rewrite <-list_fmap_compose.
    + eapply mapM_fdiv_r_Some; [done|]. by destruct frequency.
Qed.

Lemma nyquist_pos (f prt0 prt_ratio : Qc) :
  (0 < f)%Qc → (0 < prt0)%Qc → (0 < prt_ratio)%Qc → (prt_ratio < 1)%Qc →
  (0 < c / f / (Qc_of_Z 4 * prt0 * (1 / prt_ratio - 1)))%Qc.
Proof.
  intros Hf Hp Hr Hr1.
  apply Qcdiv_pos; [by apply Qcdiv_pos|].
  apply Qcmult_pos_pos; [by apply Qcmult_pos_pos|].
  replace (1 / prt_ratio - 1)%Qc with ((1 + - prt_ratio) / prt_ratio)%Qc
    by (field; by apply Qc_pos_ne).
  apply Qcdiv_pos; [|done]. by apply (proj1 (Qclt_minus_iff _ _)).
Qed.

Lemma nyquist_neg (f prt0 prt_ratio : Qc) :
  (0 < f)%Qc → (0 < prt0)%Qc → (1 < prt_ratio)%Qc →
  (c / f / (Qc_of_Z 4 * prt0 * (1 / prt_ratio - 1)) < 0)%Qc.
Proof.
  intros Hf Hp Hr1.
  assert (0 < prt_ratio)%Qc as Hr by (by trans 1%Qc).
  assert (prt_ratio + - (1) ≠ 0)%Qc as Hne.
  { apply Qc_pos_ne. by apply (proj1 (Qclt_minus_iff _ _)). }
  apply (proj2 (Qclt_minus_iff _ _)).
  replace (0 + - (c / f / (Qc_of_Z 4 * prt0 * (1 / prt_ratio - 1))))%Qc
    with (c / f / (Qc_of_Z 4 * prt0 * ((prt_ratio + - (1)) / prt_ratio)))%Qc.
  - apply Qcdiv_pos; [by apply Qcdiv_pos|].
    apply Qcmult_pos_pos; [by apply Qcmult_pos_pos|].
    apply Qcdiv_pos; [|done]. by apply (proj1 (Qclt_minus_iff _ _)).
  - field.
    split_and!; [by apply Qc_pos_ne..| |by apply Qc_pos_ne| |exact Hne].
    + intros Heq. assert (1 - prt_ratio = 0)%Qc as Heq' by exact Heq.
      apply Hne. trans (- (1 - prt_ratio))%Qc; [ring|]. by rewrite Heq'.
    + by apply Qc_pos_ne.
Qed.

(** X17. The Nyquist velocity array.  When [dual_nyquist] returns finite
    numbers, the entry [nyquist_velocity] holds exactly [nrays] values:
    the value at ray [i] is [c / f / (4 * prt[0] * (1 / prt_ratio[0] - 1))]
    for the frequency [f] at position [i] modulo the number of
    frequencies (zeros when there is no frequency); only the first
    element of [prt] and of [prt_ratio] is read, and every other entry of
    the instrument parameters, the keys and their order are unchanged. *)
Theorem dual_nyquist_value (nrays : nat) (ip ip' : params) :
  dual_nyquist nrays ip = Ok (Some ip') →
  ∃ frequency ratio_data prt_ratio prt_data prt0 nyquist,
    param_get "frequency" ip = Some frequency ∧
    param_get "prt_ratio" ip = Some ratio_data ∧
    ratio_data !! 0 = Some prt_ratio ∧
    param_get "prt" ip = Some prt_data ∧ prt_data !! 0 = Some prt0 ∧
    param_get "nyquist_velocity" ip' = Some nyquist ∧
    length nyquist = nrays ∧
    (∀ i f, i < nrays → frequency !! (i mod length frequency) = Some f →
       nyquist !! i
       = Some (c / f / (Qc_of_Z 4 * prt0 * (1 / prt_ratio - 1)))%Qc) ∧
    (frequency = [] → nyquist = replicate nrays 0%Qc) ∧
    (∀ k, k ≠ "nyquist_velocity"%string →
          param_get k ip' = param_get k ip) ∧
    ip'.*1 = ip.*1.
Proof.
  intros (frequency & ratio_data & prt_ratio & prt_data & prt0 & old & Hfreq
          & Hrd & Hratio & Hpd & Hprt0 & Hold & _ & _ & _ & ->)
    %dual_nyquist_Ok.
  eexists frequency, ratio_data, prt_ratio, prt_data, prt0, _.
  rewrite param_get_update. destruct (decide (_ = _)); [|done].
  rewrite Hold. cbn [fmap option_fmap option_map].
  split_and!; [done..|apply length_np_resize| | | |].
  - intros i f Hi Hf. rewrite np_resize_lookup; [|by destruct frequency|done].
    by rewrite length_fmap, list_lookup_fmap, Hf.
  - by intros ->.
  - intros k Hk. rewrite param_get_update. by destruct (decide (k = _)).
  - apply param_update_names.
Qed.

(** X18. The sign of the Nyquist velocity.  With positive frequencies and
    a positive first pulse repetition time, every value [dual_nyquist]
    stores is positive when the first PRT ratio lies strictly between 0
    and 1, and negative when it is greater than 1 (the ratio stored the
    other way round). *)
Theorem dual_nyquist_sign (nrays : nat) (ip ip' : params)
    (frequency ratio_data prt_data nyquist : list Qc) (prt_ratio prt0 : Qc) :
  dual_nyquist nrays ip = Ok (Some ip') →
  param_get "frequency" ip = Some frequency →
  param_get "prt_ratio" ip = Some ratio_data →
  ratio_data !! 0 = Some prt_ratio →
  param_get "prt" ip = Some prt_data → prt_data !! 0 = Some prt0 →
  param_get "nyquist_velocity" ip' = Some nyquist →
  frequency ≠ [] → Forall (λ f, (0 < f)%Qc) frequency → (0 < prt0)%Qc →
  ((0 < prt_ratio)%Qc → (prt_ratio < 1)%Qc →
   Forall (λ x, (0 < x)%Qc) nyquist) ∧
  ((1 < prt_ratio)%Qc → Forall (λ x, (x < 0)%Qc) nyquist).
Proof.
  intros (frequency' & ratio_data' & prt_ratio' & prt_data' & prt0' & old
          & Hfreq & Hrd & Hratio & Hpd & Hprt0 & Hold & _ & _ & _ & ->)
    %dual_nyquist_Ok Hfreq' Hrd' Hratio' Hpd' Hprt0' Hnyq Hne Hpos Hp.
  rewrite Hfreq in Hfreq'. injection Hfreq' as ->.
  rewrite Hrd in Hrd'. injection Hrd' as ->.
  rewrite Hratio in Hratio'. injection Hratio' as ->.
  rewrite Hpd in Hpd'. injection Hpd' as ->.
  rewrite Hprt0 in Hprt0'. injection Hprt0' as ->.
  rewrite param_get_update in Hnyq. destruct (decide (_ = _)); [|done].
  rewrite Hold in Hnyq. injection Hnyq as <-.
  assert (∀ P : Qc → Prop,
            (∀ f, (0 < f)%Qc →
               P (c / f / (Qc_of_Z 4 * prt0 * (1 / prt_ratio - 1)))%Qc) →
            Forall P
              (np_resize
                 ((λ f, c / f / (Qc_of_Z 4 * prt0 * (1 / prt_ratio - 1)))%Qc
                    <$> frequency) nrays)) as Hall.
  { intros P HP. apply Forall_lookup. intros i x Hx.
    assert (i < nrays) as Hi.
    { apply lookup_lt_Some in Hx. by rewrite length_np_resize in Hx. }
    rewrite np_resize_lookup in Hx; [|by destruct frequency|done].
    rewrite list_lookup_fmap in Hx.
    destruct (frequency !! _) as [f|] eqn:Hf; [|done].
    injection Hx as <-. apply HP.
    rewrite Forall_lookup in Hpos. by eapply Hpos. }
  split.
  - intros Hr Hr1. apply Hall. intros f Hf. by apply nyquist_pos.
  - intros Hr1. apply Hall. intros f Hf. by apply nyquist_neg.
Qed.

(** X19. [dual_nyquist] does not create the entry it writes.  Line 30
    stores into [instrument_parameters['nyquist_velocity']]: on
    parameters without that entry the call raises, a [KeyError] when the
    three entries it reads are present and not empty, and the parameters
    hold no new entry. *)
Theorem dual_nyquist_needs_entry (nrays : nat) (ip : params) :
  param_get "nyquist_velocity" ip = None →
  (∃ e, dual_nyquist nrays ip = Err e) ∧
  (∀ frequency ratio_data prt_ratio prt_data prt0,
     param_get "frequency" ip = Some frequency →
     param_get "prt_ratio" ip = Some ratio_data →
     ratio_data !! 0 = Some prt_ratio →
     param_get "prt" ip = Some prt_data → prt_data !! 0 = Some prt0 →
     dual_nyquist nrays ip = Err KeyError).
Proof.
  intros Hnone. unfold dual_nyquist. rewrite Hnone. split.
  - destruct (param_get "frequency" ip); [|by eexists]. simpl.
    destruct (param_get "prt_ratio" ip) as [rd|]; [|by eexists]. simpl.
    destruct (rd !! 0); [|by eexists]. simpl.
    destruct (param_get "prt" ip) as [pd|]; [|by eexists]. simpl.
    destruct (pd !! 0); [|by eexists]. simpl. by eexists.
  - intros ????? Hf Hrd Hr Hpd Hp.
    rewrite Hf. simpl. rewrite Hrd. simpl. rewrite Hr. simpl.
    rewrite Hpd. simpl. by rewrite Hp.
Qed.

(** ** The further properties on the example volumes *)

Import EdgeExamples.

Lemma sorted_rays_stay_together_witness :
  ∃ r' kv',
    main Examples.two_sweep_volume = Returned r' ∧ fields r' !! 0 = Some kv' ∧
  ∃ s0 k kvl sl azi ele fld,
    let t := dtype_of kvl.2 in
    head (sweep_number Examples.two_sweep_volume) = Some s0 ∧
    sweep_ray_count Examples.two_sweep_volume s0 = Ok k ∧
    last (fields Examples.two_sweep_volume) = Some kvl ∧
    get_slice Examples.two_sweep_volume 0 = Ok sl ∧
    delete_extra_ray (slice sl (azimuth Examples.two_sweep_volume)) = Ok azi ∧
    delete_extra_ray (slice sl (elevation Examples.two_sweep_volume))
    = Ok ele ∧
    delete_extra_ray (slice sl (data Examples.two_sweep_dbz)) = Ok fld ∧
    argsort azi ≡ₚ seq 0 (length azi) ∧
    (length azi = k →
     ∀ i j, argsort azi !! i = Some j →
       azimuth r' !! (0 * k + i) = astype t <$> azi !! j ∧
       elevation r' !! (0 * k + i) = astype t <$> ele !! j ∧
       ∀ c g0, at2 fld j c = Some g0 →
         ∃ gout, at2 (data kv'.2) (0 * k + i) c = Some gout ∧
                 gval gout
                 = astype (dtype_of Examples.two_sweep_dbz) (gval g0) ∧
                 (length (slice sl (data Examples.two_sweep_dbz)) ≠ 361 →
                  gmask g0 = true → gmask gout = true)).
Proof.
  eexists _, _. split; [vm_compute; reflexivity|]. split; [reflexivity|].
  eapply (sorted_rays_stay_together Examples.two_sweep_volume _ 0 0 0
            ("dbz"%string, Examples.two_sweep_dbz) _);
    [apply two_sweep_volume_consistent|vm_compute; reflexivity
    |reflexivity|reflexivity|reflexivity].
Defined.


Lemma azimuth_grid_within_span_witness :
  ∃ r', main Examples.uneven_volume = Returned r' ∧
  ∃ smin g azi azs els idx a lo hi,
    build_grids Examples.uneven_volume smin = Ok g ∧
    sorted_rays Examples.uneven_volume 1 = Ok (azi, azs, els, idx) ∧
    az_final g !! 1 = Some a ∧
    azs !! 0 = Some lo ∧ last azs = Some hi ∧
    lo ∈ azi ∧ hi ∈ azi ∧
    (∀ x, x ∈ azi → (lo ≤ x)%Qc ∧ (x ≤ hi)%Qc) ∧
    (∀ x, x ∈ a → (lo ≤ x)%Qc ∧ (x ≤ hi)%Qc).
Proof.
  eexists. split; [vm_compute; reflexivity|].
  eapply (azimuth_grid_within_span Examples.uneven_volume _ 1 1);
    [compute_done|vm_compute; reflexivity|reflexivity].
Defined.

Lemma resampled_sweep_rounded_witness :
  ∃ g rr fs mr sl r0 r1 field (az0 : list Qc),
    build_grids Examples.uneven_volume 0 = Ok g ∧
    resample_sweep Examples.uneven_volume g Examples.uneven_dbz 1
    = Ok (rr, fs, mr) ∧
    get_slice Examples.uneven_volume 1 = Ok sl ∧
    gate_range (range Examples.uneven_volume)
      (slice sl (azimuth Examples.uneven_volume))
      (slice sl (elevation Examples.uneven_volume)) = Ok r0 ∧
    delete_extra_ray2 r0 (slice sl (data Examples.uneven_dbz))
    = Ok (r1, field) ∧
    az_final g !! 0 = Some az0 ∧
    length field ≠ length az0 ∧
  ∃ azi azs sorted target field_interp,
    delete_extra_ray (slice sl (azimuth Examples.uneven_volume)) = Ok azi ∧
    fancy_index azi (argsort azi) = Ok azs ∧
    fancy_index field (argsort azi) = Ok sorted ∧
    az_final g !! 1 = Some target ∧
    interp2d (range Examples.uneven_volume) azs (map (map gval) sorted)
      (range Examples.uneven_volume) target
    = Ok field_interp ∧
    shape fs = shape field_interp ∧
    ∀ i j y, at2 field_interp i j = Some y →
      ∃ n : Z,
        at2 fs i j = Some (unmasked (Qc_of_Z n / Qc_of_Z 1000)%Qc) ∧
        (y - Q2Qc (1 # 2000) ≤ Qc_of_Z n / Qc_of_Z 1000)%Qc ∧
        (Qc_of_Z n / Qc_of_Z 1000 ≤ y + Q2Qc (1 # 2000))%Qc.
Proof.
  eexists _, _, _, _, _, _, _, _, _.
  split; [vm_compute; reflexivity|].
  split; [vm_compute; reflexivity|].
  split; [vm_compute; reflexivity|].
  split; [vm_compute; reflexivity|].
  split; [vm_compute; reflexivity|].
  split; [vm_compute; reflexivity|].
  split; [vm_compute; lia|].
  eapply (resampled_sweep_rounded Examples.uneven_volume _
            Examples.uneven_dbz 1);
    [vm_compute; reflexivity|vm_compute; reflexivity|vm_compute; reflexivity
    |vm_compute; reflexivity|vm_compute; reflexivity|vm_compute; lia].
Defined.

Lemma main_keeps_consistent_witness :
  ∃ v1, main Examples.two_sweep_volume = Returned v1 ∧
  ∃ s0 k,
    head (sweep_number Examples.two_sweep_volume) = Some s0 ∧
    sweep_ray_count Examples.two_sweep_volume s0 = Ok k ∧
    0 < k ∧ k ≠ 361 ∧
    consistent v1 ∧
    nrays v1 = length (azimuth v1) ∧
    ∀ p, p < length (sweep_number Examples.two_sweep_volume) →
         sweep_ray_count v1 p = Ok k.
Proof.
  eexists. split; [vm_compute; reflexivity|].
  apply (main_keeps_consistent Examples.two_sweep_volume);
    [apply two_sweep_volume_consistent|vm_compute; reflexivity].
Defined.

Lemma failure_keeps_replaced_field_witness :
  ∃ e r' g d f,
    fields Examples.single_sweep_volume = [("dbz"%string, f)] ∧
    main Examples.single_sweep_volume = Raised e r' ∧
    build_grids Examples.single_sweep_volume 0 = Ok g ∧
    resample_field Examples.single_sweep_volume g 0 f = Ok d ∧
    dict_get "dbz" (fields r') = Some (MkField (dtype_of f) d).
Proof.
  eexists _, _, _, _, _.
  split; [reflexivity|].
  split; [vm_compute; reflexivity|].
  split; [vm_compute; reflexivity|].
  split; [vm_compute; reflexivity|].
  eapply (failure_keeps_replaced_field Examples.single_sweep_volume _
            "dbz" _ [] 0);
    [reflexivity|by intros ?%elem_of_nil|reflexivity|vm_compute; reflexivity
    |vm_compute; reflexivity|vm_compute; reflexivity].
Defined.

Lemma first_sweep_must_be_lowest_witness :
  (∃ e, main reversed_volume = Raised e reversed_volume) ∧
  (∀ x, sorted_rays reversed_volume 1 = Ok x →
        main reversed_volume = Raised NameError reversed_volume).
Proof.
  apply (first_sweep_must_be_lowest reversed_volume 1 0 [0]);
    [reflexivity|by left|lia].
Defined.

Lemma main_needs_a_field_witness :
  (∃ e, main fieldless_volume = Raised e fieldless_volume) ∧
  (∀ smin g, np_min (sweep_number fieldless_volume) = Ok smin →
     build_grids fieldless_volume smin = Ok g →
     main fieldless_volume = Raised NameError fieldless_volume).
Proof. apply (main_needs_a_field fieldless_volume). reflexivity. Defined.

Lemma sweep_outside_tables_witness :
  ∃ e, main gapped_volume = Raised e gapped_volume.
Proof.
  apply (sweep_outside_tables gapped_volume 2);
    [compute_done|left; simpl; lia].
Defined.

Lemma empty_sweep_rejected_witness :
  ∃ e, main empty_sweep_volume = Raised e empty_sweep_volume.
Proof.
  apply (empty_sweep_rejected empty_sweep_volume 0 1 2);
    [compute_done|reflexivity|vm_compute; reflexivity|lia|compute_done
    |vm_compute; reflexivity].
Defined.

Lemma smoothed_gate_witness :
  ∃ r' new,
    smooth_vel "vcor_cmean" velocity_volume = Returned r' ∧
    dict_get "vcor_cmean_smooth" (fields r') = Some new ∧
  ∃ gout lo hi,
    let w := window (map (map gval) (data velocity_field)) 1 1 in
    at2 (data new) 1 1 = Some gout ∧
    (gmask (Examples.v 40) = true → gmask gout = true) ∧
    w ≡ₚ lo ++ gval gout :: hi ∧ length lo = 4 ∧ length hi = 4 ∧
    Forall (λ x, (x ≤ gval gout)%Qc) lo ∧
    Forall (λ x, (gval gout ≤ x)%Qc) hi ∧
    ∀ x, x ∈ w →
      ∃ i' j' g, at2 (data velocity_field) i' j' = Some g ∧ gval g = x ∧
                 1 - 1 ≤ i' ∧ i' ≤ 1 + 1 ∧ 1 - 1 ≤ j' ∧ j' ≤ 1 + 1.
Proof.
  eexists _, _. split; [vm_compute; reflexivity|]. split; [reflexivity|].
  eapply (smoothed_gate "vcor_cmean" velocity_volume _ velocity_field _ 1 1);
    [vm_compute; reflexivity|reflexivity|reflexivity|reflexivity].
Defined.

Lemma isolated_speckle_removed_witness :
  ∃ r' new,
    smooth_vel "vcor_cmean" velocity_volume = Returned r' ∧
    dict_get "vcor_cmean_smooth" (fields r') = Some new ∧
    at2 (data velocity_field) 1 1 = Some (Examples.v 40) ∧
    ∃ gout, at2 (data new) 1 1 = Some gout ∧ gval gout = Examples.z 5.
Proof.
  eexists _, _. split; [vm_compute; reflexivity|]. split; [reflexivity|].
  split; [reflexivity|].
  eapply (isolated_speckle_removed "vcor_cmean" velocity_volume _
            velocity_field _ 1 1);
    [vm_compute; reflexivity|reflexivity|reflexivity|simpl; lia|simpl; lia
    |simpl; lia|simpl; lia|].
  intros [|[|[|i']]] [|[|[|j']]] g Hne _ _ _ _ Hg;
    try discriminate Hg; try (by destruct Hne);
    by injection Hg as <-.
Defined.

Lemma smooth_vel_masks_least_witness :
  ∃ r' new gout,
    smooth_vel "vcor_cmean" velocity_volume = Returned r' ∧
    dict_get "vcor_cmean_smooth" (fields r') = Some new ∧
    at2 (data new) 0 0 = Some gout ∧
    gmask gout = true.
Proof.
  eexists _, _, _. split; [vm_compute; reflexivity|]. split; [reflexivity|].
  split; [reflexivity|].
  eapply (smooth_vel_masks_least "vcor_cmean" velocity_volume _
            velocity_field _ 0 0);
    [vm_compute; reflexivity|reflexivity|reflexivity|reflexivity
    |reflexivity|].
  intros [|[|[|i']]] [|[|[|j']]] g0' gout' Hg0' _ Hgout';
    try discriminate Hg0'; by injection Hgout' as <-.
Defined.

Lemma smooth_vel_adds_one_field_witness :
  ∃ r', smooth_vel "vcor_cmean" velocity_volume = Returned r' ∧
  ∃ f new,
    dict_get "vcor_cmean" (fields velocity_volume) = Some f ∧
    dict_get "vcor_cmean_smooth" (fields r') = Some new ∧
    dtype_of new = dtype_of f ∧
    shape (data new) = shape (data f) ∧
    geometry r' = geometry velocity_volume ∧
    (∀ k, k ≠ "vcor_cmean_smooth"%string →
          dict_get k (fields r') = dict_get k (fields velocity_volume)) ∧
    (fields r').*1
    = if decide ("vcor_cmean_smooth"%string ∈ (fields velocity_volume).*1)
      then (fields velocity_volume).*1
      else (fields velocity_volume).*1 ++ ["vcor_cmean_smooth"%string].
Proof.
  eexists. split; [vm_compute; reflexivity|].
  apply (smooth_vel_adds_one_field "vcor_cmean" velocity_volume).
  vm_compute; reflexivity.
Defined.

Lemma smooth_vel_template_missing_witness :
  smooth_vel "velocity" renamed_velocity_volume
  = Raised ValueError renamed_velocity_volume.
Proof.
  apply (smooth_vel_template_missing "velocity" renamed_velocity_volume
           velocity_field); [reflexivity|vm_compute; lia|by left].
Defined.

Lemma dual_nyquist_value_witness :
  ∃ ip', dual_nyquist 4 staggered_params = Ok (Some ip') ∧
  ∃ frequency ratio_data prt_ratio prt_data prt0 nyquist,
    param_get "frequency" staggered_params = Some frequency ∧
    param_get "prt_ratio" staggered_params = Some ratio_data ∧
    ratio_data !! 0 = Some prt_ratio ∧
    param_get "prt" staggered_params = Some prt_data ∧
    prt_data !! 0 = Some prt0 ∧
    param_get "nyquist_velocity" ip' = Some nyquist ∧
    length nyquist = 4 ∧
    (∀ i f, i < 4 → frequency !! (i mod length frequency) = Some f →
       nyquist !! i
       = Some (c / f / (Qc_of_Z 4 * prt0 * (1 / prt_ratio - 1)))%Qc) ∧
    (frequency = [] → nyquist = replicate 4 0%Qc) ∧
    (∀ k, k ≠ "nyquist_velocity"%string →
          param_get k ip' = param_get k staggered_params) ∧
    ip'.*1 = staggered_params.*1.
Proof.
  eexists. split; [vm_compute; reflexivity|].
  apply (dual_nyquist_value 4 staggered_params). vm_compute; reflexivity.
Defined.

Lemma dual_nyquist_sign_witness :
  ∃ ip' nyquist,
    dual_nyquist 4 staggered_params = Ok (Some ip') ∧
    param_get "nyquist_velocity" ip' = Some nyquist ∧
    ((0 < Q2Qc (2 # 3))%Qc → (Q2Qc (2 # 3) < 1)%Qc →
     Forall (λ x, (0 < x)%Qc) nyquist) ∧
    ((1 < Q2Qc (2 # 3))%Qc → Forall (λ x, (x < 0)%Qc) nyquist).
Proof.
  eexists _, _. split; [vm_compute; reflexivity|]. split; [reflexivity|].
  eapply (dual_nyquist_sign 4 staggered_params);
    [vm_compute; reflexivity|reflexivity|reflexivity|reflexivity|reflexivity
    |reflexivity|reflexivity|done|by repeat constructor|done].
Defined.

Lemma dual_nyquist_needs_entry_witness :
  (∃ e, dual_nyquist 4 params_without_nyquist = Err e) ∧
  (∀ frequency ratio_data prt_ratio prt_data prt0,
     param_get "frequency" params_without_nyquist = Some frequency →
     param_get "prt_ratio" params_without_nyquist = Some ratio_data →
     ratio_data !! 0 = Some prt_ratio →
     param_get "prt" params_without_nyquist = Some prt_data →
     prt_data !! 0 = Some prt0 →
     dual_nyquist 4 params_without_nyquist = Err KeyError).
Proof.
  apply (dual_nyquist_needs_entry 4 params_without_nyquist). reflexivity.
Defined.
